(** * Max-tree construction and attribute filters (skimage/morphology/_max_tree.pyx)

    A shallow embedding of the Cython module [_max_tree.pyx] and the
    verification of its specification.

    Conventions of the embedding.
    - Typed memoryviews are buffers of a heap; a function argument is the
      identifier of a buffer, so two arguments may name the same buffer
      exactly as two memoryviews may share memory.
    - Indexing follows Cython's defaults ([boundscheck=True],
      [wraparound=True]): a negative index is shifted by the length once, and
      an index that is still out of range raises [IndexError].
    - An exception ends the computation and leaves the heap as it was when
      the exception was raised.
    - Pixel values are those of the integer instances of the fused type
      [dtype_t] and are represented by [Z].  Attribute values and thresholds
      ([float64]) are represented by [Z] as well: the code only compares them
      and, in [_compute_area], adds counts, which binary64 does exactly
      below 2^53.
    - [int64] index arithmetic ([p + structure[i]]) is done in [Z]: an index
      is below the length of an array in memory and an offset is an [int32].
      [int32] arithmetic in [offsets_to_points] is wrapped explicitly. *)

From stdpp Require Import base list numbers relations.
Local Open Scope Z_scope.

(** ** Results and exceptions *)

Inductive exn : Type :=
  | IndexError      (* out-of-bounds access to a memoryview or ndarray *)
  | ValueError      (* raised by numpy: np.min of an empty array, np.unravel_index *)
  | RecursionError  (* find_root ran out of stack *)
  | NameError.      (* a name that nothing binds is read *)

Inductive res (A : Type) : Type :=
  | Ok (a : A)
  | Raise (e : exn).
Arguments Ok {A} a.
Arguments Raise {A} e.

(** ** The heap of buffers and the state-and-exception monad *)

Abbreviation buf := nat (only parsing).
Abbreviation heap := (list (list Z)) (only parsing).

Definition M (A : Type) : Type := heap -> res A * heap.

Definition ret {A : Type} (a : A) : M A := fun h => (Ok a, h).

Definition raise {A : Type} (e : exn) : M A := fun h => (Raise e, h).

Definition bind {A B : Type} (m : M A) (k : A -> M B) : M B :=
  fun h =>
    match m h with
    | (Ok a, h') => k a h'
    | (Raise e, h') => (Raise e, h')
    end.

Notation "'let*' x ':=' m 'in' k" := (bind m (fun x => k))
  (at level 10, x name, m at level 100, k at level 200,
   format "'[v' 'let*'  x  ':='  m  'in' '/' k ']'").
Notation "'run' m 'then' k" := (bind m (fun _ => k))
  (at level 10, m at level 100, k at level 200,
   format "'[v' 'run'  m  'then' '/' k ']'").

(** The contents of a buffer; an identifier that names no buffer behaves as
    an empty array. *)
Definition contents (h : heap) (b : buf) : list Z := default [] (h !! b).

(** Index normalisation of a memoryview of length [n]. *)
Definition py_index (n : nat) (i : Z) : option nat :=
  let j := if i <? 0 then i + Z.of_nat n else i in
  if (0 <=? j) && (j <? Z.of_nat n) then Some (Z.to_nat j) else None.

Definition buf_len (b : buf) : M Z :=
  fun h => (Ok (Z.of_nat (length (contents h b))), h).

Definition load (b : buf) (i : Z) : M Z :=
  fun h =>
    let l := contents h b in
    match py_index (length l) i with
    | Some j => match l !! j with
                | Some v => (Ok v, h)
                | None => (Raise IndexError, h)
                end
    | None => (Raise IndexError, h)
    end.

Definition store (b : buf) (i : Z) (v : Z) : M unit :=
  fun h =>
    let l := contents h b in
    match py_index (length l) i with
    | Some j => (Ok tt, <[b := <[j := v]> l]> h)
    | None => (Raise IndexError, h)
    end.

(** A freshly allocated array: a new buffer, distinct from every other. *)
Definition alloc (l : list Z) : M buf :=
  fun h => (Ok (length h), h ++ [l]).

Fixpoint for_each {A : Type} (xs : list A) (body : A -> M unit) : M unit :=
  match xs with
  | [] => ret tt
  | x :: xs' => run body x then for_each xs' body
  end.

(** [for p in b]: the elements are read from the buffer one at a time, as
    the iteration over a memoryview does. *)
Definition for_in (b : buf) (body : Z -> M unit) : M unit :=
  let* n := buf_len b in
  for_each (seqZ 0 n) (fun k => let* p := load b k in body p).

(** [for p in b[::-1]]: the reversed view shares the buffer. *)
Definition for_in_reversed (b : buf) (body : Z -> M unit) : M unit :=
  let* n := buf_len b in
  for_each (reverse (seqZ 0 n)) (fun k => let* p := load b k in body p).

(** Arrays whose element type no written buffer has ([uint8] mask,
    [int32] structure and shape) are passed by value; they are indexed like
    memoryviews. *)
Definition index_val (l : list Z) (i : Z) : res Z :=
  match py_index (length l) i with
  | Some j => match l !! j with
              | Some v => Ok v
              | None => Raise IndexError
              end
  | None => Raise IndexError
  end.

Definition lift {A : Type} (r : res A) : M A := fun h => (r, h).

Definition res_bind {A B : Type} (r : res A) (k : A -> res B) : res B :=
  match r with
  | Ok a => k a
  | Raise e => Raise e
  end.

Fixpoint res_map {A B : Type} (f : A -> res B) (xs : list A) : res (list B) :=
  match xs with
  | [] => Ok []
  | x :: xs' =>
      res_bind (f x) (fun y => res_bind (res_map f xs') (fun ys => Ok (y :: ys)))
  end.

(** ** numpy: [np.min] and [np.unravel_index] (C order) *)

Definition wrap32 (z : Z) : Z := (z + 2 ^ 31) mod 2 ^ 32 - 2 ^ 31.

Definition np_min (l : list Z) : option Z :=
  match l with
  | [] => None
  | x :: l' => Some (foldl Z.min x l')
  end.

Definition prod (shape : list Z) : Z := foldr Z.mul 1 shape.

(** The coordinates of [val], last dimension first. *)
Fixpoint unravel_rev (rev_shape : list Z) (val : Z) : list Z :=
  match rev_shape with
  | [] => []
  | d :: ds => Z.rem val d :: unravel_rev ds (Z.quot val d)
  end.

Definition unravel (index : Z) (shape : list Z) : list Z :=
  reverse (unravel_rev (reverse shape) index).

Definition np_unravel_index (index : Z) (shape : list Z) : res (list Z) :=
  if (0 <=? index) && (index <? prod shape) then Ok (unravel index shape)
  else Raise ValueError.

(** ** The neighbourhood resolver *)

Definition offsets_to_points (offsets shape : list Z) : res (list (list Z)) :=
  match np_min offsets with
  | None => Raise ValueError
  | Some m =>
      let neg_shift := wrap32 (- m) in
      res_bind (np_unravel_index neg_shift shape) (fun center_point =>
      res_map (fun offset =>
        res_bind (np_unravel_index (wrap32 (offset + neg_shift)) shape)
          (fun current_point => Ok (zip_with Z.sub current_point center_point)))
        offsets)
  end.

(** The loop of [_is_valid_coordinate] over the dimensions. *)
Fixpoint valid_loop (p_coord coordinates shape : list Z) {struct shape} : res bool :=
  match shape with
  | [] => Ok true
  | s :: shape' =>
      match p_coord, coordinates with
      | c :: p_coord', d :: coordinates' =>
          let res_coord := c + d in
          if res_coord <? 0 then Ok false
          else if res_coord >=? s then Ok false
          else valid_loop p_coord' coordinates' shape'
      | _, _ => Raise IndexError
      end
  end.

Definition _is_valid_coordinate (index : Z) (coordinates shape : list Z) : res bool :=
  res_bind (np_unravel_index index shape) (fun p_coord =>
  valid_loop p_coord coordinates shape).

(** ** The two inline helpers on [uint64] *)

Definition uint64_max (a b : Z) : Z := if a >=? b then a else b.

Definition uint64_min (a b : Z) : Z := if a <=? b then a else b.

(** ** The tree builder *)

(** [find_root] is recursive in the source; [fuel] is the depth of stack
    that is available. *)
Fixpoint find_root (fuel : nat) (parent : buf) (index : Z) : M Z :=
  match fuel with
  | O => raise RecursionError
  | S fuel' =>
      let* pi := load parent index in
      run (if pi =? index then ret tt
           else
             let* pi' := load parent index in
             let* r := find_root fuel' parent pi' in
             store parent index r)
      then load parent index
  end.

Definition canonize (image parent sorted_indices : buf) : M unit :=
  for_in sorted_indices (fun p =>
    let* q := load parent p in
    let* iq := load image q in
    let* pq := load parent q in
    let* ipq := load image pq in
    if iq =? ipq then
      let* pq' := load parent q in store parent p pq'
    else ret tt).

(** The body of the loop over the neighbours of [p]. *)
Definition visit_neighbor (fuel : nat) (mask structure shape : list Z)
    (points : list (list Z)) (parent zpar : buf) (p : Z) (i : nat) : M unit :=
  let index := p + default 0 (structure !! i) in
  let* mp := lift (index_val mask p) in
  let* valid :=
    (if mp =? 0 then
       lift (_is_valid_coordinate p (default [] (points !! i)) shape)
     else ret true) in
  if negb valid then ret tt
  else
    let* pidx := load parent index in
    if pidx <? 0 then ret tt
    else
      let* root := find_root fuel zpar index in
      if root =? p then ret tt
      else
        run store zpar root p then
        store parent root p.

(** The source reads [len(strides)], and nothing in the module binds the
    name [strides]: it is no argument, no local and no global.  The model
    takes the binding of the name as [strides]: [None] as in the source,
    where reading the name raises [NameError], or [Some l] when a binding
    is supplied; the value read is not used afterwards. *)
Definition _build_max_tree (fuel : nat) (strides : option (list Z))
    (image : buf) (mask structure shape : list Z)
    (parent sorted_indices : buf) : M unit :=
  let* number_of_pixels := buf_len image in
  let* number_of_dimensions :=
    match strides with
    | Some l => ret (Z.of_nat (length l))
    | None => raise NameError
    end in
  let nneighbors := length structure in
  let* zpar := (fun h => alloc (contents h parent) h) in
  let* points := lift (offsets_to_points structure shape) in
  run for_each (seqZ 0 number_of_pixels) (fun i =>
        run store parent i (-1) then
        store zpar i (-1))
  then
  run for_in_reversed sorted_indices (fun p =>
        run store parent p p then
        run store zpar p p then
        for_each (seq 0 nneighbors)
          (visit_neighbor fuel mask structure shape points parent zpar p))
  then
  canonize image parent sorted_indices.

(** ** Attribute computation and the two filters *)

Definition _compute_area (image parent sorted_indices : buf) : M buf :=
  let* p_root := load sorted_indices 0 in
  let* number_of_pixels := buf_len image in
  let* area := alloc (replicate (Z.to_nat number_of_pixels) 1) in
  run for_in_reversed sorted_indices (fun p =>
        if p =? p_root then ret tt
        else
          let* q := load parent p in
          let* aq := load area q in
          let* ap := load area p in
          store area q (aq + ap))
  then ret area.

Definition _direct_filter (image output parent sorted_indices attribute : buf)
    (attribute_threshold : Z) : M unit :=
  let* p_root := load sorted_indices 0 in
  let* number_of_pixels := buf_len image in
  let* a_root := load attribute p_root in
  run (if a_root <? attribute_threshold then store output p_root 0
       else let* v := load image p_root in store output p_root v)
  then
  for_in sorted_indices (fun p =>
    if p =? p_root then ret tt
    else
      let* q := load parent p in
      let* ip := load image p in
      let* iq := load image q in
      if ip =? iq then
        let* v := load output q in store output p v
      else
        let* ap := load attribute p in
        if ap <? attribute_threshold then
          let* v := load output q in store output p v
        else
          let* v := load image p in store output p v).

Definition _cut_first_filter (image output parent sorted_indices attribute : buf)
    (attribute_threshold : Z) : M unit :=
  let* p_root := load sorted_indices 0 in
  let* number_of_pixels := buf_len image in
  let* a_root := load attribute p_root in
  run (if a_root <? attribute_threshold then store output p_root 0
       else let* v := load image p_root in store output p_root v)
  then
  for_in sorted_indices (fun p =>
    if p =? p_root then ret tt
    else
      let* q := load parent p in
      let* ip := load image p in
      let* iq := load image q in
      if ip =? iq then
        let* v := load output q in store output p v
      else
        let* ap := load attribute p in
        if ap <? attribute_threshold then
          let* v := load output q in store output p v
        else
          let* oq := load output q in
          let* iq' := load image q in
          if oq <? iq' then
            let* v := load output q in store output p v
          else
            let* v := load image p in store output p v).

(** ** The procedures as the specification words them

    Arrays are total maps here: [zget] reads 0 and [zset] does nothing out
    of range. *)

Definition zget (l : list Z) (i : Z) : Z := default 0 (l !! Z.to_nat i).

Definition zset (l : list Z) (i v : Z) : list Z := <[Z.to_nat i := v]> l.

(** Root handling of both filters. *)
Definition root_value (I A : list Z) (thr root : Z) : Z :=
  if zget A root <? thr then 0 else zget I root.

(** Per-pixel rule of the direct filter, with [q = Parent[p]]. *)
Definition direct_rule (I A : list Z) (thr : Z) (out : list Z) (p q : Z) : Z :=
  if zget I p =? zget I q then zget out q
  else if zget A p <? thr then zget out q
  else zget I p.

(** Per-pixel rule of the cut-first filter. *)
Definition cut_first_rule (I A : list Z) (thr : Z) (out : list Z) (p q : Z) : Z :=
  if zget I p =? zget I q then zget out q
  else if (zget A p <? thr) || (zget out q <? zget I q) then zget out q
  else zget I p.

(** A non-root pixel [p] takes the value of the rule at [q = Parent[p]]. *)
Definition filter_step (rule : list Z -> Z -> Z -> Z) (T : list Z) (root : Z)
    (out : list Z) (p : Z) : list Z :=
  if p =? root then out else zset out p (rule out p (zget T p)).

(** Root first, then every non-root pixel in ascending sorted order. *)
Definition filter_spec (rule : list Z -> Z -> Z -> Z) (I T S A : list Z)
    (thr : Z) (out : list Z) : list Z :=
  let root := zget S 0 in
  foldl (filter_step rule T root) (zset out root (root_value I A thr root)) S.

Definition direct_filter_spec (I T S A : list Z) (thr : Z) (out : list Z) : list Z :=
  filter_spec (direct_rule I A thr) I T S A thr out.

Definition cut_first_filter_spec (I T S A : list Z) (thr : Z) (out : list Z) : list Z :=
  filter_spec (cut_first_rule I A thr) I T S A thr out.

(** [A[p] = 1] everywhere, then [A[Parent[p]] += A[p]] over the sorted
    indices in reverse, the root excepted. *)
Definition area_step (T : list Z) (root : Z) (A : list Z) (p : Z) : list Z :=
  if p =? root then A
  else zset A (zget T p) (zget A (zget T p) + zget A p).

Definition area_spec (n : nat) (T S : list Z) : list Z :=
  foldl (area_step T (zget S 0)) (replicate n 1) (reverse S).

(** The [k]-th ancestor of a pixel, and the subtree rooted at [p]: the
    pixels that have [p] among their ancestors (themselves included). *)
Definition ancestor (T : list Z) (k : nat) (x : Z) : Z := Nat.iter k (zget T) x.

Definition in_subtree (T : list Z) (n : nat) (p x : Z) : bool :=
  existsb (fun k => ancestor T k x =? p) (seq 0 n).

(** The number of elements of [l] that satisfy [f]. *)
Fixpoint count_if (f : Z -> bool) (l : list Z) : Z :=
  match l with
  | [] => 0
  | y :: l' => (if f y then 1 else 0) + count_if f l'
  end.

Definition subtree_size (T : list Z) (n : nat) (p : Z) : Z :=
  count_if (in_subtree T n p) (seqZ 0 (Z.of_nat n)).

(** For a part [suf] of the sorted pixels, the first ancestor of [y] (or [y]
    itself) outside [suf]; it is found in one pass over [suf] from the
    end, because parents come before children. *)
Definition top (T : list Z) (suf : list Z) (y : Z) : Z :=
  foldr (fun s cur => if s =? cur then zget T s else cur) y suf.

(** ** Well-formed inputs, as decidable checks *)

Definition in_range (n : nat) (x : Z) : bool := (0 <=? x) && (x <? Z.of_nat n).

(** [S] is a permutation of [0..n). *)
Definition is_perm (n : nat) (S : list Z) : bool :=
  (length S =? n)%nat && forallb (fun x => existsb (Z.eqb x) S) (seqZ 0 (Z.of_nat n)).

(** Every pixel of [rest] has its parent among the pixels before it. *)
Fixpoint order_from (T : list Z) (seen rest : list Z) : bool :=
  match rest with
  | [] => true
  | p :: rest' => existsb (Z.eqb (zget T p)) seen && order_from T (p :: seen) rest'
  end.

(** The order of the tree: the first pixel is the root, its own parent, and
    the parent of every other pixel comes before the pixel. *)
Definition tree_order (T S : list Z) : bool :=
  match S with
  | [] => false
  | r :: rest => (zget T r =? r) && order_from T [r] rest
  end.

(** Intensity does not increase from a pixel to its parent. *)
Definition tree_mono (I T : list Z) : bool :=
  forallb (fun p => zget I (zget T p) <=? zget I p) (seqZ 0 (Z.of_nat (length T))).

(** ** Weakest preconditions for the monad *)

Definition wp {A : Type} (m : M A) (Q : A -> heap -> Prop) (h : heap) : Prop :=
  match m h with
  | (Ok a, h') => Q a h'
  | (Raise _, _) => False
  end.

(** [m] leaves every buffer other than [b] as it is, whatever the
    outcome, and allocates none. *)
Definition writes_only (b : buf) {A : Type} (m : M A) : Prop :=
  forall h r h', m h = (r, h') ->
    length h' = length h /\ forall b', b' <> b -> h' !! b' = h !! b'.

(** ** Calls of the filters *)

(** The arrays of a filter call agree in length, [S] is not empty, and [S]
    and [T] hold pixel indices. *)
Definition filter_inputs (n : nat) (I O T S A : list Z) : bool :=
  forallb (fun l => (length l =? n)%nat) [I; O; T; A]
  && negb (length S =? 0)%nat
  && forallb (in_range n) S && forallb (in_range n) T.

(** The arguments of a filter call name the arrays [I], [O], [T], [S], [A]
    in the heap, and [output] shares its buffer with no other argument. *)
Definition filter_call (h : heap) (image output parent sorted_indices attribute : buf)
    (I O T S A : list Z) : Prop :=
  h !! image = Some I /\ h !! output = Some O /\ h !! parent = Some T /\
  h !! sorted_indices = Some S /\ h !! attribute = Some A /\
  output <> image /\ output <> parent /\ output <> sorted_indices /\
  output <> attribute.

(** ** Calls of [_compute_area] *)

Definition area_inputs (n : nat) (I T S : list Z) : bool :=
  (length I =? n)%nat && (length T =? n)%nat && negb (length S =? 0)%nat
  && forallb (in_range n) S && forallb (in_range n) T.

Definition area_call (h : heap) (image parent sorted_indices : buf)
    (I T S : list Z) : Prop :=
  h !! image = Some I /\ h !! parent = Some T /\ h !! sorted_indices = Some S.

(** The attribute does not increase from a pixel to its child. *)
Definition attr_increasing (A T : list Z) : bool :=
  forallb (fun p => zget A p <=? zget A (zget T p)) (seqZ 0 (Z.of_nat (length T))).

(** A well-formed tree over [n] pixels: [S] is a permutation of the pixels,
    parents come before children, and [T] holds pixel indices. *)
Definition tree_inputs (n : nat) (T S : list Z) : bool :=
  (length T =? n)%nat && is_perm n S && tree_order T S && forallb (in_range n) T.

(** The buffers of a run of [_compute_area] followed by a filter. *)
Definition pipeline_call (h : heap) (image output parent sorted_indices : buf)
    (I O T S : list Z) : Prop :=
  h !! image = Some I /\ h !! output = Some O /\ h !! parent = Some T /\
  h !! sorted_indices = Some S /\
  output <> image /\ output <> parent /\ output <> sorted_indices.

(** ** The integer instances of the fused type [dtype_t] *)

Inductive dtype : Type :=
  | uint8 | uint16 | uint32 | uint64 | int8 | int16 | int32 | int64.

Definition dtype_min (t : dtype) : Z :=
  match t with
  | uint8 | uint16 | uint32 | uint64 => 0
  | int8 => - 2 ^ 7
  | int16 => - 2 ^ 15
  | int32 => - 2 ^ 31
  | int64 => - 2 ^ 63
  end.

Definition dtype_max (t : dtype) : Z :=
  match t with
  | uint8 => 2 ^ 8 - 1
  | uint16 => 2 ^ 16 - 1
  | uint32 => 2 ^ 32 - 1
  | uint64 => 2 ^ 64 - 1
  | int8 => 2 ^ 7 - 1
  | int16 => 2 ^ 15 - 1
  | int32 => 2 ^ 31 - 1
  | int64 => 2 ^ 63 - 1
  end.

Definition representable (t : dtype) (v : Z) : bool :=
  (dtype_min t <=? v) && (v <=? dtype_max t).

(** ** The neighbourhood resolver, as the specification words it *)

(** An index that [np.unravel_index] accepts for [shape]. *)
Definition index_ok (shape : list Z) (i : Z) : bool := (0 <=? i) && (i <? prod shape).

(** [neg_shift = -min(offsets)] and [o + neg_shift], in [int32]. *)
Definition neg_shift_of (offsets : list Z) : Z := wrap32 (- default 0 (np_min offsets)).

Definition shifted (offsets : list Z) (o : Z) : Z := wrap32 (o + neg_shift_of offsets).

(** The delta row of an offset: [unravel(o + neg_shift) - unravel(neg_shift)]. *)
Definition delta_row (offsets shape : list Z) (o : Z) : list Z :=
  zip_with Z.sub (unravel (shifted offsets o) shape) (unravel (neg_shift_of offsets) shape).

(** The raveled index of coordinates given last dimension first; the
    inverse of [unravel_rev]. *)
Fixpoint ravel_rev (rev_shape coords : list Z) : Z :=
  match rev_shape, coords with
  | d :: ds, c :: cs => c + d * ravel_rev ds cs
  | _, _ => 0
  end.

(** ** The pixel graph and the state of the sweep *)

(** The neighbour of [p] that the builder examines for the [i]-th offset:
    [p + structure[i]], unless [p] is a border pixel ([mask[p] = 0]) and
    [_is_valid_coordinate] rejects the coordinates. *)
Definition neighbor (mask structure shape : list Z) (points : list (list Z))
    (p : Z) (i : nat) : option Z :=
  match index_val mask p with
  | Ok mp =>
      let index := p + default 0 (structure !! i) in
      if mp =? 0 then
        match _is_valid_coordinate p (default [] (points !! i)) shape with
        | Ok true => Some index
        | _ => None
        end
      else Some index
  | Raise _ => None
  end.

(** The position of a pixel in the sorted indices. *)
Fixpoint pos (S : list Z) (x : Z) : nat :=
  match S with
  | [] => 0
  | y :: S' => if y =? x then 0%nat else Datatypes.S (pos S' x)
  end.

(** The sorted indices are in ascending intensity. *)
Fixpoint ascending (I S : list Z) : bool :=
  match S with
  | x :: S' =>
      match S' with
      | y :: _ => (zget I x <=? zget I y) && ascending I S'
      | [] => true
      end
  | [] => true
  end.

(** During the sweep the pixels at the positions [k] and above have been
    visited.  A visited pixel is a root or has a visited parent that comes
    before it in the sorted indices; the other pixels are unset. *)
Definition par_inv (S : list Z) (n k : nat) (par : list Z) : Prop :=
  length par = n /\
  forall x, x ∈ S ->
    ((pos S x < k)%nat -> zget par x = -1) /\
    ((k <= pos S x)%nat ->
       zget par x = x \/
       (zget par x ∈ S /\ (k <= pos S (zget par x) < pos S x)%nat)).

(** The union-find array points from a visited pixel to one of its
    ancestors in [par], and has the same roots. *)
Definition zpar_inv (S : list Z) (n k : nat) (par zp : list Z) : Prop :=
  length zp = n /\
  forall x, x ∈ S ->
    ((pos S x < k)%nat -> zget zp x = -1) /\
    ((k <= pos S x)%nat ->
       (zget zp x = x /\ zget par x = x) \/
       (zget par x <> x /\ zget zp x <> x /\
        (pos S (zget zp x) < pos S x)%nat /\
        exists j, ancestor par j x = zget zp x)).

(** The heap of the builder: the parent buffer holds [par] and the new
    buffer [zpar], allocated after the buffers of [h], holds [zp]. *)
Definition bheap (h : heap) (parent : buf) (par zp : list Z) : heap :=
  <[parent := par]> (h ++ [zp]).

(** The buffers of a call of [_build_max_tree]: [parent] shares its buffer
    with neither [image] nor [sorted_indices]. *)
Definition build_call (h : heap) (image parent sorted_indices : buf)
    (I T0 S : list Z) : Prop :=
  h !! image = Some I /\ h !! parent = Some T0 /\ h !! sorted_indices = Some S /\
  parent <> image /\ parent <> sorted_indices.

(** The mask is zero on every pixel for which an offset leads outside the
    arrays.  This is less than the specification asks of the mask
    ([mask_zero_on_border]); it is what keeps the builder inside its
    arrays. *)
Definition mask_covers_border (n : nat) (mask structure : list Z) : bool :=
  forallb (fun p =>
    (zget mask p =? 0) || forallb (fun o => in_range n (p + o)) structure)
    (seqZ 0 (Z.of_nat n)).

Definition is_ok {A : Type} (r : res A) : bool :=
  match r with
  | Ok _ => true
  | Raise _ => false
  end.

(** What a run of [_build_max_tree] needs to return normally: lengths
    agree with the shape, whose extents are positive; the sorted indices
    are a permutation in ascending intensity; the offsets are [int32]
    values from which [offsets_to_points] makes a table; the mask is zero
    wherever an offset leads outside the arrays.  Nothing here says that
    the table is the right one. *)
Definition build_inputs (n : nat) (I T0 S mask structure shape : list Z) : bool :=
  (length I =? n)%nat && (length T0 =? n)%nat && (length mask =? n)%nat
  && (prod shape =? Z.of_nat n) && forallb (fun d => 0 <? d) shape
  && is_perm n S && ascending I S
  && forallb (representable int32) structure
  && is_ok (offsets_to_points structure shape)
  && mask_covers_border n mask structure.

(** A parent array in canonical form: the parent of every pixel is a
    canonical pixel, that is a root or a pixel whose own parent has a
    strictly lower intensity. *)
Definition canonical_at (I T : list Z) (c : Z) : Prop :=
  zget T c = c \/ zget I (zget T c) < zget I c.

(** ** The builder without path compression

    The parent array that [_build_max_tree] writes does not depend on the
    union-find array: [find_root] returns the root of the pixel in the
    parent array itself, its [n]-th ancestor.  The functions below follow
    the parent array alone through the sweep and through [canonize]. *)

(** The examination of the [i]-th neighbour of [p]. *)
Definition visit_par (n : nat) (mask structure shape : list Z)
    (points : list (list Z)) (p : Z) (par : list Z) (i : nat) : list Z :=
  match neighbor mask structure shape points p i with
  | None => par
  | Some q =>
      if zget par q <? 0 then par
      else
        let r := ancestor par n q in
        if r =? p then par else zset par r p
  end.

(** The pixel [p] becomes a root and adopts the components of its
    neighbours. *)
Definition pixel_par (n : nat) (mask structure shape : list Z)
    (points : list (list Z)) (par : list Z) (p : Z) : list Z :=
  foldl (visit_par n mask structure shape points p) (zset par p p)
        (seq 0 (length structure)).

Definition sweep_par (n : nat) (mask structure shape : list Z)
    (points : list (list Z)) (S : list Z) : list Z :=
  foldl (pixel_par n mask structure shape points) (replicate n (-1)) (reverse S).

Definition canonize_step (I : list Z) (par : list Z) (p : Z) : list Z :=
  let q := zget par p in
  if zget I q =? zget I (zget par q) then zset par p (zget par q) else par.

Definition canonize_par (I S par : list Z) : list Z :=
  foldl (canonize_step I) par S.

Definition build_par (n : nat) (I mask structure shape : list Z)
    (points : list (list Z)) (S : list Z) : list Z :=
  canonize_par I S (sweep_par n mask structure shape points S).

(** ** The pixel grid

    The grid and its neighbourhoods are defined from the shape and from the
    coordinate deltas [D] of the connectivity, one vector per neighbour,
    and from nothing that the code computes. *)

(** The raveled index of coordinates, in row-major order. *)
Definition ravel (shape coords : list Z) : Z :=
  ravel_rev (reverse shape) (reverse coords).

(** Coordinates that lie inside the grid. *)
Definition inside (shape coords : list Z) : bool :=
  (length coords =? length shape)%nat
  && forallb (fun cs => (0 <=? cs.1) && (cs.1 <? cs.2)) (zip coords shape).

(** The neighbour of the pixel [p] in the direction [d]: the pixel at the
    coordinates of [p] plus [d], when these are inside the grid. *)
Definition grid_neighbor (shape : list Z) (p : Z) (d : list Z) : option Z :=
  let c := zip_with Z.add (unravel p shape) d in
  if inside shape c then Some (ravel shape c) else None.

(** [y] is a neighbour of [x] in one of the directions of [D]. *)
Definition grid_edgeb (shape : list Z) (D : list (list Z)) (x y : Z) : bool :=
  existsb (fun d =>
    match grid_neighbor shape x d with
    | Some q => q =? y
    | None => false
    end) D.

(** Two pixels are adjacent when one is a neighbour of the other. *)
Definition grid_adj (n : nat) (shape : list Z) (D : list (list Z)) (x y : Z) : bool :=
  in_range n x && in_range n y
  && (grid_edgeb shape D x y || grid_edgeb shape D y x).

(** [x] and [y] are joined by a path of adjacent pixels of intensity at
    least [lvl]: they are in the same connected component of the upper
    level set, that is in the same node of the max-tree at the level
    [lvl]. *)
Definition grid_component (n : nat) (I shape : list Z) (D : list (list Z))
    (lvl : Z) : Z -> Z -> Prop :=
  rtc (fun a b => grid_adj n shape D a b = true /\
                  lvl <= zget I a /\ lvl <= zget I b).

(** [x] and [y] are in the same flat-zone: joined by a path of adjacent
    pixels of one intensity. *)
Definition grid_flat_zone (n : nat) (I shape : list Z) (D : list (list Z)) :
    Z -> Z -> Prop :=
  rtc (fun a b => grid_adj n shape D a b = true /\ zget I a = zget I b).

(** The offsets are consistent with the shape: the [i]-th offset is the
    raveled form of the [i]-th direction. *)
Definition offsets_consistent (structure shape : list Z) (D : list (list Z)) : bool :=
  (length D =? length structure)%nat
  && forallb (fun od => (length od.2 =? length shape)%nat
                        && (od.1 =? ravel shape od.2))
       (zip structure D).

(** The mask is zero on every border pixel, that is on every pixel that
    has a neighbour outside the grid. *)
Definition mask_zero_on_border (n : nat) (mask shape : list Z)
    (D : list (list Z)) : bool :=
  forallb (fun p =>
    (zget mask p =? 0)
    || forallb (fun d => inside shape (zip_with Z.add (unravel p shape) d)) D)
    (seqZ 0 (Z.of_nat n)).

(** The neighbourhood is symmetric: with every direction it has the
    opposite one. *)
Definition directions_symmetric (D : list (list Z)) : bool :=
  forallb (fun d => bool_decide ((Z.opp <$> d) ∈ D)) D.

(** The inputs of the builder that the specification asks for: arrays of
    [n] pixels, [n] the product of a shape of positive extents, sorted
    indices that are a permutation in ascending intensity, [int32] offsets
    that are consistent with the shape for the symmetric neighbourhood [D],
    and a mask that is zero on the border. *)
Definition grid_inputs (n : nat) (I T0 S mask structure shape : list Z)
    (D : list (list Z)) : bool :=
  (length I =? n)%nat && (length T0 =? n)%nat && (length mask =? n)%nat
  && (prod shape =? Z.of_nat n) && forallb (fun d => 0 <? d) shape
  && is_perm n S && ascending I S
  && forallb (representable int32) structure
  && offsets_consistent structure shape D
  && directions_symmetric D
  && mask_zero_on_border n mask shape D.

(** ** What the code examines

    The relations below are not those of the grid: they follow the tests
    of the code, with the table [points] that [offsets_to_points] returns.
    They agree with the grid where that table is the table of the
    directions. *)

(** [y] is examined by the builder as a neighbour of [x]. *)
Definition examinedb (mask structure shape : list Z) (points : list (list Z))
    (x y : Z) : bool :=
  existsb (fun i =>
    match neighbor mask structure shape points x i with
    | Some q => q =? y
    | None => false
    end) (seq 0 (length structure)).

(** One of the two pixels is examined as a neighbour of the other. *)
Definition examined_adj (n : nat) (mask structure shape : list Z)
    (points : list (list Z)) (x y : Z) : bool :=
  in_range n x && in_range n y
  && (examinedb mask structure shape points x y || examinedb mask structure shape points y x).

(** [x] and [y] are joined by a path of such pairs of pixels of intensity
    at least [lvl]. *)
Definition examined_component (n : nat) (I mask structure shape : list Z)
    (points : list (list Z)) (lvl : Z) : Z -> Z -> Prop :=
  rtc (fun a b => examined_adj n mask structure shape points a b = true /\
                  lvl <= zget I a /\ lvl <= zget I b).

(** The same, for the pixels visited by the sweep: the path stays at the
    positions [k] and above. *)
Definition connected_from (n : nat) (S mask structure shape : list Z)
    (points : list (list Z)) (k : nat) : Z -> Z -> Prop :=
  rtc (fun a b => examined_adj n mask structure shape points a b = true /\
                  (k <= pos S a)%nat /\ (k <= pos S b)%nat).

(** The root of the component of [z] when only the pixels at the positions
    [m] and above are taken: the last ancestor of [z] at such a position. *)
Definition lstep (S : list Z) (n m : nat) (par : list Z) (z : Z) : Z :=
  let q := zget par z in
  if (m <=? pos S q)%nat && in_range n q then q else z.

Definition lroot (S : list Z) (n m : nat) (par : list Z) (z : Z) : Z :=
  Nat.iter n (lstep S n m par) z.

(** The representative of the node of [x] in a canonical parent array:
    [x] itself when it is canonical, its parent otherwise. *)
Definition representative (I T : list Z) (x : Z) : Z :=
  if (zget T x =? x) || (zget I (zget T x) <? zget I x) then x else zget T x.

(** Soundness of the sweep: a visited pixel that is not a root is joined
    to its parent by visited pixels that are not before the parent. *)
Definition sweep_sound_at (n : nat) (S mask structure shape : list Z)
    (points : list (list Z)) (k : nat) (par : list Z) : Prop :=
  forall x, x ∈ S -> (k <= pos S x)%nat -> zget par x <> x ->
    connected_from n S mask structure shape points (pos S (zget par x)) x (zget par x).

(** Completeness of the sweep: at every level [m] that is visited in full,
    a pixel and a neighbour that was visited before it have the same root. *)
Definition sweep_complete_at (n : nat) (S mask structure shape : list Z)
    (points : list (list Z)) (k : nat) (par : list Z) : Prop :=
  forall m x y, (k <= m)%nat -> x ∈ S -> y ∈ S ->
    (m <= pos S x <= pos S y)%nat ->
    examinedb mask structure shape points x y = true ->
    lroot S n m par x = lroot S n m par y.

(** The same while the neighbours of the pixel [p] at the position [k] are
    examined: the edges from [p] count for the first [i] offsets only. *)
Definition sweep_partial_at (n : nat) (S mask structure shape : list Z)
    (points : list (list Z)) (k : nat) (p : Z) (i : nat) (par : list Z) : Prop :=
  forall x y, x ∈ S -> y ∈ S -> (k <= pos S x <= pos S y)%nat ->
    examinedb mask structure shape points x y = true ->
    (x <> p \/ exists i', (i' < i)%nat /\
                 neighbor mask structure shape points p i' = Some y) ->
    ancestor par n x = ancestor par n y.

(** The number of sorted pixels of intensity below [lvl]: in ascending
    order, the pixels of the upper level set are those at this position
    and above. *)
Fixpoint cut (I S : list Z) (lvl : Z) : nat :=
  match S with
  | [] => 0
  | z :: S' => if zget I z <? lvl then Datatypes.S (cut I S' lvl) else 0
  end.

(** The last ancestor of [z] that has the intensity of [z]. *)
Definition level_root (I S : list Z) (n : nat) (par : list Z) (z : Z) : Z :=
  lroot S n (cut I S (zget I z)) par z.

(** Every pixel that is examined as a neighbour of a pixel has that pixel
    examined as its neighbour in turn. *)
Definition examined_symmetric (n : nat) (mask structure shape : list Z)
    (points : list (list Z)) : bool :=
  forallb (fun x =>
    forallb (fun y =>
      implb (examinedb mask structure shape points x y)
            (examinedb mask structure shape points y x))
      (seqZ 0 (Z.of_nat n)))
    (seqZ 0 (Z.of_nat n)).

(** A forest over the sorted indices, as a decidable check: every pixel is
    its own parent or has a parent that comes before it. *)
Definition forest (S : list Z) (n : nat) (T : list Z) : bool :=
  (length T =? n)%nat
  && forallb (fun x =>
       (zget T x =? x)
       || (in_range n (zget T x) && (pos S (zget T x) <? pos S x)%nat)) S.

(** ** A worked example

    The image [1, 3, 3, 2, 1, 4, 4, 1] with neighbours at offsets -1 and
    +1: its sorted indices, the canonical parent array that
    [_build_max_tree] writes for it, and its area attribute.  The heap
    [ex_heap] holds image, output, parent, sorted indices and attribute in
    the buffers 0 to 4. *)

Definition ex_image : list Z := [1; 3; 3; 2; 1; 4; 4; 1].
Definition ex_output : list Z := [9; 9; 9; 9; 9; 9; 9; 9].
Definition ex_parent : list Z := [0; 3; 1; 0; 0; 0; 5; 0].
Definition ex_sorted : list Z := [0; 4; 7; 3; 1; 2; 5; 6].
Definition ex_area : list Z := [8; 2; 1; 3; 1; 2; 1; 1].

Definition ex_heap : heap := [ex_image; ex_output; ex_parent; ex_sorted; ex_area].

(** The same arrays before the attribute is computed. *)
Definition ex_heap4 : heap := [ex_image; ex_output; ex_parent; ex_sorted].

(** A call in which [image] and [output] are the same buffer 0; parent,
    sorted indices and attribute are the buffers 1 to 3. *)
Definition alias_heap : heap := [[5; 7]; [0; 0]; [0; 1]; [2; 1]].

(** A line of three pixels, the two ends of intensity 1 and the middle of
    intensity 3, with the two neighbours at the offsets -1 and 1. *)
Definition line_image : list Z := [1; 3; 1].
Definition line_parent : list Z := [7; 7; 7].
Definition line_sorted : list Z := [0; 2; 1].
Definition line_mask : list Z := [0; 0; 0].
Definition line_structure : list Z := [-1; 1].
Definition line_shape : list Z := [3].
Definition line_points : list (list Z) := [[-1]; [1]].
Definition line_heap : list (list Z) := [line_image; line_parent; line_sorted].

(** An image of three rows and three columns,
      0 0 9
      8 0 8
      0 0 0
    with its sorted indices, the mask that is zero on the border, and the
    neighbourhoods of the eight and of the four nearest pixels: directions
    and raveled offsets. *)
Definition square_image : list Z := [0; 0; 9; 8; 0; 8; 0; 0; 0].
Definition square_parent : list Z := [7; 7; 7; 7; 7; 7; 7; 7; 7].
Definition square_sorted : list Z := [0; 1; 4; 6; 7; 8; 3; 5; 2].
Definition square_mask : list Z := [0; 0; 0; 0; 1; 0; 0; 0; 0].
Definition square_shape : list Z := [3; 3].
Definition square_heap : list (list Z) := [square_image; square_parent; square_sorted].
Definition eight_directions : list (list Z) :=
  [[-1; -1]; [-1; 0]; [-1; 1]; [0; -1]; [0; 1]; [1; -1]; [1; 0]; [1; 1]].
Definition eight_offsets : list Z := [-4; -3; -2; -1; 1; 2; 3; 4].
Definition four_directions : list (list Z) := [[-1; 0]; [1; 0]; [0; -1]; [0; 1]].
Definition four_offsets : list Z := [-3; 3; -1; 1].

(** A line of five pixels of one intensity whose neighbours are the pixels
    two steps away. *)
Definition pairs_image : list Z := [1; 1; 1; 1; 1].
Definition pairs_parent : list Z := [7; 7; 7; 7; 7].
Definition pairs_sorted : list Z := [0; 1; 2; 3; 4].
Definition pairs_mask : list Z := [0; 0; 0; 0; 0].
Definition pairs_heap : list (list Z) := [pairs_image; pairs_parent; pairs_sorted].

(** The parent array of the line of eight pixels after the sweep of the
    builder, before [canonize]. *)
Definition ex_forest : list Z := [0; 3; 1; 4; 0; 7; 5; 4].
Definition ex_forest_heap : list (list Z) := [ex_image; ex_forest; ex_sorted].

(** A chain of four pixels, each the child of the one before. *)
Definition chain_parent : list Z := [0; 0; 1; 2].
Definition chain_sorted : list Z := [0; 1; 2; 3].

(** The line of three pixels with an output buffer. *)
Definition line_output : list Z := [9; 9; 9].
Definition line_heap4 : list (list Z) :=
  [line_image; line_parent; line_sorted; line_output].

(** * Reasoning about the monad *)

Lemma contents_lookup (h : heap) (b : buf) (l : list Z) :
  h !! b = Some l -> contents h b = l.
Proof. unfold contents. intros ->. reflexivity. Qed.

Lemma contents_insert_eq (h : heap) (b : buf) (l : list Z) :
  (b < length h)%nat -> contents (<[b := l]> h) b = l.
Proof. intros Hb. apply contents_lookup. by apply list_lookup_insert_eq. Qed.

Lemma contents_insert_ne (h : heap) (b b' : buf) (l : list Z) :
  b <> b' -> contents (<[b := l]> h) b' = contents h b'.
Proof. intros Hb. unfold contents. by rewrite list_lookup_insert_ne. Qed.

Lemma py_index_in (n : nat) (i : Z) :
  0 <= i < Z.of_nat n -> py_index n i = Some (Z.to_nat i).
Proof.
  intros Hi. unfold py_index.
  destruct (Z.ltb_spec i 0); [lia|].
  destruct (Z.leb_spec 0 i); [|lia].
  destruct (Z.ltb_spec i (Z.of_nat n)); [|lia]. reflexivity.
Qed.

Lemma py_index_lt (n : nat) (i : Z) (j : nat) :
  py_index n i = Some j -> (j < n)%nat.
Proof.
  unfold py_index. intros H.
  destruct (0 <=? _) eqn:E1; [|discriminate].
  destruct (_ <? Z.of_nat n) eqn:E2; [|discriminate].
  simpl in H. injection H as <-. lia.
Qed.

Lemma zget_lookup (l : list Z) (i : Z) :
  0 <= i < Z.of_nat (length l) -> l !! Z.to_nat i = Some (zget l i).
Proof.
  intros Hi. unfold zget.
  destruct (l !! Z.to_nat i) eqn:E; [reflexivity|].
  apply lookup_ge_None in E. lia.
Qed.

Lemma zget_zset_eq (l : list Z) (i v : Z) :
  0 <= i < Z.of_nat (length l) -> zget (zset l i v) i = v.
Proof.
  intros Hi. unfold zget, zset. rewrite list_lookup_insert_eq; [reflexivity | lia].
Qed.

Lemma zget_zset_ne (l : list Z) (i j v : Z) :
  0 <= i -> 0 <= j -> i <> j -> zget (zset l i v) j = zget l j.
Proof.
  intros Hi Hj Hne. unfold zget, zset. rewrite list_lookup_insert_ne; [reflexivity | lia].
Qed.

Lemma length_zset (l : list Z) (i v : Z) : length (zset l i v) = length l.
Proof. unfold zset. apply length_insert. Qed.

Lemma wp_ret {A : Type} (a : A) (Q : A -> heap -> Prop) (h : heap) :
  Q a h -> wp (ret a) Q h.
Proof. intros HQ. exact HQ. Qed.

Lemma wp_bind {A B : Type} (m : M A) (k : A -> M B) (Q : B -> heap -> Prop) (h : heap) :
  wp m (fun a h' => wp (k a) Q h') h -> wp (bind m k) Q h.
Proof.
  unfold wp, bind. destruct (m h) as [[a|e] h']; [|intros []]. intros H. exact H.
Qed.

Lemma wp_mono {A : Type} (m : M A) (Q Q' : A -> heap -> Prop) (h : heap) :
  wp m Q h -> (forall a h', Q a h' -> Q' a h') -> wp m Q' h.
Proof.
  unfold wp. destruct (m h) as [[a|e] h']; [|intros []]. intros H HQ. by apply HQ.
Qed.

Lemma wp_run {A : Type} (m : M A) (Q : A -> heap -> Prop) (h : heap) :
  wp m Q h <-> exists a h', m h = (Ok a, h') /\ Q a h'.
Proof.
  unfold wp. split.
  - destruct (m h) as [[a|e] h']; [|intros []]. intros H. by exists a, h'.
  - intros (a & h' & -> & H). exact H.
Qed.

Lemma wp_lift {A : Type} (r : res A) (a : A) (Q : A -> heap -> Prop) (h : heap) :
  r = Ok a -> Q a h -> wp (lift r) Q h.
Proof. intros -> HQ. exact HQ. Qed.

Lemma wp_len (b : buf) (Q : Z -> heap -> Prop) (h : heap) :
  Q (Z.of_nat (length (contents h b))) h -> wp (buf_len b) Q h.
Proof. intros HQ. exact HQ. Qed.

Lemma wp_load (b : buf) (i : Z) (Q : Z -> heap -> Prop) (h : heap) :
  0 <= i < Z.of_nat (length (contents h b)) ->
  Q (zget (contents h b) i) h -> wp (load b i) Q h.
Proof.
  intros Hi HQ. unfold wp, load.
  rewrite (py_index_in _ _ Hi), (zget_lookup _ _ Hi). exact HQ.
Qed.

Lemma wp_store (b : buf) (i v : Z) (Q : unit -> heap -> Prop) (h : heap) :
  0 <= i < Z.of_nat (length (contents h b)) ->
  Q tt (<[b := zset (contents h b) i v]> h) -> wp (store b i v) Q h.
Proof.
  intros Hi HQ. unfold wp, store. rewrite (py_index_in _ _ Hi). exact HQ.
Qed.

Lemma wp_alloc (l : list Z) (Q : buf -> heap -> Prop) (h : heap) :
  Q (length h) (h ++ [l]) -> wp (alloc l) Q h.
Proof. intros HQ. exact HQ. Qed.

(** [b.copy()]: a new buffer with the contents of [b]. *)
Lemma wp_copy (b : buf) (Q : buf -> heap -> Prop) (h : heap) :
  Q (length h) (h ++ [contents h b]) ->
  wp (fun h0 => alloc (contents h0 b) h0) Q h.
Proof. intros HQ. exact HQ. Qed.

(** Loops: [Inv done] holds after the elements [done] have been processed. *)
Lemma wp_for_each {A : Type} (xs : list A) (body : A -> M unit)
    (Inv : list A -> heap -> Prop) (Q : unit -> heap -> Prop) (h : heap) :
  Inv [] h ->
  (forall done x rest h', xs = done ++ x :: rest -> Inv done h' ->
     wp (body x) (fun _ h'' => Inv (done ++ [x]) h'') h') ->
  (forall h', Inv xs h' -> Q tt h') ->
  wp (for_each xs body) Q h.
Proof.
  revert Inv h. induction xs as [|x xs IH]; intros Inv h H0 Hstep HQ.
  - simpl. apply wp_ret. by apply HQ.
  - simpl. apply wp_bind.
    eapply wp_mono; [apply (Hstep [] x xs h); [reflexivity | exact H0]|].
    intros [] h' Hinv. simpl in Hinv.
    apply (IH (fun done => Inv (x :: done))); [exact Hinv | |exact HQ].
    intros done y rest h'' -> Hd.
    apply (Hstep (x :: done) y rest h''); [reflexivity | exact Hd].
Qed.

(** A loop over indices [ks] of the buffer [b], whose contents [l] the
    loop keeps: [Inv] is stated on the elements that have been read. *)
Lemma wp_for_indices (b : buf) (l : list Z) (ks : list Z) (body : Z -> M unit)
    (Inv : list Z -> heap -> Prop) (Q : unit -> heap -> Prop) (h : heap) :
  (forall k, k ∈ ks -> 0 <= k < Z.of_nat (length l)) ->
  (forall done h', Inv done h' -> contents h' b = l) ->
  Inv [] h ->
  (forall done p rest h', zget l <$> ks = done ++ p :: rest -> Inv done h' ->
     wp (body p) (fun _ h'' => Inv (done ++ [p]) h'') h') ->
  (forall h', Inv (zget l <$> ks) h' -> Q tt h') ->
  wp (for_each ks (fun k => bind (load b k) body)) Q h.
Proof.
  intros Hks Hkeep H0 Hstep HQ.
  apply (wp_for_each _ _ (fun ks' h' => Inv (zget l <$> ks') h')).
  - exact H0.
  - intros ks1 k ks2 h' Heq Hinv.
    apply wp_bind, wp_load; rewrite (Hkeep _ _ Hinv).
    { apply Hks. rewrite Heq. apply elem_of_app. right. left. }
    rewrite fmap_app. simpl.
    apply (Hstep _ _ (zget l <$> ks2)); [|exact Hinv].
    rewrite Heq, fmap_app. reflexivity.
  - exact HQ.
Qed.

Lemma fmap_zget_seqZ (l : list Z) : zget l <$> seqZ 0 (Z.of_nat (length l)) = l.
Proof.
  apply list_eq. intros i. rewrite list_lookup_fmap.
  destruct (l !! i) as [x|] eqn:E.
  - assert (Hi := lookup_lt_Some _ _ _ E).
    rewrite lookup_seqZ_lt by lia. simpl. unfold zget.
    rewrite Z.add_0_l, Nat2Z.id, E. reflexivity.
  - apply lookup_ge_None in E. rewrite lookup_seqZ_ge by lia. reflexivity.
Qed.

(** [for p in b], when the loop keeps the contents [l] of [b]. *)
Lemma wp_for_in (b : buf) (l : list Z) (body : Z -> M unit)
    (Inv : list Z -> heap -> Prop) (Q : unit -> heap -> Prop) (h : heap) :
  contents h b = l ->
  (forall done h', Inv done h' -> contents h' b = l) ->
  Inv [] h ->
  (forall done p rest h', l = done ++ p :: rest -> Inv done h' ->
     wp (body p) (fun _ h'' => Inv (done ++ [p]) h'') h') ->
  (forall h', Inv l h' -> Q tt h') ->
  wp (for_in b body) Q h.
Proof.
  intros Hb Hkeep H0 Hstep HQ. unfold for_in.
  apply wp_bind, wp_len. rewrite Hb.
  apply (wp_for_indices b l _ body Inv); try assumption.
  - intros k Hk. apply elem_of_seqZ in Hk. lia.
  - rewrite fmap_zget_seqZ. exact Hstep.
  - rewrite fmap_zget_seqZ. exact HQ.
Qed.

(** [for p in b[::-1]]. *)
Lemma wp_for_in_reversed (b : buf) (l : list Z) (body : Z -> M unit)
    (Inv : list Z -> heap -> Prop) (Q : unit -> heap -> Prop) (h : heap) :
  contents h b = l ->
  (forall done h', Inv done h' -> contents h' b = l) ->
  Inv [] h ->
  (forall done p rest h', reverse l = done ++ p :: rest -> Inv done h' ->
     wp (body p) (fun _ h'' => Inv (done ++ [p]) h'') h') ->
  (forall h', Inv (reverse l) h' -> Q tt h') ->
  wp (for_in_reversed b body) Q h.
Proof.
  intros Hb Hkeep H0 Hstep HQ. unfold for_in_reversed.
  apply wp_bind, wp_len. rewrite Hb.
  apply (wp_for_indices b l _ body Inv); try assumption.
  - intros k Hk. apply elem_of_reverse, elem_of_seqZ in Hk. lia.
  - rewrite fmap_reverse, fmap_zget_seqZ. exact Hstep.
  - rewrite fmap_reverse, fmap_zget_seqZ. exact HQ.
Qed.

(** * Which buffers a computation writes *)

Lemma writes_only_ret (b : buf) {A : Type} (a : A) : writes_only b (ret a).
Proof. intros h r h' H. injection H as _ <-. by split. Qed.

Lemma writes_only_raise (b : buf) {A : Type} (e : exn) : writes_only b (@raise A e).
Proof. intros h r h' H. injection H as _ <-. by split. Qed.

Lemma writes_only_lift (b : buf) {A : Type} (x : res A) : writes_only b (lift x).
Proof. intros h r h' H. injection H as _ <-. by split. Qed.

Lemma writes_only_bind (b : buf) {A B : Type} (m : M A) (k : A -> M B) :
  writes_only b m -> (forall a, writes_only b (k a)) -> writes_only b (bind m k).
Proof.
  intros Hm Hk h r h' H. unfold bind in H.
  destruct (m h) as [[a|e] h1] eqn:E.
  - destruct (Hm _ _ _ E) as [Hl1 Hb1]. destruct (Hk a _ _ _ H) as [Hl2 Hb2].
    split; [congruence|]. intros b' Hne. by rewrite Hb2, Hb1.
  - injection H as _ <-. by apply (Hm _ _ _ E).
Qed.

Lemma writes_only_len (b b' : buf) : writes_only b (buf_len b').
Proof. intros h r h' H. injection H as _ <-. by split. Qed.

Lemma writes_only_load (b b' : buf) (i : Z) : writes_only b (load b' i).
Proof.
  intros h r h' H. unfold load in H.
  destruct (py_index _ _); [destruct (_ !! _)|]; injection H as _ <-; by split.
Qed.

Lemma writes_only_store (b : buf) (i v : Z) : writes_only b (store b i v).
Proof.
  intros h r h' H. unfold store in H.
  destruct (py_index _ _); injection H as _ <-; [|by split].
  split; [apply length_insert|]. intros b' Hne. by apply list_lookup_insert_ne.
Qed.

Lemma writes_only_for_each (b : buf) {A : Type} (xs : list A) (body : A -> M unit) :
  (forall x, writes_only b (body x)) -> writes_only b (for_each xs body).
Proof.
  intros Hbody. induction xs as [|x xs IH]; simpl.
  - apply writes_only_ret.
  - apply writes_only_bind; [apply Hbody | intros _; exact IH].
Qed.

Lemma writes_only_for_in (b b' : buf) (body : Z -> M unit) :
  (forall p, writes_only b (body p)) -> writes_only b (for_in b' body).
Proof.
  intros Hbody. unfold for_in.
  apply writes_only_bind; [apply writes_only_len|]. intros n.
  apply writes_only_for_each. intros k.
  apply writes_only_bind; [apply writes_only_load | exact Hbody].
Qed.

Lemma writes_only_for_in_reversed (b b' : buf) (body : Z -> M unit) :
  (forall p, writes_only b (body p)) -> writes_only b (for_in_reversed b' body).
Proof.
  intros Hbody. unfold for_in_reversed.
  apply writes_only_bind; [apply writes_only_len|]. intros n.
  apply writes_only_for_each. intros k.
  apply writes_only_bind; [apply writes_only_load | exact Hbody].
Qed.

Create HintDb frame.
#[export] Hint Resolve writes_only_ret writes_only_raise writes_only_lift
  writes_only_len writes_only_load writes_only_store : frame.

Ltac frame_step :=
  match goal with
  | |- writes_only _ (bind _ _) => apply writes_only_bind; [|intros ?]
  | |- writes_only _ (for_in _ _) => apply writes_only_for_in; intros ?
  | |- writes_only _ (for_in_reversed _ _) => apply writes_only_for_in_reversed; intros ?
  | |- writes_only _ (for_each _ _) => apply writes_only_for_each; intros ?
  | |- writes_only _ (if ?c then _ else _) => destruct c
  | |- writes_only _ _ => solve [auto with frame]
  end.

Lemma direct_filter_writes_only (image output parent sorted_indices attribute : buf)
    (thr : Z) :
  writes_only output (_direct_filter image output parent sorted_indices attribute thr).
Proof. unfold _direct_filter. repeat frame_step. Qed.

Lemma cut_first_filter_writes_only (image output parent sorted_indices attribute : buf)
    (thr : Z) :
  writes_only output (_cut_first_filter image output parent sorted_indices attribute thr).
Proof. unfold _cut_first_filter. repeat frame_step. Qed.

Lemma load_heap (b : buf) (i : Z) (h : heap) (r : res Z) (h' : heap) :
  load b i h = (r, h') -> h' = h.
Proof.
  unfold load. destruct (py_index _ _); [destruct (_ !! _)|]; congruence.
Qed.

(** [_compute_area] returns a buffer that did not exist and changes no
    buffer that did. *)
Lemma compute_area_fresh (image parent sorted_indices : buf) (h : heap)
    (r : res buf) (h' : heap) :
  _compute_area image parent sorted_indices h = (r, h') ->
  (forall a, r = Ok a -> a = length h /\ length h' = Datatypes.S (length h)) /\
  forall b, (b < length h)%nat -> h' !! b = h !! b.
Proof.
  unfold _compute_area. intros H. unfold bind at 1 in H.
  destruct (load sorted_indices 0 h) as [[p_root|e] h0] eqn:E0.
  all: apply load_heap in E0 as E0'; subst h0.
  2:{ injection H as <- <-. split; [discriminate | reflexivity]. }
  unfold bind at 1 in H. simpl in H. unfold bind at 1 in H. simpl in H.
  set (area := length h) in *.
  set (h1 := h ++ _) in *.
  unfold bind at 1 in H.
  match type of H with
  | context [for_in_reversed ?b ?body] =>
      assert (Hloop : writes_only area (for_in_reversed b body))
        by (repeat frame_step)
  end.
  destruct (for_in_reversed _ _ h1) as [[[]|e] h2] eqn:E2.
  - injection H as <- <-. destruct (Hloop _ _ _ E2) as [Hl Hb].
    split.
    + intros a Ha. injection Ha as <-. split; [reflexivity|].
      rewrite Hl. unfold h1. rewrite length_app. simpl. lia.
    + intros b Hlt. rewrite Hb by (unfold area; lia). unfold h1. by apply lookup_app_l.
  - injection H as <- <-. destruct (Hloop _ _ _ E2) as [Hl Hb].
    split; [discriminate|].
    intros b Hlt. rewrite Hb by (unfold area; lia). unfold h1. by apply lookup_app_l.
Qed.

(** * The filters compute what the specification describes *)

Lemma in_range_spec (n : nat) (x : Z) :
  in_range n x = true <-> 0 <= x < Z.of_nat n.
Proof. unfold in_range. rewrite andb_true_iff, Z.leb_le, Z.ltb_lt. tauto. Qed.

Lemma forallb_in_range (n : nat) (l : list Z) (x : Z) :
  forallb (in_range n) l = true -> x ∈ l -> 0 <= x < Z.of_nat n.
Proof.
  intros Hl Hx. apply in_range_spec.
  rewrite forallb_forall in Hl. apply Hl. by apply list_elem_of_In.
Qed.

Lemma forallb_in_range_zget (n : nat) (l : list Z) (i : Z) :
  forallb (in_range n) l = true -> 0 <= i < Z.of_nat (length l) ->
  0 <= zget l i < Z.of_nat n.
Proof.
  intros Hl Hi. apply (forallb_in_range n l); [exact Hl|].
  apply list_elem_of_lookup. exists (Z.to_nat i). by apply zget_lookup.
Qed.

Lemma filter_inputs_spec (n : nat) (I O T S A : list Z) :
  filter_inputs n I O T S A = true ->
  length I = n /\ length O = n /\ length T = n /\ length A = n /\
  (0 < length S)%nat /\
  forallb (in_range n) S = true /\ forallb (in_range n) T = true.
Proof.
  unfold filter_inputs. simpl. rewrite !andb_true_iff, negb_true_iff.
  rewrite !Nat.eqb_eq, Nat.eqb_neq. intros. intuition lia.
Qed.

Lemma length_filter_step rule T root out p :
  length (filter_step rule T root out p) = length out.
Proof. unfold filter_step. destruct (p =? root); [reflexivity | apply length_zset]. Qed.

Lemma length_foldl_filter_step rule T root ps out :
  length (foldl (filter_step rule T root) out ps) = length out.
Proof.
  revert out. induction ps as [|p ps IH]; intros out; simpl; [reflexivity|].
  by rewrite IH, length_filter_step.
Qed.

(** The state of a filter run: only the output buffer differs from the
    initial heap. *)
Section FilterRun.
Context (h : heap) (image output parent sorted_indices attribute : buf).
Context (I O T S A : list Z) (n : nat) (thr : Z).
Hypothesis Hcall : filter_call h image output parent sorted_indices attribute I O T S A.
Hypothesis Hin : filter_inputs n I O T S A = true.

Let out_lt : (output < length h)%nat.
Proof. destruct Hcall as (_ & HO & _). by apply lookup_lt_Some in HO. Qed.

Lemma run_image o : contents (<[output := o]> h) image = I.
Proof.
  destruct Hcall as (HI & _ & _ & _ & _ & Hne & _).
  rewrite contents_insert_ne by exact Hne. by apply contents_lookup.
Qed.

Lemma run_parent o : contents (<[output := o]> h) parent = T.
Proof.
  destruct Hcall as (_ & _ & HT & _ & _ & _ & Hne & _).
  rewrite contents_insert_ne by exact Hne. by apply contents_lookup.
Qed.

Lemma run_sorted o : contents (<[output := o]> h) sorted_indices = S.
Proof.
  destruct Hcall as (_ & _ & _ & HS & _ & _ & _ & Hne & _).
  rewrite contents_insert_ne by exact Hne. by apply contents_lookup.
Qed.

Lemma run_attribute o : contents (<[output := o]> h) attribute = A.
Proof.
  destruct Hcall as (_ & _ & _ & _ & HA & _ & _ & _ & Hne).
  rewrite contents_insert_ne by exact Hne. by apply contents_lookup.
Qed.

Lemma run_output o : contents (<[output := o]> h) output = o.
Proof. apply contents_insert_eq, out_lt. Qed.

Lemma run_start : h = <[output := O]> h.
Proof. destruct Hcall as (_ & HO & _). symmetry. by apply list_insert_id. Qed.

Lemma run_store o o' : <[output := o']> (<[output := o]> h) = <[output := o']> h.
Proof. apply list_insert_insert_eq. Qed.

Ltac run_load H := apply wp_bind, wp_load; rewrite H; [lia|].
Ltac run_store_output H :=
  apply wp_store; rewrite H; [lia|]; by rewrite run_store.

Lemma root_in_range : 0 <= zget S 0 < Z.of_nat n.
Proof.
  destruct (filter_inputs_spec _ _ _ _ _ _ Hin) as (_ & _ & _ & _ & LS & HS & _).
  apply forallb_in_range_zget; [exact HS | lia].
Qed.

(** Both filters start in the same way. *)
Lemma filter_root_run o :
  length o = n ->
  wp (if zget A (zget S 0) <? thr then store output (zget S 0) 0
      else bind (load image (zget S 0)) (fun v => store output (zget S 0) v))
     (fun _ h' => h' = <[output := zset o (zget S 0) (root_value I A thr (zget S 0))]> h)
     (<[output := o]> h).
Proof.
  intros Lo.
  destruct (filter_inputs_spec _ _ _ _ _ _ Hin) as (LI & LO & LT & LA & LS & HS & HT).
  pose proof root_in_range as Hroot.
  unfold root_value. destruct (zget A (zget S 0) <? thr).
  - run_store_output run_output.
  - run_load run_image. run_store_output run_output.
Qed.

Lemma direct_filter_run :
  _direct_filter image output parent sorted_indices attribute thr h
  = (Ok tt, <[output := direct_filter_spec I T S A thr O]> h).
Proof.
  destruct (filter_inputs_spec _ _ _ _ _ _ Hin) as (LI & LO & LT & LA & LS & HS & HT).
  pose proof root_in_range as Hroot.
  cut (wp (_direct_filter image output parent sorted_indices attribute thr)
          (fun _ h' => h' = <[output := direct_filter_spec I T S A thr O]> h) h).
  { intros Hwp. apply wp_run in Hwp. destruct Hwp as ([] & h' & -> & ->). reflexivity. }
  rewrite run_start at 1. unfold _direct_filter.
  run_load run_sorted. apply wp_bind, wp_len. run_load run_attribute.
  apply wp_bind. eapply wp_mono; [apply filter_root_run, LO|].
  intros [] h0 ->. set (root := zget S 0) in *.
  apply (wp_for_in _ S _ (fun done h' =>
           h' = <[output := foldl (filter_step (direct_rule I A thr) T root)
                                 (zset O root (root_value I A thr root)) done]> h)).
  - apply run_sorted.
  - intros done h' ->. apply run_sorted.
  - reflexivity.
  - intros done p rest h' HSeq ->.
    set (o := foldl _ _ done).
    assert (Lo : length o = n).
    { unfold o. by rewrite length_foldl_filter_step, length_zset. }
    assert (Hp : 0 <= p < Z.of_nat n).
    { apply (forallb_in_range n S); [exact HS|].
      rewrite HSeq. apply elem_of_app. right. apply list_elem_of_here. }
    assert (Hq : 0 <= zget T p < Z.of_nat n).
    { apply forallb_in_range_zget; [exact HT | lia]. }
    rewrite foldl_snoc. fold o. unfold filter_step at 1.
    destruct (p =? root); [by apply wp_ret|].
    unfold direct_rule.
    run_load run_parent. run_load run_image. run_load run_image.
    destruct (zget I p =? zget I (zget T p)).
    { run_load run_output. run_store_output run_output. }
    run_load run_attribute.
    destruct (zget A p <? thr).
    { run_load run_output. run_store_output run_output. }
    run_load run_image. run_store_output run_output.
  - intros h' ->. reflexivity.
Qed.

Lemma cut_first_filter_run :
  _cut_first_filter image output parent sorted_indices attribute thr h
  = (Ok tt, <[output := cut_first_filter_spec I T S A thr O]> h).
Proof.
  destruct (filter_inputs_spec _ _ _ _ _ _ Hin) as (LI & LO & LT & LA & LS & HS & HT).
  pose proof root_in_range as Hroot.
  cut (wp (_cut_first_filter image output parent sorted_indices attribute thr)
          (fun _ h' => h' = <[output := cut_first_filter_spec I T S A thr O]> h) h).
  { intros Hwp. apply wp_run in Hwp. destruct Hwp as ([] & h' & -> & ->). reflexivity. }
  rewrite run_start at 1. unfold _cut_first_filter.
  run_load run_sorted. apply wp_bind, wp_len. run_load run_attribute.
  apply wp_bind. eapply wp_mono; [apply filter_root_run, LO|].
  intros [] h0 ->. set (root := zget S 0) in *.
  apply (wp_for_in _ S _ (fun done h' =>
           h' = <[output := foldl (filter_step (cut_first_rule I A thr) T root)
                                 (zset O root (root_value I A thr root)) done]> h)).
  - apply run_sorted.
  - intros done h' ->. apply run_sorted.
  - reflexivity.
  - intros done p rest h' HSeq ->.
    set (o := foldl _ _ done).
    assert (Lo : length o = n).
    { unfold o. by rewrite length_foldl_filter_step, length_zset. }
    assert (Hp : 0 <= p < Z.of_nat n).
    { apply (forallb_in_range n S); [exact HS|].
      rewrite HSeq. apply elem_of_app. right. apply list_elem_of_here. }
    assert (Hq : 0 <= zget T p < Z.of_nat n).
    { apply forallb_in_range_zget; [exact HT | lia]. }
    rewrite foldl_snoc. fold o. unfold filter_step at 1.
    destruct (p =? root); [by apply wp_ret|].
    unfold cut_first_rule.
    run_load run_parent. run_load run_image. run_load run_image.
    destruct (zget I p =? zget I (zget T p)).
    { run_load run_output. run_store_output run_output. }
    run_load run_attribute.
    destruct (zget A p <? thr); simpl.
    { run_load run_output. run_store_output run_output. }
    run_load run_output. run_load run_image.
    destruct (zget o (zget T p) <? zget I (zget T p)).
    { run_load run_output. run_store_output run_output. }
    run_load run_image. run_store_output run_output.
  - intros h' ->. reflexivity.
Qed.
End FilterRun.

(** * Well-formed trees *)

Lemma existsb_eqb_elem (x : Z) (l : list Z) :
  existsb (Z.eqb x) l = true <-> x ∈ l.
Proof.
  rewrite existsb_exists. split.
  - intros (y & Hy & Heq). apply Z.eqb_eq in Heq. subst. by apply list_elem_of_In.
  - intros Hx. exists x. split; [by apply list_elem_of_In | apply Z.eqb_refl].
Qed.

Lemma is_perm_spec (n : nat) (S : list Z) :
  is_perm n S = true ->
  length S = n /\ NoDup S /\ forall x, x ∈ S <-> 0 <= x < Z.of_nat n.
Proof.
  unfold is_perm. rewrite andb_true_iff, Nat.eqb_eq, forallb_forall.
  intros [Hlen Hall].
  assert (Hincl : incl (seqZ 0 (Z.of_nat n)) S).
  { intros x Hx. apply list_elem_of_In, existsb_eqb_elem. by apply Hall. }
  assert (Hlen' : (length S <= length (seqZ 0 (Z.of_nat n)))%nat).
  { rewrite length_seqZ. lia. }
  split; [exact Hlen|]. split.
  - apply NoDup_ListNoDup.
    eapply NoDup_incl_NoDup; [apply NoDup_ListNoDup, (NoDup_seqZ 0 (Z.of_nat n)) | exact Hlen' | exact Hincl].
  - intros x. split.
    + intros Hx. apply list_elem_of_In in Hx.
      apply (NoDup_length_incl (proj1 (NoDup_ListNoDup _) (NoDup_seqZ _ _)) Hlen' Hincl),
        list_elem_of_In in Hx.
      apply elem_of_seqZ in Hx. lia.
    + intros Hx. apply list_elem_of_In, Hincl, list_elem_of_In, elem_of_seqZ. lia.
Qed.

Lemma is_perm_in_range (n : nat) (S : list Z) :
  is_perm n S = true -> forallb (in_range n) S = true.
Proof.
  intros HS. destruct (is_perm_spec _ _ HS) as (_ & _ & Hiff).
  apply forallb_forall. intros x Hx. apply in_range_spec, Hiff. by apply list_elem_of_In.
Qed.

Lemma order_from_spec (T seen rest : list Z) :
  order_from T seen rest = true ->
  forall pre p post, rest = pre ++ p :: post -> zget T p ∈ seen \/ zget T p ∈ pre.
Proof.
  revert seen. induction rest as [|x rest IH]; intros seen Hord pre p post Heq.
  - by destruct pre.
  - simpl in Hord. apply andb_true_iff in Hord as [Hx Hrest].
    destruct pre as [|y pre]; simpl in Heq; injection Heq as <- ->.
    + left. by apply existsb_eqb_elem.
    + destruct (IH _ Hrest pre p post eq_refl) as [Hin|Hin].
      * apply elem_of_cons in Hin as [->|Hin]; [right; left | by left].
      * right. by right.
Qed.

(** The Prop form of [tree_order]. *)
Lemma tree_order_spec (T S : list Z) :
  tree_order T S = true ->
  (exists rest, S = zget S 0 :: rest) /\
  zget T (zget S 0) = zget S 0 /\
  forall pre p post, S = pre ++ p :: post -> pre <> [] -> zget T p ∈ pre.
Proof.
  destruct S as [|r rest]; [discriminate|]. simpl.
  intros Hord. apply andb_true_iff in Hord as [Hr Hrest]. apply Z.eqb_eq in Hr.
  change (zget (r :: rest) 0) with r.
  split; [by exists rest|]. split; [exact Hr|].
  intros pre p post Heq Hpre.
  destruct pre as [|r' pre]; [done|]. simpl in Heq. injection Heq as <- ->.
  destruct (order_from_spec _ _ _ Hrest pre p post eq_refl) as [Hin|Hin].
  - apply list_elem_of_singleton in Hin. rewrite Hin. left.
  - by right.
Qed.

(** Induction from the root towards the leaves. *)
Lemma tree_order_ind (T S : list Z) (P : Z -> Prop) :
  tree_order T S = true ->
  P (zget S 0) ->
  (forall p, p ∈ S -> p <> zget S 0 -> P (zget T p) -> P p) ->
  forall p, p ∈ S -> P p.
Proof.
  intros Hord Hroot Hstep.
  destruct (tree_order_spec _ _ Hord) as ((rest & HS) & HTr & Hbefore).
  assert (Hpre : forall pre post, S = pre ++ post -> Forall P pre).
  { induction pre as [|x pre IH] using rev_ind; intros post Heq; [constructor|].
    rewrite <- app_assoc in Heq. simpl in Heq.
    assert (Hpre := IH _ Heq).
    apply Forall_app. split; [exact Hpre|]. constructor; [|constructor].
    destruct (decide (x = zget S 0)) as [->|Hne]; [exact Hroot|].
    apply Hstep; [rewrite Heq; apply elem_of_app; right; left | exact Hne |].
    destruct pre as [|y pre'].
    - simpl in Heq. rewrite HS in Heq. injection Heq as Heq _. congruence.
    - rewrite list.Forall_forall in Hpre. apply Hpre, (Hbefore _ _ _ Heq). done. }
  intros p Hp. specialize (Hpre S [] (eq_sym (app_nil_r S))).
  rewrite list.Forall_forall in Hpre. by apply Hpre.
Qed.

(** A rule is local when it reads the output only at the parent [q]. *)
Lemma direct_rule_local (I A : list Z) (thr : Z) (o o' : list Z) (p q : Z) :
  zget o q = zget o' q -> direct_rule I A thr o p q = direct_rule I A thr o' p q.
Proof. unfold direct_rule. by intros ->. Qed.

Lemma cut_first_rule_local (I A : list Z) (thr : Z) (o o' : list Z) (p q : Z) :
  zget o q = zget o' q -> cut_first_rule I A thr o p q = cut_first_rule I A thr o' p q.
Proof. unfold cut_first_rule. by intros ->. Qed.

(** On a well-formed tree every pixel is written once, after its parent:
    the final output satisfies the equations of the rule. *)
Lemma filter_spec_fix (rule : list Z -> Z -> Z -> Z) (I T S A : list Z)
    (thr : Z) (O : list Z) (n : nat) :
  (forall o o' p q, zget o q = zget o' q -> rule o p q = rule o' p q) ->
  is_perm n S = true -> tree_order T S = true -> length O = n ->
  length (filter_spec rule I T S A thr O) = n /\
  zget (filter_spec rule I T S A thr O) (zget S 0) = root_value I A thr (zget S 0) /\
  forall p, 0 <= p < Z.of_nat n -> p <> zget S 0 ->
    zget (filter_spec rule I T S A thr O) p
    = rule (filter_spec rule I T S A thr O) p (zget T p).
Proof.
  intros Hlocal Hperm Hord LO.
  destruct (is_perm_spec _ _ Hperm) as (LS & Hnd & Hrange).
  destruct (tree_order_spec _ _ Hord) as ((rest & HS) & HTr & Hbefore).
  unfold filter_spec. set (root := zget S 0) in *.
  set (rv := root_value I A thr root).
  set (step := filter_step rule T root).
  assert (Hroot : 0 <= root < Z.of_nat n).
  { apply Hrange. rewrite HS. left. }
  assert (Hlen : forall done, length (foldl step (zset O root rv) done) = n).
  { intros done. unfold step. by rewrite length_foldl_filter_step, length_zset. }
  assert (Hinv : forall done post, S = done ++ post ->
            zget (foldl step (zset O root rv) done) root = rv /\
            forall p, p ∈ done -> p <> root ->
              zget (foldl step (zset O root rv) done) p
              = rule (foldl step (zset O root rv) done) p (zget T p)).
  { induction done as [|x done IH] using rev_ind; intros post Heq.
    - simpl. split; [apply zget_zset_eq; lia|]. intros p Hp. by apply elem_of_nil in Hp.
    - rewrite <- app_assoc in Heq. simpl in Heq.
      destruct (IH _ Heq) as [IHr IHp]. rewrite foldl_snoc.
      set (o := foldl step (zset O root rv) done) in *.
      assert (Lo : length o = n) by apply Hlen.
      assert (Hs : step o x = if x =? root then o else zset o x (rule o x (zget T x)))
        by reflexivity.
      rewrite Hs. clear Hs.
      destruct (Z.eqb_spec x root) as [->|Hxr].
      { split; [exact IHr|]. intros p Hp Hne.
        apply elem_of_app in Hp as [Hp|Hp]; [by apply IHp|].
        apply list_elem_of_singleton in Hp. done. }
      assert (Hx : 0 <= x < Z.of_nat n).
      { apply Hrange. rewrite Heq. apply elem_of_app. right. left. }
      assert (Hxd : x ∉ done).
      { rewrite Heq in Hnd. apply list.NoDup_app in Hnd as (_ & Hnd & _).
        intros Hin. apply (Hnd x Hin). left. }
      assert (Hdone : done <> []).
      { intros ->. simpl in Heq. rewrite HS in Heq. injection Heq as Heq _. congruence. }
      assert (HTin : forall p, p ∈ done ++ [x] -> p <> root -> zget T p ∈ done).
      { intros p Hp Hne. apply elem_of_app in Hp as [Hp|Hp].
        - apply list_elem_of_split in Hp as (d1 & d2 & ->).
          rewrite <- app_assoc in Heq. simpl in Heq.
          destruct d1 as [|y d1].
          + simpl in Heq. rewrite HS in Heq. injection Heq as Heq _. congruence.
          + apply elem_of_app. left. by apply (Hbefore _ _ _ Heq).
        - apply list_elem_of_singleton in Hp as ->. by apply (Hbefore _ _ _ Heq). }
      assert (Hkeep : forall y, y ∈ done ->
                zget (zset o x (rule o x (zget T x))) y = zget o y).
      { intros y Hy. apply zget_zset_ne; [lia| |intros ->; done].
        apply Hrange. rewrite Heq. apply elem_of_app. by left. }
      split.
      { rewrite zget_zset_ne; [exact IHr | lia | lia | exact Hxr]. }
      intros p Hp Hne.
      rewrite <- (Hlocal o _ p (zget T p))
        by (symmetry; apply Hkeep, HTin; [exact Hp | exact Hne]).
      apply elem_of_app in Hp as [Hp|Hp].
      + rewrite Hkeep by exact Hp. by apply IHp.
      + apply list_elem_of_singleton in Hp as ->. apply zget_zset_eq. lia. }
  split; [apply Hlen|].
  destruct (Hinv S [] (eq_sym (app_nil_r S))) as [Hr Hp].
  split; [exact Hr|]. intros p Hpr Hne. apply Hp; [by apply Hrange | exact Hne].
Qed.

(** * The area attribute *)

Lemma count_if_ext (f g : Z -> bool) (l : list Z) :
  (forall y, y ∈ l -> f y = g y) -> count_if f l = count_if g l.
Proof.
  induction l as [|y l IH]; intros Hext; simpl; [reflexivity|].
  rewrite (Hext y) by left. rewrite IH; [reflexivity|].
  intros z Hz. apply Hext. by right.
Qed.

Lemma count_if_split (f g k : Z -> bool) (b : bool) (l : list Z) :
  (forall y, y ∈ l ->
     (if f y then 1 else 0) = (if g y then 1 else 0) + (if b && k y then 1 else 0)) ->
  count_if f l = count_if g l + (if b then count_if k l else 0).
Proof.
  induction l as [|y l IH]; intros Hext; simpl; [by destruct b|].
  rewrite (Hext y) by left. rewrite IH by (intros z Hz; apply Hext; by right).
  destruct b; simpl; lia.
Qed.

Lemma count_if_all (f : Z -> bool) (l : list Z) :
  (forall y, y ∈ l -> f y = true) -> count_if f l = Z.of_nat (length l).
Proof.
  induction l as [|y l IH]; intros Hall; simpl; [reflexivity|].
  rewrite (Hall y) by left. rewrite IH by (intros z Hz; apply Hall; by right). lia.
Qed.

Lemma count_if_bounds (f : Z -> bool) (l : list Z) :
  0 <= count_if f l <= Z.of_nat (length l).
Proof. induction l as [|y l IH]; simpl; [lia|]. destruct (f y); lia. Qed.

Lemma count_if_eqb (x : Z) (l : list Z) :
  NoDup l -> x ∈ l -> count_if (fun y => y =? x) l = 1.
Proof.
  induction l as [|y l IH]; intros Hnd Hx; [by apply elem_of_nil in Hx|].
  apply list.NoDup_cons in Hnd as [Hy Hnd]. simpl.
  destruct (Z.eqb_spec y x) as [->|Hne].
  - rewrite (count_if_ext _ (fun _ => false)).
    + clear. induction l; simpl; lia.
    + intros z Hz. apply Z.eqb_neq. intros ->. done.
  - apply elem_of_cons in Hx as [->|Hx]; [done|]. by rewrite IH.
Qed.

Lemma foldl_reverse_foldr {A B : Type} (f : A -> B -> A) (a : A) (l : list B) :
  foldl f a (reverse l) = foldr (fun x acc => f acc x) a l.
Proof.
  induction l as [|x l IH]; [reflexivity|].
  rewrite reverse_cons, foldl_snoc, IH. reflexivity.
Qed.

Lemma zget_replicate (n : nat) (v x : Z) :
  0 <= x < Z.of_nat n -> zget (replicate n v) x = v.
Proof. intros Hx. unfold zget. rewrite lookup_replicate_2 by lia. reflexivity. Qed.

Lemma ancestor_succ (T : list Z) (k : nat) (y : Z) :
  ancestor T (Datatypes.S k) y = ancestor T k (zget T y).
Proof. unfold ancestor. apply Nat.iter_succ_r. Qed.

Lemma in_subtree_spec (T : list Z) (n : nat) (p x : Z) :
  in_subtree T n p x = true <-> exists k, (k < n)%nat /\ ancestor T k x = p.
Proof.
  unfold in_subtree. rewrite existsb_exists. split.
  - intros (k & Hk & Heq). apply in_seq in Hk. apply Z.eqb_eq in Heq.
    exists k. split; [lia | exact Heq].
  - intros (k & Hk & Heq). exists k. split; [apply in_seq; lia | by apply Z.eqb_eq].
Qed.

Section Area.
Context (T S : list Z) (n : nat).
Hypothesis Hperm : is_perm n S = true.
Hypothesis Hord : tree_order T S = true.

Let root := zget S 0.

Lemma top_cons c suf y :
  top T (c :: suf) y = if c =? top T suf y then zget T c else top T suf y.
Proof. reflexivity. Qed.

Lemma top_notin suf y : y ∉ suf -> top T suf y = y.
Proof.
  induction suf as [|s suf IH]; intros Hy; [reflexivity|].
  apply not_elem_of_cons in Hy as [Hne Hy].
  rewrite top_cons, (IH Hy). destruct (Z.eqb_spec s y); congruence.
Qed.

Lemma top_ancestor suf y :
  exists k, (k <= length suf)%nat /\ top T suf y = ancestor T k y.
Proof.
  induction suf as [|s suf (k & Hk & IH)]; [by exists 0%nat|].
  rewrite top_cons, IH. destruct (Z.eqb_spec s (ancestor T k y)) as [-> | _].
  - exists (Datatypes.S k). split; [simpl; lia | reflexivity].
  - exists k. split; [simpl; lia | reflexivity].
Qed.

(** The parent of a pixel of a prefix of [S] is in the prefix. *)
Lemma parent_in_prefix pre suf y :
  S = pre ++ suf -> y ∈ pre -> zget T y ∈ pre.
Proof.
  intros Heq Hy.
  destruct (tree_order_spec _ _ Hord) as ((rest & HS) & HTr & Hbefore).
  apply list_elem_of_split in Hy as (d1 & d2 & ->).
  rewrite <- app_assoc in Heq. simpl in Heq.
  destruct d1 as [|z d1].
  - simpl in Heq. rewrite HS in Heq. injection Heq as Heq _.
    rewrite <- Heq, HTr. left.
  - apply elem_of_app. left. by apply (Hbefore _ _ _ Heq).
Qed.

Lemma ancestor_in_prefix pre suf y k :
  S = pre ++ suf -> y ∈ pre -> ancestor T k y ∈ pre.
Proof.
  intros Heq Hy. induction k as [|k IH]; [exact Hy|].
  simpl. by apply (parent_in_prefix pre suf).
Qed.

Lemma top_step pre suf y :
  S = pre ++ suf -> pre <> [] -> y ∈ suf -> top T suf y = top T suf (zget T y).
Proof.
  revert pre. induction suf as [|s suf IH]; intros pre Heq Hpre Hy.
  - by apply elem_of_nil in Hy.
  - destruct (is_perm_spec _ _ Hperm) as (_ & Hnd & _).
    destruct (tree_order_spec _ _ Hord) as (_ & _ & Hbefore).
    assert (Hs : s ∉ suf).
    { rewrite Heq in Hnd. apply list.NoDup_app in Hnd as (_ & _ & Hnd).
      by apply list.NoDup_cons in Hnd as [? _]. }
    assert (HTs : zget T s ∉ s :: suf).
    { rewrite Heq in Hnd. apply list.NoDup_app in Hnd as (_ & Hnd & _).
      apply Hnd, (Hbefore _ _ _ Heq Hpre). }
    apply elem_of_cons in Hy as [->|Hy].
    + rewrite top_cons, (top_notin suf s Hs), Z.eqb_refl.
      symmetry. by apply top_notin.
    + rewrite !top_cons. rewrite (IH (pre ++ [s])); [reflexivity| |by destruct pre|exact Hy].
      rewrite <- app_assoc. exact Heq.
Qed.

Lemma top_not_in_suffix pre suf y :
  S = pre ++ suf -> pre <> [] -> top T suf y ∉ suf.
Proof.
  revert pre. induction suf as [|s suf IH]; intros pre Heq Hpre.
  - apply not_elem_of_nil.
  - destruct (is_perm_spec _ _ Hperm) as (_ & Hnd & _).
    destruct (tree_order_spec _ _ Hord) as (_ & _ & Hbefore).
    rewrite top_cons. destruct (Z.eqb_spec s (top T suf y)) as [Hs|Hs].
    + rewrite Heq in Hnd. apply list.NoDup_app in Hnd as (_ & Hnd & _).
      apply Hnd, (Hbefore _ _ _ Heq Hpre).
    + apply not_elem_of_cons. split; [congruence|].
      apply (IH (pre ++ [s])); [|by destruct pre].
      rewrite <- app_assoc. exact Heq.
Qed.

(** The pixels whose first ancestor outside [suf] is [c], the pixel just
    before [suf], are the subtree of [c]. *)
Lemma top_subtree pre c suf y :
  S = pre ++ c :: suf -> y ∈ S ->
  (top T suf y =? c) = in_subtree T n c y.
Proof.
  intros Heq Hy.
  destruct (is_perm_spec _ _ Hperm) as (Hlen & Hnd & _).
  assert (Hc : c ∉ suf).
  { rewrite Heq in Hnd. apply list.NoDup_app in Hnd as (_ & _ & Hnd).
    by apply list.NoDup_cons in Hnd as [? _]. }
  assert (Heq' : S = (pre ++ [c]) ++ suf) by (by rewrite <- app_assoc).
  apply eq_true_iff_eq. rewrite Z.eqb_eq, in_subtree_spec. split.
  - intros Htop. destruct (top_ancestor suf y) as (k & Hk & Hanc).
    exists k. split; [|congruence].
    rewrite <- Hlen, Heq, length_app. simpl. lia.
  - intros (k & _ & Hanc). revert y Hy Hanc.
    induction k as [|k IH]; intros y Hy Hanc.
    + simpl in Hanc. subst y. by apply top_notin.
    + rewrite ancestor_succ in Hanc.
      destruct (decide (y ∈ suf)) as [Hin|Hin].
      * rewrite (top_step (pre ++ [c]) suf y Heq'); [|by destruct pre|exact Hin].
        apply IH; [|exact Hanc].
        apply (parent_in_prefix S []); [by rewrite app_nil_r | exact Hy].
      * rewrite (top_notin suf y Hin).
        rewrite Heq' in Hy. apply elem_of_app in Hy as [Hy|Hy]; [|done].
        apply elem_of_app in Hy as [Hy|Hy].
        -- assert (Hp : ancestor T (Datatypes.S k) y ∈ pre).
           { by apply (ancestor_in_prefix pre (c :: suf)). }
           rewrite ancestor_succ, Hanc in Hp.
           rewrite Heq in Hnd. apply list.NoDup_app in Hnd as (_ & Hnd & _).
           exfalso. apply (Hnd c Hp). left.
        -- by apply list_elem_of_singleton in Hy.
Qed.

Lemma elem_of_seqZ_S y : y ∈ seqZ 0 (Z.of_nat n) <-> y ∈ S.
Proof.
  destruct (is_perm_spec _ _ Hperm) as (_ & _ & Hrange).
  rewrite elem_of_seqZ, Hrange. lia.
Qed.

Lemma length_area_foldr suf :
  length (foldr (fun p A => area_step T root A p) (replicate n 1) suf) = n.
Proof.
  induction suf as [|c suf IH]; simpl; [apply length_replicate|].
  unfold area_step at 1. destruct (c =? root); [exact IH|].
  by rewrite length_zset.
Qed.

(** The state of the accumulation when the pixels [suf] have been
    processed and the pixels [pre] have not. *)
Lemma area_inv suf : forall pre,
  S = pre ++ suf -> pre <> [] ->
  (forall x, x ∈ pre ->
     zget (foldr (fun p A => area_step T root A p) (replicate n 1) suf) x
     = count_if (fun y => top T suf y =? x) (seqZ 0 (Z.of_nat n))) /\
  (forall x, x ∈ suf ->
     zget (foldr (fun p A => area_step T root A p) (replicate n 1) suf) x
     = subtree_size T n x).
Proof.
  destruct (is_perm_spec _ _ Hperm) as (Hlen & Hnd & Hrange).
  destruct (tree_order_spec _ _ Hord) as ((rest & HS) & HTr & Hbefore).
  induction suf as [|c suf IH]; intros pre Heq Hpre.
  - split; [|intros x Hx; by apply elem_of_nil in Hx].
    intros x Hx. simpl. rewrite app_nil_r in Heq. subst pre.
    rewrite zget_replicate by (by apply Hrange).
    symmetry. apply count_if_eqb; [apply NoDup_seqZ | by apply elem_of_seqZ_S].
  - assert (Heq' : S = (pre ++ [c]) ++ suf) by (by rewrite <- app_assoc).
    destruct (IH (pre ++ [c]) Heq') as [IHpre IHsuf]; [by destruct pre|].
    cbn [foldr]. set (A0 := foldr _ _ suf) in *.
    assert (LA0 : length A0 = n) by apply length_area_foldr.
    assert (Hcpre : c ∉ pre).
    { rewrite Heq in Hnd. apply list.NoDup_app in Hnd as (_ & Hnd & _).
      intros Hin. apply (Hnd c Hin). left. }
    assert (Hcsuf : forall x, x ∈ suf -> (x ∉ pre) /\ x <> c).
    { intros x Hx. rewrite Heq' in Hnd. apply list.NoDup_app in Hnd as (_ & Hnd & _).
      split.
      - intros Hin. apply (Hnd x); [apply elem_of_app; by left | exact Hx].
      - intros ->. apply (Hnd c); [apply elem_of_app; right; left | exact Hx]. }
    assert (Hrootpre : root ∈ pre).
    { destruct pre as [|r pre]; [done|]. simpl in Heq.
      assert (root = r) as -> by (unfold root; congruence). left. }
    assert (Hq : zget T c ∈ pre) by (by apply (Hbefore _ _ _ Heq)).
    assert (Hcr : c <> root) by (intros ->; done).
    assert (Hin : forall x, x ∈ S -> 0 <= x < Z.of_nat n) by (intros x; apply Hrange).
    assert (Hqr : 0 <= zget T c < Z.of_nat n).
    { apply Hin. rewrite Heq. apply elem_of_app. by left. }
    unfold area_step. destruct (Z.eqb_spec c root) as [? | _]; [done|].
    split.
    + intros x Hx.
      assert (Hxr : 0 <= x < Z.of_nat n).
      { apply Hin. rewrite Heq. apply elem_of_app. by left. }
      rewrite (count_if_split _ (fun y => top T suf y =? x)
                 (fun y => top T suf y =? c) (x =? zget T c)).
      * destruct (Z.eqb_spec x (zget T c)) as [->|Hne].
        -- rewrite zget_zset_eq by lia.
           rewrite IHpre by (apply elem_of_app; by left).
           rewrite IHpre by (apply elem_of_app; right; left). reflexivity.
        -- rewrite zget_zset_ne by lia.
           rewrite IHpre by (apply elem_of_app; by left). lia.
      * intros y _. rewrite top_cons.
        destruct (Z.eqb_spec c (top T suf y)) as [<-|Hne].
        -- rewrite Z.eqb_refl, andb_true_r, (Z.eqb_sym x).
           destruct (Z.eqb_spec c x) as [->|_]; [done|].
           destruct (zget T c =? x); reflexivity.
        -- destruct (Z.eqb_spec (top T suf y) c) as [? | _]; [congruence|].
           rewrite andb_false_r. lia.
    + intros x Hx. apply elem_of_cons in Hx as [->|Hx].
      * rewrite zget_zset_ne; [|lia| |intros Hqc; rewrite Hqc in Hq; done].
        -- rewrite IHpre by (apply elem_of_app; right; left).
           apply count_if_ext. intros y Hy.
           apply (top_subtree pre c suf y Heq). by apply elem_of_seqZ_S.
        -- apply Hin. rewrite Heq. apply elem_of_app. right. left.
      * destruct (Hcsuf x Hx) as [Hxp Hxc].
        rewrite zget_zset_ne; [by apply IHsuf | lia | |intros Hqx; rewrite Hqx in Hq; done].
        apply Hin. rewrite Heq. apply elem_of_app. right. by right.
Qed.

(** The accumulated attribute is the size of the subtree at every
    pixel, and the number of pixels at the root. *)
Lemma area_spec_subtree :
  length (area_spec n T S) = n /\
  zget (area_spec n T S) root = Z.of_nat n /\
  forall p, 0 <= p < Z.of_nat n -> zget (area_spec n T S) p = subtree_size T n p.
Proof.
  destruct (is_perm_spec _ _ Hperm) as (Hlen & Hnd & Hrange).
  destruct (tree_order_spec _ _ Hord) as ((rest & HS) & HTr & Hbefore).
  fold root in HS, HTr.
  unfold area_spec. rewrite foldl_reverse_foldr. fold root.
  split; [apply length_area_foldr|].
  assert (Hfold : foldr (fun p A => area_step T root A p) (replicate n 1) S
                  = foldr (fun p A => area_step T root A p) (replicate n 1) rest).
  { rewrite HS at 1. cbn [foldr]. unfold area_step at 1. by rewrite Z.eqb_refl. }
  rewrite Hfold.
  destruct (area_inv rest [root]) as [Hpre Hsuf]; [exact HS | done |].
  assert (Hroot : zget (foldr (fun p A => area_step T root A p) (replicate n 1) rest) root
                  = subtree_size T n root).
  { rewrite Hpre by left. apply count_if_ext. intros y Hy.
    apply (top_subtree [] root rest y HS). by apply elem_of_seqZ_S. }
  split.
  - rewrite Hpre by left. rewrite count_if_all; [by rewrite length_seqZ, Nat2Z.id|].
    intros y Hy. apply Z.eqb_eq.
    assert (Hn : top T rest y ∉ rest) by (by apply (top_not_in_suffix [root])).
    assert (Hi : top T rest y ∈ S).
    { destruct (top_ancestor rest y) as (k & _ & ->).
      apply (ancestor_in_prefix S []); [by rewrite app_nil_r | by apply elem_of_seqZ_S]. }
    rewrite HS in Hi. apply elem_of_cons in Hi as [Hi|Hi]; [exact Hi | done].
  - intros p Hp. apply Hrange in Hp. rewrite HS in Hp.
    apply elem_of_cons in Hp as [->|Hp]; [exact Hroot | by apply Hsuf].
Qed.
End Area.

Lemma area_inputs_spec (n : nat) (I T S : list Z) :
  area_inputs n I T S = true ->
  length I = n /\ length T = n /\ (0 < length S)%nat /\
  forallb (in_range n) S = true /\ forallb (in_range n) T = true.
Proof.
  unfold area_inputs. rewrite !andb_true_iff, negb_true_iff.
  rewrite !Nat.eqb_eq, Nat.eqb_neq. intros. intuition lia.
Qed.

Lemma contents_app_old (h : heap) (l : list Z) (b : buf) :
  (b < length h)%nat -> contents (h ++ [l]) b = contents h b.
Proof. intros Hb. unfold contents. by rewrite lookup_app_l. Qed.

Lemma contents_app_new (h : heap) (l : list Z) : contents (h ++ [l]) (length h) = l.
Proof. unfold contents. by rewrite list_lookup_middle. Qed.

Lemma insert_app_new (h : heap) (l l' : list Z) :
  <[length h := l']> (h ++ [l]) = h ++ [l'].
Proof. rewrite insert_app_r_alt by lia. by rewrite Nat.sub_diag. Qed.

Lemma length_area_step T root A p : length (area_step T root A p) = length A.
Proof. unfold area_step. destruct (p =? root); [reflexivity | apply length_zset]. Qed.

Lemma length_foldl_area_step T root ps A :
  length (foldl (area_step T root) A ps) = length A.
Proof.
  revert A. induction ps as [|p ps IH]; intros A; simpl; [reflexivity|].
  by rewrite IH, length_area_step.
Qed.

(** [_compute_area] returns a new buffer that holds [area_spec]. *)
Lemma compute_area_run (h : heap) (image parent sorted_indices : buf)
    (I T S : list Z) (n : nat) :
  area_call h image parent sorted_indices I T S ->
  area_inputs n I T S = true ->
  _compute_area image parent sorted_indices h
  = (Ok (length h), h ++ [area_spec n T S]).
Proof.
  intros (HI & HT & HS) Hin.
  destruct (area_inputs_spec _ _ _ _ Hin) as (LI & LT & LS & HSr & HTr).
  assert (Hb : forall a b l, h !! b = Some l -> contents (h ++ [a]) b = l).
  { intros a b l Hl. rewrite contents_app_old by (by apply lookup_lt_Some in Hl).
    by apply contents_lookup. }
  cut (wp (_compute_area image parent sorted_indices)
          (fun a h' => a = length h /\ h' = h ++ [area_spec n T S]) h).
  { intros Hwp. apply wp_run in Hwp. destruct Hwp as (a & h' & -> & -> & ->). reflexivity. }
  unfold _compute_area.
  apply wp_bind, wp_load; rewrite (contents_lookup _ _ _ HS); [lia|].
  apply wp_bind, wp_len. rewrite (contents_lookup _ _ _ HI), LI, Nat2Z.id.
  apply wp_bind, wp_alloc. set (root := zget S 0).
  apply wp_bind.
  apply (wp_for_in_reversed _ S _ (fun done h' =>
           h' = h ++ [foldl (area_step T root) (replicate n 1) done])).
  - by apply Hb.
  - intros done h' ->. by apply Hb.
  - reflexivity.
  - intros done p rest h' HSeq ->.
    set (A := foldl _ _ done).
    assert (LA : length A = n).
    { unfold A. by rewrite length_foldl_area_step, length_replicate. }
    assert (Hp : 0 <= p < Z.of_nat n).
    { apply (forallb_in_range n S); [exact HSr|].
      apply elem_of_reverse. rewrite HSeq. apply elem_of_app. right. left. }
    assert (Hq : 0 <= zget T p < Z.of_nat n).
    { apply forallb_in_range_zget; [exact HTr | lia]. }
    rewrite foldl_snoc. fold A. unfold area_step at 1.
    destruct (p =? root); [by apply wp_ret|].
    apply wp_bind, wp_load; rewrite (Hb _ _ _ HT); [lia|].
    apply wp_bind, wp_load; rewrite contents_app_new; [lia|].
    apply wp_bind, wp_load; rewrite contents_app_new; [lia|].
    apply wp_store; rewrite contents_app_new; [lia|].
    by rewrite insert_app_new.
  - intros h' ->. apply wp_ret. split; reflexivity.
Qed.

(** * Properties of the filtered image on well-formed trees *)

Lemma tree_inputs_spec (n : nat) (T S : list Z) :
  tree_inputs n T S = true ->
  length T = n /\ is_perm n S = true /\ tree_order T S = true /\
  forallb (in_range n) T = true.
Proof.
  unfold tree_inputs. rewrite !andb_true_iff, Nat.eqb_eq. tauto.
Qed.

Lemma list_eq_zget (l k : list Z) :
  length l = length k ->
  (forall p, 0 <= p < Z.of_nat (length l) -> zget l p = zget k p) -> l = k.
Proof.
  intros Hlen Hget. apply list_eq. intros i.
  destruct (decide (i < length l)%nat) as [Hi|Hi].
  - specialize (Hget (Z.of_nat i) ltac:(lia)).
    rewrite <- (Nat2Z.id i).
    rewrite (zget_lookup l) by lia. rewrite (zget_lookup k) by lia. by rewrite Hget.
  - rewrite !(proj2 (lookup_ge_None _ _)) by lia. reflexivity.
Qed.

Lemma tree_mono_spec (I T : list Z) (p : Z) :
  tree_mono I T = true -> 0 <= p < Z.of_nat (length T) ->
  zget I (zget T p) <= zget I p.
Proof.
  unfold tree_mono. rewrite forallb_forall. intros Hall Hp.
  apply Z.leb_le, Hall, list_elem_of_In, elem_of_seqZ. lia.
Qed.

Section FilterProps.
Context (I T S A : list Z) (n : nat) (thr : Z) (O : list Z).
Hypothesis Htree : tree_inputs n T S = true.
Hypothesis LO : length O = n.

Let root := zget S 0.
Let out_d := direct_filter_spec I T S A thr O.
Let out_c := cut_first_filter_spec I T S A thr O.

Lemma props_perm : is_perm n S = true.
Proof. by destruct (tree_inputs_spec _ _ _ Htree) as (_ & ? & _). Qed.

Lemma props_order : tree_order T S = true.
Proof. by destruct (tree_inputs_spec _ _ _ Htree) as (_ & _ & ? & _). Qed.

Lemma props_range p : p ∈ S <-> 0 <= p < Z.of_nat n.
Proof. destruct (is_perm_spec _ _ props_perm) as (_ & _ & H). apply H. Qed.

Lemma props_parent_range p : 0 <= p < Z.of_nat n -> 0 <= zget T p < Z.of_nat n.
Proof.
  destruct (tree_inputs_spec _ _ _ Htree) as (LT & _ & _ & HT).
  intros Hp. apply forallb_in_range_zget; [exact HT | lia].
Qed.

Lemma direct_fix :
  length out_d = n /\
  zget out_d root = root_value I A thr root /\
  forall p, 0 <= p < Z.of_nat n -> p <> root ->
    zget out_d p = direct_rule I A thr out_d p (zget T p).
Proof.
  apply filter_spec_fix; [apply direct_rule_local | apply props_perm | apply props_order | exact LO].
Qed.

Lemma cut_first_fix :
  length out_c = n /\
  zget out_c root = root_value I A thr root /\
  forall p, 0 <= p < Z.of_nat n -> p <> root ->
    zget out_c p = cut_first_rule I A thr out_c p (zget T p).
Proof.
  apply filter_spec_fix; [apply cut_first_rule_local | apply props_perm | apply props_order | exact LO].
Qed.

(** Induction over the pixels, parents first. *)
Lemma pixel_ind (P : Z -> Prop) :
  P root ->
  (forall p, 0 <= p < Z.of_nat n -> p <> root -> P (zget T p) -> P p) ->
  forall p, 0 <= p < Z.of_nat n -> P p.
Proof.
  intros Hroot Hstep p Hp.
  apply (tree_order_ind T S P props_order Hroot); [|by apply props_range].
  intros x Hx. apply Hstep. by apply props_range.
Qed.

Lemma root_range : 0 <= root < Z.of_nat n.
Proof.
  destruct (tree_order_spec _ _ props_order) as ((rest & HS) & _).
  apply props_range. rewrite HS. left.
Qed.

Lemma ancestor_range k x :
  0 <= x < Z.of_nat n -> 0 <= ancestor T k x < Z.of_nat n.
Proof.
  intros Hx. induction k as [|k IH]; [exact Hx|]. simpl. by apply props_parent_range.
Qed.

(** Once a pixel is pruned, the whole subtree below it takes its value. *)
Lemma cut_first_pruned :
  tree_mono I T = true ->
  forall k x, 0 <= x < Z.of_nat n ->
    zget out_c (ancestor T k x) < zget I (ancestor T k x) ->
    zget out_c x = zget out_c (ancestor T k x).
Proof.
  intros Hmono.
  destruct (tree_inputs_spec _ _ _ Htree) as (LT & _ & _ & _).
  destruct (tree_order_spec _ _ props_order) as (_ & HTr & _). fold root in HTr.
  destruct cut_first_fix as (_ & _ & Hfix).
  induction k as [|k IH]; intros x Hx Hpruned; [reflexivity|].
  change (ancestor T (Datatypes.S k) x) with (zget T (ancestor T k x)) in *.
  set (y := ancestor T k x) in *.
  assert (Hy : 0 <= y < Z.of_nat n) by (by apply ancestor_range).
  assert (Hyq : zget out_c y = zget out_c (zget T y)).
  { destruct (decide (y = root)) as [->|Hne]; [by rewrite HTr|].
    rewrite (Hfix y Hy Hne) at 1. unfold cut_first_rule.
    destruct (zget I y =? zget I (zget T y)); [reflexivity|].
    destruct (Z.ltb_spec (zget out_c (zget T y)) (zget I (zget T y))); [|lia].
    by rewrite orb_true_r. }
  rewrite <- Hyq. apply IH; [exact Hx|].
  pose proof (tree_mono_spec I T y Hmono ltac:(lia)). fold y. lia.
Qed.

(** The cut-first output is below the direct output. *)
Lemma cut_first_le_direct :
  tree_mono I T = true ->
  forall p, 0 <= p < Z.of_nat n -> zget out_c p <= zget out_d p.
Proof.
  intros Hmono.
  destruct (tree_inputs_spec _ _ _ Htree) as (LT & _ & _ & _).
  destruct cut_first_fix as (_ & Hcr & Hc). destruct direct_fix as (_ & Hdr & Hd).
  apply pixel_ind; [rewrite Hcr, Hdr; lia|].
  intros p Hp Hne IH. rewrite (Hc p Hp Hne), (Hd p Hp Hne).
  unfold cut_first_rule, direct_rule.
  destruct (zget I p =? zget I (zget T p)); [exact IH|].
  destruct (zget A p <? thr); [exact IH|]. simpl.
  destruct (Z.ltb_spec (zget out_c (zget T p)) (zget I (zget T p))); [|lia].
  pose proof (tree_mono_spec I T p Hmono ltac:(lia)). lia.
Qed.

(** Every value of the outputs is 0 or a value of the image. *)
Lemma outputs_from_image :
  forall p, 0 <= p < Z.of_nat n ->
    (zget out_d p = 0 \/ exists q, 0 <= q < Z.of_nat n /\ zget out_d p = zget I q) /\
    (zget out_c p = 0 \/ exists q, 0 <= q < Z.of_nat n /\ zget out_c p = zget I q).
Proof.
  destruct cut_first_fix as (_ & Hcr & Hc). destruct direct_fix as (_ & Hdr & Hd).
  pose proof root_range as Hroot.
  apply pixel_ind.
  - rewrite Hcr, Hdr. unfold root_value.
    destruct (zget A root <? thr); split; (by left) || (right; by exists root).
  - intros p Hp Hne [IHd IHc]. rewrite (Hc p Hp Hne), (Hd p Hp Hne).
    unfold cut_first_rule, direct_rule.
    destruct (zget I p =? zget I (zget T p)); [by split|].
    destruct (zget A p <? thr); simpl; [by split|].
    split; [right; by exists p|].
    destruct (zget out_c (zget T p) <? zget I (zget T p)); [exact IHc|].
    right. by exists p.
Qed.

(** When no attribute is below the threshold, nothing is pruned. *)
Lemma nothing_pruned :
  (forall p, 0 <= p < Z.of_nat n -> thr <= zget A p) ->
  forall p, 0 <= p < Z.of_nat n ->
    zget out_d p = zget I p /\ zget out_c p = zget I p.
Proof.
  intros Hattr.
  destruct cut_first_fix as (_ & Hcr & Hc). destruct direct_fix as (_ & Hdr & Hd).
  pose proof root_range as Hroot.
  apply pixel_ind.
  - rewrite Hcr, Hdr. unfold root_value.
    destruct (Z.ltb_spec (zget A root) thr); [|by split].
    specialize (Hattr root Hroot). lia.
  - intros p Hp Hne [IHd IHc]. rewrite (Hc p Hp Hne), (Hd p Hp Hne).
    unfold cut_first_rule, direct_rule. rewrite IHd, IHc.
    destruct (Z.eqb_spec (zget I p) (zget I (zget T p))) as [Heq|_]; [by split|].
    destruct (Z.ltb_spec (zget A p) thr); [specialize (Hattr p Hp); lia|].
    simpl. rewrite Z.ltb_irrefl. by split.
Qed.

(** When every attribute is below the threshold, everything is pruned. *)
Lemma everything_pruned :
  (forall p, 0 <= p < Z.of_nat n -> zget A p < thr) ->
  forall p, 0 <= p < Z.of_nat n -> zget out_d p = 0 /\ zget out_c p = 0.
Proof.
  intros Hattr.
  destruct cut_first_fix as (_ & Hcr & Hc). destruct direct_fix as (_ & Hdr & Hd).
  pose proof root_range as Hroot.
  apply pixel_ind.
  - rewrite Hcr, Hdr. unfold root_value.
    destruct (Z.ltb_spec (zget A root) thr); [by split|].
    specialize (Hattr root Hroot). lia.
  - intros p Hp Hne [IHd IHc]. rewrite (Hc p Hp Hne), (Hd p Hp Hne).
    unfold cut_first_rule, direct_rule. rewrite IHd, IHc.
    destruct (zget I p =? zget I (zget T p)); [by split|].
    destruct (Z.ltb_spec (zget A p) thr); [by split|].
    specialize (Hattr p Hp). lia.
Qed.

(** On an image without negative values, in a tree where intensity does
    not increase towards the root, no output value exceeds the image. *)
Lemma outputs_le_image :
  tree_mono I T = true ->
  (forall p, 0 <= p < Z.of_nat n -> 0 <= zget I p) ->
  forall p, 0 <= p < Z.of_nat n ->
    zget out_d p <= zget I p /\ zget out_c p <= zget I p.
Proof.
  intros Hmono Hnn.
  destruct (tree_inputs_spec _ _ _ Htree) as (LT & _ & _ & _).
  destruct cut_first_fix as (_ & Hcr & Hc). destruct direct_fix as (_ & Hdr & Hd).
  pose proof root_range as Hroot.
  apply pixel_ind.
  - rewrite Hcr, Hdr. unfold root_value. specialize (Hnn root Hroot).
    destruct (zget A root <? thr); lia.
  - intros p Hp Hne [IHd IHc]. rewrite (Hc p Hp Hne), (Hd p Hp Hne).
    pose proof (tree_mono_spec I T p Hmono ltac:(lia)).
    unfold cut_first_rule, direct_rule.
    destruct (zget I p =? zget I (zget T p)); [lia|].
    destruct (zget A p <? thr); simpl; [lia|].
    destruct (zget out_c (zget T p) <? zget I (zget T p)); lia.
Qed.

(** For an attribute that does not increase from parent to child the two
    filters agree: a pixel that is kept has only kept ancestors. *)
Lemma cut_first_eq_direct :
  attr_increasing A T = true ->
  forall p, 0 <= p < Z.of_nat n ->
    zget out_c p = zget out_d p /\ (thr <= zget A p -> zget out_c p = zget I p).
Proof.
  intros Hinc.
  destruct (tree_inputs_spec _ _ _ Htree) as (LT & _ & _ & _).
  destruct cut_first_fix as (_ & Hcr & Hc). destruct direct_fix as (_ & Hdr & Hd).
  assert (HA : forall p, 0 <= p < Z.of_nat n -> zget A p <= zget A (zget T p)).
  { intros p Hp. unfold attr_increasing in Hinc. rewrite forallb_forall in Hinc.
    apply Z.leb_le, Hinc, list_elem_of_In, elem_of_seqZ. lia. }
  apply pixel_ind.
  - rewrite Hcr, Hdr. split; [reflexivity|]. unfold root_value.
    destruct (Z.ltb_spec (zget A root) thr); [lia | reflexivity].
  - intros p Hp Hne [IHeq IHkeep]. rewrite (Hc p Hp Hne), (Hd p Hp Hne).
    specialize (HA p Hp). unfold cut_first_rule, direct_rule.
    destruct (Z.eqb_spec (zget I p) (zget I (zget T p))) as [Heq|_].
    { split; [exact IHeq|]. intros Hthr. rewrite Heq. apply IHkeep. lia. }
    destruct (Z.ltb_spec (zget A p) thr) as [Hlow|Hkeep]; simpl.
    { split; [exact IHeq | lia]. }
    rewrite (IHkeep ltac:(lia)), Z.ltb_irrefl. by split.
Qed.
End FilterProps.

(** ** The area attribute in front of a filter *)

Lemma zget_nonneg_of_Forall (A : list Z) (p : Z) :
  Forall (fun v => 1 <= v) A -> 0 <= zget A p.
Proof.
  intros HA. unfold zget. destruct (A !! Z.to_nat p) as [v|] eqn:E; simpl; [|lia].
  pose proof (Forall_lookup_1 _ _ _ _ HA E) as Hv. simpl in Hv. lia.
Qed.

Lemma area_step_ge_1 (T : list Z) (root : Z) (A : list Z) (p : Z) :
  Forall (fun v => 1 <= v) A -> Forall (fun v => 1 <= v) (area_step T root A p).
Proof.
  intros HA. unfold area_step. destruct (p =? root); [exact HA|].
  unfold zset. destruct (A !! Z.to_nat (zget T p)) as [v|] eqn:E.
  - apply Forall_insert; [exact HA|].
    pose proof (Forall_lookup_1 _ _ _ _ HA E) as Hv. simpl in Hv.
    pose proof (zget_nonneg_of_Forall A p HA).
    unfold zget at 1. rewrite E. simpl. lia.
  - apply lookup_ge_None in E. by rewrite list_insert_ge.
Qed.

Lemma area_spec_ge_1 (n : nat) (T S : list Z) (p : Z) :
  0 <= p < Z.of_nat n -> 1 <= zget (area_spec n T S) p.
Proof.
  intros Hp.
  assert (HA : Forall (fun v => 1 <= v) (area_spec n T S)).
  { unfold area_spec. generalize (reverse S). intros ps.
    assert (H1 : Forall (fun v => 1 <= v) (replicate n 1)).
    { apply Forall_replicate. lia. }
    revert H1. generalize (replicate n 1).
    induction ps as [|x ps IH]; intros A0 HA0; simpl; [exact HA0|].
    apply IH. by apply area_step_ge_1. }
  assert (Hlen : length (area_spec n T S) = n).
  { unfold area_spec. by rewrite length_foldl_area_step, length_replicate. }
  pose proof (zget_lookup (area_spec n T S) p ltac:(lia)) as Hl.
  pose proof (Forall_lookup_1 _ _ _ _ HA Hl) as Hv. exact Hv.
Qed.

Lemma area_spec_le_root (n : nat) (T S : list Z) (p : Z) :
  tree_inputs n T S = true -> 0 <= p < Z.of_nat n ->
  zget (area_spec n T S) p <= zget (area_spec n T S) (zget S 0).
Proof.
  intros Htree Hp.
  destruct (tree_inputs_spec _ _ _ Htree) as (_ & Hperm & Hord & _).
  destruct (area_spec_subtree T S n Hperm Hord) as (_ & Hroot & Hsub).
  rewrite Hroot, (Hsub p Hp). unfold subtree_size.
  pose proof (count_if_bounds (in_subtree T n p) (seqZ 0 (Z.of_nat n))) as Hb.
  rewrite length_seqZ in Hb. lia.
Qed.

Lemma pipeline_area_run (h : heap) (image output parent sorted_indices : buf)
    (I O T S : list Z) (n : nat) :
  pipeline_call h image output parent sorted_indices I O T S ->
  length I = n -> tree_inputs n T S = true ->
  _compute_area image parent sorted_indices h
  = (Ok (length h), h ++ [area_spec n T S]).
Proof.
  intros (HI & HO & HT & HS & _) LI Htree.
  destruct (tree_inputs_spec _ _ _ Htree) as (LT & Hperm & Hord & HTr).
  destruct (is_perm_spec _ _ Hperm) as (LS & _ & _).
  destruct (tree_order_spec _ _ Hord) as ((rest & HSr) & _).
  apply (compute_area_run h _ _ _ I); [by repeat split|].
  unfold area_inputs. rewrite LI, LT, !Nat.eqb_refl, HTr, (is_perm_in_range _ _ Hperm).
  rewrite HSr. reflexivity.
Qed.

Lemma pipeline_filter_call (h : heap) (image output parent sorted_indices : buf)
    (I O T S A : list Z) :
  pipeline_call h image output parent sorted_indices I O T S ->
  filter_call (h ++ [A]) image output parent sorted_indices (length h) I O T S A.
Proof.
  intros (HI & HO & HT & HS & N1 & N2 & N3).
  assert (Hout := lookup_lt_Some _ _ _ HO).
  unfold filter_call.
  repeat split; try (by apply lookup_app_l_Some); try done.
  - by rewrite list_lookup_middle.
  - lia.
Qed.

Lemma pipeline_filter_inputs (I O T S : list Z) (n : nat) :
  length I = n -> length O = n -> tree_inputs n T S = true ->
  filter_inputs n I O T S (area_spec n T S) = true.
Proof.
  intros LI LO Htree.
  destruct (tree_inputs_spec _ _ _ Htree) as (LT & Hperm & Hord & HTr).
  destruct (tree_order_spec _ _ Hord) as ((rest & HSr) & _).
  unfold filter_inputs. simpl.
  assert (LA : length (area_spec n T S) = n).
  { unfold area_spec. by rewrite length_foldl_area_step, length_replicate. }
  rewrite LI, LO, LT, LA, !Nat.eqb_refl, HTr, (is_perm_in_range _ _ Hperm).
  rewrite HSr. reflexivity.
Qed.

(** * The neighbourhood resolver *)

Lemma res_map_all {A B : Type} (f : A -> res B) (ok : A -> bool) (g : A -> B)
    (e : exn) (xs : list A) :
  (forall x, f x = if ok x then Ok (g x) else Raise e) ->
  res_map f xs = if forallb ok xs then Ok (g <$> xs) else Raise e.
Proof.
  intros Hf. induction xs as [|x xs IH]; [reflexivity|].
  simpl. rewrite Hf. destruct (ok x); simpl; [|reflexivity].
  rewrite IH. by destruct (forallb ok xs).
Qed.

Lemma np_unravel_index_eq (i : Z) (shape : list Z) :
  np_unravel_index i shape
  = if index_ok shape i then Ok (unravel i shape) else Raise ValueError.
Proof. reflexivity. Qed.

(** What [offsets_to_points] returns, for a non-empty list of offsets. *)
Lemma offsets_to_points_eq (offsets shape : list Z) (m : Z) :
  np_min offsets = Some m ->
  offsets_to_points offsets shape
  = if index_ok shape (neg_shift_of offsets)
       && forallb (fun o => index_ok shape (shifted offsets o)) offsets
    then Ok (delta_row offsets shape <$> offsets)
    else Raise ValueError.
Proof.
  intros Hmin. unfold offsets_to_points. rewrite Hmin.
  assert (Hns : wrap32 (- m) = neg_shift_of offsets).
  { unfold neg_shift_of. by rewrite Hmin. }
  rewrite Hns, np_unravel_index_eq.
  destruct (index_ok shape (neg_shift_of offsets)); simpl; [|reflexivity].
  apply res_map_all. intros o. rewrite np_unravel_index_eq.
  fold (shifted offsets o). by destruct (index_ok shape (shifted offsets o)).
Qed.

(** ** Raveled indices and coordinates *)

Lemma length_unravel_rev (rs : list Z) (v : Z) : length (unravel_rev rs v) = length rs.
Proof. revert v. induction rs as [|d ds IH]; intros v; simpl; [reflexivity | by rewrite IH]. Qed.

Lemma length_unravel (v : Z) (shape : list Z) : length (unravel v shape) = length shape.
Proof. unfold unravel. by rewrite length_reverse, length_unravel_rev, length_reverse. Qed.

Lemma prod_app (l k : list Z) : prod (l ++ k) = prod l * prod k.
Proof.
  unfold prod. induction l as [|x l IH]; simpl; [lia|]. rewrite IH. lia.
Qed.

Lemma prod_reverse (l : list Z) : prod (reverse l) = prod l.
Proof.
  induction l as [|x l IH]; [reflexivity|].
  rewrite reverse_cons, prod_app, IH. unfold prod. simpl. lia.
Qed.

Lemma prod_pos (l : list Z) : Forall (fun d => 0 < d) l -> 0 < prod l.
Proof.
  unfold prod. induction 1 as [|d l Hd _ IH]; simpl; [lia | nia].
Qed.

Lemma ravel_unravel_rev (rs : list Z) (v : Z) :
  Forall (fun d => 0 < d) rs -> 0 <= v < prod rs ->
  ravel_rev rs (unravel_rev rs v) = v.
Proof.
  intros Hpos. revert v. induction Hpos as [|d ds Hd Hds IH]; intros v Hv.
  - unfold prod in Hv. simpl in *. lia.
  - change (prod (d :: ds)) with (d * prod ds) in Hv. simpl.
    rewrite Z.quot_div_nonneg, Z.rem_mod_nonneg by lia.
    rewrite IH.
    + pose proof (Z.div_mod v d ltac:(lia)). lia.
    + split; [apply Z.div_pos; lia|]. apply Z.div_lt_upper_bound; lia.
Qed.

Lemma ravel_rev_sub_add (rs X Y W : list Z) :
  length X = length rs -> length Y = length rs -> length W = length rs ->
  ravel_rev rs (zip_with Z.add X (zip_with Z.sub Y W))
  = ravel_rev rs X + ravel_rev rs Y - ravel_rev rs W.
Proof.
  revert X Y W. induction rs as [|d ds IH]; intros X Y W LX LY LW.
  - by destruct X.
  - destruct X as [|x X], Y as [|y Y], W as [|w W]; try discriminate.
    simpl in *. rewrite IH by lia. lia.
Qed.

Lemma ravel_rev_range (rs E : list Z) :
  Forall2 (fun e s => 0 <= e < s) E rs -> 0 <= ravel_rev rs E < prod rs.
Proof.
  induction 1 as [|e s E rs He _ IH]; [unfold prod; simpl; lia|].
  change (prod (s :: rs)) with (s * prod rs). simpl. nia.
Qed.

(** The loop of [_is_valid_coordinate] accepts exactly the coordinates
    that stay inside the shape. *)
Lemma valid_loop_true (pc co sh : list Z) :
  length pc = length sh -> length co = length sh ->
  valid_loop pc co sh = Ok true ->
  Forall2 (fun e s => 0 <= e < s) (zip_with Z.add pc co) sh.
Proof.
  revert pc co. induction sh as [|s sh IH]; intros pc co Lp Lc Hv.
  - destruct pc; [|discriminate]. constructor.
  - destruct pc as [|c pc], co as [|d co]; try discriminate.
    simpl in *. destruct (Z.ltb_spec (c + d) 0); [discriminate|].
    destruct (Z.geb_spec (c + d) s); [discriminate|].
    constructor; [lia|]. apply IH; [lia | lia | exact Hv].
Qed.

Lemma valid_loop_total (pc co sh : list Z) :
  length pc = length sh -> length co = length sh ->
  exists b, valid_loop pc co sh = Ok b.
Proof.
  revert pc co. induction sh as [|s sh IH]; intros pc co Lp Lc.
  - exists true. reflexivity.
  - destruct pc as [|c pc], co as [|d co]; try discriminate.
    simpl in *. destruct (c + d <? 0); [exists false; reflexivity|].
    destruct (c + d >=? s); [exists false; reflexivity|]. apply IH; lia.
Qed.

Lemma Forall2_reverse_zip (pc co sh : list Z) :
  length pc = length sh -> length co = length sh ->
  Forall2 (fun e s => 0 <= e < s) (zip_with Z.add pc co) sh ->
  Forall2 (fun e s => 0 <= e < s)
    (zip_with Z.add (reverse pc) (reverse co)) (reverse sh).
Proof.
  intros Lp Lc H. apply Forall2_reverse in H.
  assert (Hz : reverse (zip_with Z.add pc co) = zip_with Z.add (reverse pc) (reverse co)).
  { clear H. revert co sh Lp Lc. induction pc as [|c pc IH]; intros co sh Lp Lc.
    - by destruct co.
    - destruct co as [|d co], sh as [|s sh]; try discriminate.
      simpl. rewrite !reverse_cons, (IH co sh) by (simpl in *; lia).
      rewrite zip_with_app by (rewrite !length_reverse; simpl in *; lia).
      reflexivity. }
  by rewrite <- Hz.
Qed.

Lemma reverse_zip_with_sub (X Y : list Z) :
  length X = length Y ->
  reverse (zip_with Z.sub X Y) = zip_with Z.sub (reverse X) (reverse Y).
Proof.
  revert Y. induction X as [|x X IH]; intros Y L.
  - by destruct Y.
  - destruct Y as [|y Y]; [discriminate|].
    simpl. rewrite !reverse_cons, IH by (simpl in *; lia).
    rewrite zip_with_app by (rewrite !length_reverse; simpl in *; lia).
    reflexivity.
Qed.

(** A neighbour that [_is_valid_coordinate] accepts is a pixel: the
    coordinate deltas of a row of the table ravel to the difference of the
    two indices the row was made from. *)
Lemma valid_coordinate_in_range (shape : list Z) (p a b : Z) :
  Forall (fun d => 0 < d) shape ->
  0 <= p < prod shape -> 0 <= a < prod shape -> 0 <= b < prod shape ->
  _is_valid_coordinate p (zip_with Z.sub (unravel a shape) (unravel b shape)) shape
  = Ok true ->
  0 <= p + (a - b) < prod shape.
Proof.
  intros Hpos Hp Ha Hb Hv. unfold _is_valid_coordinate, np_unravel_index in Hv.
  destruct (Z.leb_spec 0 p); [|lia]. destruct (Z.ltb_spec p (prod shape)); [|lia].
  simpl in Hv.
  apply valid_loop_true in Hv;
    [|by rewrite length_unravel|by rewrite length_zip_with, !length_unravel, Nat.min_id].
  apply Forall2_reverse_zip in Hv;
    [|by rewrite length_unravel|by rewrite length_zip_with, !length_unravel, Nat.min_id].
  rewrite reverse_zip_with_sub in Hv by (by rewrite !length_unravel).
  unfold unravel in Hv. rewrite !reverse_involutive in Hv.
  set (rs := reverse shape) in *.
  assert (Hrs : Forall (fun d => 0 < d) rs) by (by apply Forall_reverse).
  assert (Hprod : prod rs = prod shape) by apply prod_reverse.
  apply ravel_rev_range in Hv.
  rewrite ravel_rev_sub_add in Hv by (by rewrite length_unravel_rev).
  rewrite !ravel_unravel_rev in Hv by (assumption || lia).
  lia.
Qed.

(** ** The table of a successful call, without wrap-around *)

Lemma wrap32_small (z : Z) : - 2 ^ 31 <= z < 2 ^ 31 -> wrap32 z = z.
Proof. intros Hz. unfold wrap32. rewrite Z.mod_small; lia. Qed.

Lemma wrap32_high (z : Z) : 2 ^ 31 <= z < 2 ^ 32 -> wrap32 z < 0.
Proof. intros Hz. unfold wrap32. Z.div_mod_to_equations. lia. Qed.

Lemma foldl_min_spec (l : list Z) (x : Z) :
  (foldl Z.min x l = x \/ foldl Z.min x l ∈ l) /\
  foldl Z.min x l <= x /\ forall y, y ∈ l -> foldl Z.min x l <= y.
Proof.
  revert x. induction l as [|a l IH]; intros x; simpl.
  - split; [by left|]. split; [lia|]. intros y Hy. by apply elem_of_nil in Hy.
  - destruct (IH (Z.min x a)) as (Hin & Hle & Hall).
    split; [|split].
    + destruct Hin as [Heq|Hin]; [|right; by right].
      destruct (Z.min_spec x a) as [[_ Hm]|[_ Hm]].
      * left. by rewrite Heq.
      * right. rewrite Heq, Hm. left.
    + lia.
    + intros y Hy. apply elem_of_cons in Hy as [->|Hy]; [lia | by apply Hall].
Qed.

Lemma np_min_spec (l : list Z) (m : Z) :
  np_min l = Some m -> m ∈ l /\ forall y, y ∈ l -> m <= y.
Proof.
  destruct l as [|x l]; [discriminate|]. simpl. intros [= <-].
  destruct (foldl_min_spec l x) as (Hin & Hle & Hall). split.
  - destruct Hin as [->|Hin]; [left | by right].
  - intros y Hy. apply elem_of_cons in Hy as [->|Hy]; [exact Hle | by apply Hall].
Qed.

Lemma representable_int32 (z : Z) :
  representable int32 z = true <-> - 2 ^ 31 <= z <= 2 ^ 31 - 1.
Proof.
  unfold representable, dtype_min, dtype_max.
  rewrite andb_true_iff, !Z.leb_le. tauto.
Qed.

(** When the shifted offsets are indices, no sum has wrapped. *)
Lemma shifted_no_wrap (offsets : list Z) (m o : Z) :
  forallb (representable int32) offsets = true ->
  np_min offsets = Some m -> o ∈ offsets ->
  0 <= neg_shift_of offsets -> 0 <= shifted offsets o ->
  shifted offsets o - neg_shift_of offsets = o.
Proof.
  intros Hrep Hmin Ho Hns Hsh.
  destruct (np_min_spec _ _ Hmin) as [Hm Hle].
  rewrite forallb_forall in Hrep.
  pose proof (proj1 (representable_int32 m) (Hrep m (proj1 (list_elem_of_In _ _) Hm))).
  pose proof (proj1 (representable_int32 o) (Hrep o (proj1 (list_elem_of_In _ _) Ho))).
  pose proof (Hle o Ho).
  unfold shifted in *. unfold neg_shift_of in *. rewrite Hmin in *. simpl in *.
  destruct (decide (m = - 2 ^ 31)) as [->|Hne].
  { exfalso. revert Hns. vm_compute. congruence. }
  rewrite (wrap32_small (- m)) in * by lia.
  destruct (decide (o + - m < 2 ^ 31)) as [Hlt|Hge].
  - rewrite wrap32_small by lia. lia.
  - pose proof (wrap32_high (o + - m) ltac:(lia)). lia.
Qed.

(** The rows of the table of a successful call. *)
Lemma offsets_to_points_ok (offsets shape : list Z) (points : list (list Z)) :
  offsets_to_points offsets shape = Ok points ->
  exists m, np_min offsets = Some m /\
    index_ok shape (neg_shift_of offsets) = true /\
    (forall o, o ∈ offsets -> index_ok shape (shifted offsets o) = true) /\
    points = delta_row offsets shape <$> offsets.
Proof.
  intros Hok. destruct (np_min offsets) as [m|] eqn:Hmin.
  2:{ unfold offsets_to_points in Hok. by rewrite Hmin in Hok. }
  exists m. split; [reflexivity|].
  rewrite (offsets_to_points_eq offsets shape m Hmin) in Hok.
  destruct (index_ok shape (neg_shift_of offsets)); [|discriminate].
  destruct (forallb _ offsets) eqn:E; [|discriminate]. simpl in Hok.
  split; [reflexivity|]. split; [|congruence].
  intros o Ho. rewrite forallb_forall in E. by apply E, list_elem_of_In.
Qed.

Lemma index_ok_spec (shape : list Z) (i : Z) :
  index_ok shape i = true <-> 0 <= i < prod shape.
Proof. unfold index_ok. rewrite andb_true_iff, Z.leb_le, Z.ltb_lt. tauto. Qed.

(** * The tree builder: positions, ancestors and the heap *)

Lemma pos_lookup (S : list Z) (x : Z) : x ∈ S -> S !! pos S x = Some x.
Proof.
  induction S as [|y S IH]; intros Hx; [by apply elem_of_nil in Hx|].
  simpl. destruct (Z.eqb_spec y x) as [->|Hne]; [reflexivity|].
  apply elem_of_cons in Hx as [->|Hx]; [done|]. by apply IH.
Qed.

Lemma pos_lt (S : list Z) (x : Z) : x ∈ S -> (pos S x < length S)%nat.
Proof. intros Hx. apply (lookup_lt_Some _ _ x), pos_lookup, Hx. Qed.

Lemma pos_of_lookup (S : list Z) (i : nat) (x : Z) :
  NoDup S -> S !! i = Some x -> pos S x = i.
Proof.
  intros Hnd Hi.
  assert (Hx : x ∈ S) by (apply list_elem_of_lookup; by exists i).
  apply (NoDup_lookup S _ _ x Hnd); [by apply pos_lookup | exact Hi].
Qed.

Lemma pos_inj (S : list Z) (x y : Z) :
  x ∈ S -> y ∈ S -> pos S x = pos S y -> x = y.
Proof.
  intros Hx Hy Heq. apply pos_lookup in Hx, Hy. rewrite Heq in Hx. congruence.
Qed.

Lemma pos_reverse_split (S : list Z) (done rest : list Z) (p : Z) :
  NoDup S -> reverse S = done ++ p :: rest ->
  p ∈ S /\ pos S p = (length S - Datatypes.S (length done))%nat /\
  (length done < length S)%nat.
Proof.
  intros Hnd Hrev.
  assert (HS : S = reverse rest ++ p :: reverse done).
  { rewrite <- (reverse_involutive S), Hrev, reverse_app, reverse_cons.
    by rewrite <- app_assoc. }
  assert (Hlen : length S = (length rest + Datatypes.S (length done))%nat).
  { rewrite HS, length_app. simpl. by rewrite !length_reverse. }
  split; [rewrite HS; apply elem_of_app; right; left|].
  split; [|lia].
  rewrite (pos_of_lookup S (length rest) p Hnd); [lia|].
  rewrite HS. rewrite <- (length_reverse rest). apply list_lookup_middle. reflexivity.
Qed.

Lemma pos_split (S : list Z) (done rest : list Z) (p : Z) :
  NoDup S -> S = done ++ p :: rest -> p ∈ S /\ pos S p = length done.
Proof.
  intros Hnd HS. split; [rewrite HS; apply elem_of_app; right; left|].
  apply (pos_of_lookup S _ p Hnd). rewrite HS. by apply list_lookup_middle.
Qed.

Lemma ascending_lookup (I S : list Z) (i j : nat) (x y : Z) :
  ascending I S = true -> (i <= j)%nat -> S !! i = Some x -> S !! j = Some y ->
  zget I x <= zget I y.
Proof.
  revert i j x y. induction S as [|a S IH]; intros i j x y Hasc Hij Hi Hj; [done|].
  assert (Htail : ascending I S = true).
  { simpl in Hasc. destruct S; [reflexivity|]. by apply andb_true_iff in Hasc as [_ ?]. }
  assert (Hhead : forall j' y', S !! j' = Some y' -> zget I a <= zget I y').
  { clear i j Hij Hi Hj x y. intros j' y' Hj'.
    destruct S as [|b S]; [done|].
    simpl in Hasc. apply andb_true_iff in Hasc as [Hab _]. apply Z.leb_le in Hab.
    pose proof (IH 0%nat j' b y' Htail ltac:(lia) eq_refl Hj'). lia. }
  destruct i as [|i], j as [|j]; simpl in Hi, Hj; try lia.
  - injection Hi as <-. injection Hj as <-. lia.
  - injection Hi as <-. by apply (Hhead j).
  - apply (IH i j x y); [exact Htail | lia | exact Hi | exact Hj].
Qed.

Lemma ascending_pos (I S : list Z) (x y : Z) :
  ascending I S = true -> x ∈ S -> y ∈ S -> (pos S x <= pos S y)%nat ->
  zget I x <= zget I y.
Proof.
  intros Hasc Hx Hy Hle.
  apply (ascending_lookup I S (pos S x) (pos S y)); try assumption; by apply pos_lookup.
Qed.

(** ** Ancestors *)

Lemma ancestor_add (T : list Z) (a b : nat) (x : Z) :
  ancestor T (a + b) x = ancestor T a (ancestor T b x).
Proof. unfold ancestor. apply Nat.iter_add. Qed.

Lemma ancestor_fixed (T : list Z) (j : nat) (x : Z) :
  zget T x = x -> ancestor T j x = x.
Proof. intros Hx. induction j as [|j IH]; [reflexivity|]. simpl. by rewrite IH. Qed.

Section ParInv.
Context (S : list Z) (n k : nat) (par : list Z).
Hypothesis Hperm : is_perm n S = true.
Hypothesis Hpar : par_inv S n k par.

Lemma par_inv_visited x :
  x ∈ S -> (k <= pos S x)%nat ->
  zget par x ∈ S /\ (k <= pos S (zget par x) <= pos S x)%nat.
Proof.
  intros Hx Hk. destruct Hpar as [_ Hp].
  destruct (proj2 (Hp x Hx) Hk) as [-> | [Hin Hpos]]; [split; [exact Hx | lia]|].
  split; [exact Hin | lia].
Qed.

Lemma par_inv_ancestor x j :
  x ∈ S -> (k <= pos S x)%nat ->
  ancestor par j x ∈ S /\ (k <= pos S (ancestor par j x) <= pos S x)%nat.
Proof.
  intros Hx Hk. induction j as [|j [IHin IHpos]];
    [change (ancestor par 0 x) with x; split; [exact Hx | lia]|].
  change (ancestor par (Datatypes.S j) x) with (zget par (ancestor par j x)).
  destruct (par_inv_visited (ancestor par j x) IHin) as [Hin Hpos]; [lia|].
  split; [exact Hin | lia].
Qed.

(** After [j] steps a pixel has reached its root or climbed [j] positions. *)
Lemma par_inv_progress x j :
  x ∈ S -> (k <= pos S x)%nat ->
  zget par (ancestor par j x) = ancestor par j x \/
  (pos S (ancestor par j x) + j <= pos S x)%nat.
Proof.
  intros Hx Hk. induction j as [|j IH];
    [right; change (ancestor par 0 x) with x; lia|].
  change (ancestor par (Datatypes.S j) x) with (zget par (ancestor par j x)).
  destruct (par_inv_ancestor x j Hx Hk) as [Hin Hpos].
  destruct IH as [IH|IH]; [left; by rewrite !IH|].
  destruct Hpar as [_ Hp].
  destruct (proj2 (Hp _ Hin) ltac:(lia)) as [Heq | [_ Hlt]].
  - left. by rewrite !Heq.
  - right. lia.
Qed.

(** The [n]-th ancestor of a visited pixel is its root. *)
Lemma par_inv_root x :
  x ∈ S -> (k <= pos S x)%nat ->
  zget par (ancestor par n x) = ancestor par n x.
Proof.
  intros Hx Hk. destruct (is_perm_spec _ _ Hperm) as (Hlen & _ & _).
  destruct (par_inv_progress x n Hx Hk) as [Hr|Hlt]; [exact Hr|].
  pose proof (pos_lt S x Hx). lia.
Qed.

Lemma par_inv_root_of_ancestor x j :
  x ∈ S -> (k <= pos S x)%nat ->
  ancestor par n (ancestor par j x) = ancestor par n x.
Proof.
  intros Hx Hk. rewrite <- ancestor_add, Nat.add_comm, ancestor_add.
  apply ancestor_fixed. by apply par_inv_root.
Qed.
End ParInv.

(** * The effect of the updates of the sweep on its invariants *)

Section Updates.
Context (S : list Z) (n : nat).
Hypothesis Hperm : is_perm n S = true.

Lemma S_range x : x ∈ S <-> 0 <= x < Z.of_nat n.
Proof. destruct (is_perm_spec _ _ Hperm) as (_ & _ & H). apply H. Qed.

Lemma S_nodup : NoDup S.
Proof. by destruct (is_perm_spec _ _ Hperm) as (_ & ? & _). Qed.

Lemma S_length : length S = n.
Proof. by destruct (is_perm_spec _ _ Hperm) as (? & _ & _). Qed.

Lemma zget_zset_S (l : list Z) (x y v : Z) :
  length l = n -> x ∈ S -> y ∈ S ->
  zget (zset l x v) y = if decide (x = y) then v else zget l y.
Proof.
  intros Hl Hx Hy. apply S_range in Hx, Hy.
  destruct (decide (x = y)) as [->|Hne].
  - apply zget_zset_eq. lia.
  - apply zget_zset_ne; lia.
Qed.

(** Re-parenting a pixel that no chain from [x] meets leaves the ancestors
    of [x] as they are. *)
Lemma ancestor_zset_avoid (par : list Z) (p v x : Z) (j : nat) :
  length par = n -> p ∈ S ->
  (forall i, (i < j)%nat -> ancestor par i x ∈ S /\ ancestor par i x <> p) ->
  ancestor (zset par p v) j x = ancestor par j x.
Proof.
  intros Hl Hp. induction j as [|j IH]; intros Havoid; [reflexivity|].
  change (ancestor ?T (Datatypes.S j) x) with (zget T (ancestor T j x)).
  rewrite IH by (intros i Hi; apply Havoid; lia).
  destruct (Havoid j ltac:(lia)) as [Hin Hne].
  rewrite zget_zset_S by assumption. destruct (decide _); congruence.
Qed.

(** Giving a parent to a root keeps every ancestor an ancestor. *)
Lemma ancestor_zset_root (par : list Z) (r v x : Z) (j : nat) :
  length par = n -> r ∈ S -> zget par r = r ->
  (forall i, ancestor par i x ∈ S) ->
  exists j', ancestor (zset par r v) j' x = ancestor par j x.
Proof.
  intros Hl Hr Hroot Hin. induction j as [|j (j' & IH)]; [by exists 0%nat|].
  change (ancestor par (Datatypes.S j) x) with (zget par (ancestor par j x)).
  destruct (decide (ancestor par j x = r)) as [Heq|Hne].
  - exists j'. by rewrite IH, Heq, Hroot.
  - exists (Datatypes.S j').
    change (ancestor ?T (Datatypes.S j') x) with (zget T (ancestor T j' x)).
    rewrite IH, zget_zset_S; [|exact Hl|exact Hr|apply Hin].
    destruct (decide _); congruence.
Qed.

(** ** A pixel becomes a new root *)

Lemma par_inv_new_root (k : nat) (par : list Z) (p : Z) :
  par_inv S n (Datatypes.S k) par -> S !! k = Some p ->
  par_inv S n k (zset par p p).
Proof.
  intros [Hl Hp] Hk.
  assert (Hpin : p ∈ S) by (apply list_elem_of_lookup; by exists k).
  assert (Hpos : pos S p = k) by (by apply pos_of_lookup; [apply S_nodup|]).
  split; [by rewrite length_zset|].
  intros x Hx. rewrite zget_zset_S by assumption.
  destruct (decide (p = x)) as [<-|Hne].
  - split; [lia | by left].
  - assert (pos S x <> k).
    { intros Heq. apply Hne, (pos_inj S); [assumption..|lia]. }
    destruct (Hp x Hx) as [Hun Hvis]. split; [intros; apply Hun; lia|].
    intros Hkx. destruct (Hvis ltac:(lia)) as [Heq | [Hin Hlt]]; [by left|].
    right. split; [exact Hin | lia].
Qed.

Lemma zpar_inv_new_root (k : nat) (par zp : list Z) (p : Z) :
  par_inv S n (Datatypes.S k) par -> zpar_inv S n (Datatypes.S k) par zp ->
  S !! k = Some p ->
  zpar_inv S n k (zset par p p) (zset zp p p).
Proof.
  intros Hpar [Hl Hz] Hk.
  assert (Hlp : length par = n) by apply Hpar.
  assert (Hpin : p ∈ S) by (apply list_elem_of_lookup; by exists k).
  assert (Hpos : pos S p = k) by (by apply pos_of_lookup; [apply S_nodup|]).
  split; [by rewrite length_zset|].
  intros x Hx. rewrite !zget_zset_S by assumption.
  destruct (decide (p = x)) as [<-|Hne].
  - split; [lia | by left].
  - assert (pos S x <> k).
    { intros Heq. apply Hne, (pos_inj S); [assumption..|lia]. }
    destruct (Hz x Hx) as [Hun Hvis]. split; [intros; apply Hun; lia|].
    intros Hkx. destruct (Hvis ltac:(lia)) as [Heq | (H1 & H2 & H3 & j & H4)]; [by left|].
    right. repeat split; try assumption.
    exists j. rewrite ancestor_zset_avoid; [exact H4 | exact Hlp | exact Hpin |].
    intros i _.
    destruct (par_inv_ancestor S n (Datatypes.S k) par Hpar x i Hx ltac:(lia)) as [Hin Hle].
    split; [exact Hin|]. intros Heq. rewrite Heq in Hle. lia.
Qed.

(** ** Path compression *)

Lemma zpar_inv_compress (k : nat) (par zp : list Z) (x : Z) :
  par_inv S n k par -> zpar_inv S n k par zp ->
  x ∈ S -> (k <= pos S x)%nat -> zget par x <> x ->
  zpar_inv S n k par (zset zp x (ancestor par n x)).
Proof.
  intros Hpar [Hl Hz] Hx Hkx Hnr.
  destruct (par_inv_ancestor S n k par Hpar x n Hx Hkx) as [Hrin Hrpos].
  pose proof (par_inv_root S n k par Hperm Hpar x Hx Hkx) as Hroot.
  split; [by rewrite length_zset|].
  intros y Hy. rewrite zget_zset_S by assumption.
  destruct (decide (x = y)) as [<-|Hne]; [|apply Hz, Hy].
  split; [lia|]. intros _. right.
  assert (Hrx : ancestor par n x <> x) by congruence.
  repeat split; [exact Hnr | exact Hrx | | by exists n].
  assert (pos S (ancestor par n x) <> pos S x).
  { intros Heq. apply Hrx, (pos_inj S); assumption. }
  lia.
Qed.

(** ** Union: the root [r] of a component gets the parent [p] *)

Lemma par_inv_union (k : nat) (par : list Z) (r p : Z) :
  par_inv S n k par -> S !! k = Some p ->
  r ∈ S -> (k <= pos S r)%nat -> r <> p ->
  par_inv S n k (zset par r p).
Proof.
  intros [Hl Hp] Hk Hr Hkr Hne.
  assert (Hpin : p ∈ S) by (apply list_elem_of_lookup; by exists k).
  assert (Hpos : pos S p = k) by (by apply pos_of_lookup; [apply S_nodup|]).
  split; [by rewrite length_zset|].
  intros x Hx. rewrite zget_zset_S by assumption.
  destruct (decide (r = x)) as [<-|Hnx]; [|apply Hp, Hx].
  split; [lia|]. intros _. right. split; [exact Hpin|].
  assert (pos S r <> k).
  { intros Heq. apply Hne, (pos_inj S); [assumption..|lia]. }
  lia.
Qed.

Lemma zpar_inv_union (k : nat) (par zp : list Z) (r p : Z) :
  par_inv S n k par -> zpar_inv S n k par zp -> S !! k = Some p ->
  r ∈ S -> (k <= pos S r)%nat -> r <> p -> zget par r = r ->
  zpar_inv S n k (zset par r p) (zset zp r p).
Proof.
  intros Hpar [Hl Hz] Hk Hr Hkr Hne Hroot.
  assert (Hlp : length par = n) by apply Hpar.
  assert (Hpin : p ∈ S) by (apply list_elem_of_lookup; by exists k).
  assert (Hpos : pos S p = k) by (by apply pos_of_lookup; [apply S_nodup|]).
  assert (Hposr : pos S r <> k).
  { intros Heq. apply Hne, (pos_inj S); [assumption..|lia]. }
  split; [by rewrite length_zset|].
  intros x Hx. rewrite !zget_zset_S by assumption.
  destruct (decide (r = x)) as [<-|Hnx].
  - split; [lia|]. intros _. right.
    repeat split; [congruence | congruence | lia |].
    exists 1%nat. change (ancestor ?T 1 r) with (zget T r).
    rewrite zget_zset_S by assumption. by destruct (decide _).
  - destruct (Hz x Hx) as [Hun Hvis]. split; [exact Hun|].
    intros Hkx. destruct (Hvis Hkx) as [Heq | (H1 & H2 & H3 & j & H4)]; [by left|].
    right. repeat split; try assumption.
    destruct (ancestor_zset_root par r p x j Hlp Hr Hroot) as (j' & Hj').
    { intros i. by apply (par_inv_ancestor S n k par Hpar x i Hx Hkx). }
    exists j'. congruence.
Qed.

(** ** A step of [canonize] *)

Lemma par_inv_canonize_step (I par : list Z) (p : Z) :
  par_inv S n 0 par -> p ∈ S -> par_inv S n 0 (canonize_step I par p).
Proof.
  intros Hpar Hp. unfold canonize_step.
  destruct (zget I (zget par p) =? zget I (zget par (zget par p))); [|exact Hpar].
  destruct (par_inv_visited S n 0 par Hpar p Hp ltac:(lia)) as [Hq Hqpos].
  destruct (par_inv_visited S n 0 par Hpar _ Hq ltac:(lia)) as [Hqq Hqqpos].
  destruct Hpar as [Hl Hx]. split; [by rewrite length_zset|].
  intros x Hxin. rewrite zget_zset_S by assumption.
  destruct (decide (p = x)) as [<-|Hne]; [|apply Hx, Hxin].
  split; [lia|]. intros _.
  destruct (decide (zget par (zget par p) = p)) as [Heq|Hneq]; [by left|].
  right. split; [exact Hqq|].
  assert (pos S (zget par (zget par p)) <> pos S p).
  { intros Heq. apply Hneq, (pos_inj S); assumption. }
  lia.
Qed.
End Updates.

(** * The run of [_build_max_tree] *)

Lemma build_inputs_spec (n : nat) (I T0 S mask structure shape : list Z) :
  build_inputs n I T0 S mask structure shape = true ->
  length I = n /\ length T0 = n /\ length mask = n /\ prod shape = Z.of_nat n /\
  Forall (fun d => 0 < d) shape /\ is_perm n S = true /\ ascending I S = true /\
  forallb (representable int32) structure = true /\
  is_ok (offsets_to_points structure shape) = true /\
  mask_covers_border n mask structure = true.
Proof.
  unfold build_inputs. rewrite !andb_true_iff, !Nat.eqb_eq, Z.eqb_eq.
  intros (((((((((? & ?) & ?) & ?) & Hpos) & ?) & ?) & ?) & ?) & ?).
  repeat split; try assumption.
  apply list.Forall_forall. intros d Hd. rewrite forallb_forall in Hpos.
  apply Z.ltb_lt, Hpos. by apply list_elem_of_In.
Qed.

Section BuildHeap.
Context (h : heap) (parent : buf).
Hypothesis Hparent : (parent < length h)%nat.

Lemma bheap_parent par zp : contents (bheap h parent par zp) parent = par.
Proof.
  unfold bheap. apply contents_insert_eq. rewrite length_app. simpl. lia.
Qed.

Lemma bheap_zpar par zp : contents (bheap h parent par zp) (length h) = zp.
Proof.
  unfold bheap. rewrite contents_insert_ne by lia. apply contents_app_new.
Qed.

Lemma bheap_other par zp b l :
  h !! b = Some l -> b <> parent -> contents (bheap h parent par zp) b = l.
Proof.
  intros Hb Hne. unfold bheap. rewrite contents_insert_ne by done.
  rewrite contents_app_old by (by apply lookup_lt_Some in Hb).
  by apply contents_lookup.
Qed.

Lemma bheap_store_parent par zp par' :
  <[parent := par']> (bheap h parent par zp) = bheap h parent par' zp.
Proof. unfold bheap. apply list_insert_insert_eq. Qed.

Lemma bheap_store_zpar par zp zp' :
  <[length h := zp']> (bheap h parent par zp) = bheap h parent par zp'.
Proof.
  unfold bheap. rewrite list_insert_insert_ne by lia. by rewrite insert_app_new.
Qed.
End BuildHeap.

Section BuildRun.
Context (h : heap) (image parent sorted_indices : buf).
Context (I T0 S mask structure shape : list Z) (n : nat).
Context (points : list (list Z)) (fuel : nat).
Hypothesis Hcall : build_call h image parent sorted_indices I T0 S.
Hypothesis Hin : build_inputs n I T0 S mask structure shape = true.
Hypothesis Hpoints : offsets_to_points structure shape = Ok points.
Hypothesis Hfuel : (n <= fuel)%nat.

Lemma build_perm : is_perm n S = true.
Proof. by destruct (build_inputs_spec _ _ _ _ _ _ _ Hin) as (_ & _ & _ & _ & _ & ? & _). Qed.

Lemma build_parent_lt : (parent < length h)%nat.
Proof. destruct Hcall as (_ & HT & _). by apply lookup_lt_Some in HT. Qed.

Lemma build_image par zp : contents (bheap h parent par zp) image = I.
Proof.
  destruct Hcall as (HI & _ & _ & Hne & _).
  apply bheap_other; [exact HI | congruence].
Qed.

Lemma build_sorted par zp : contents (bheap h parent par zp) sorted_indices = S.
Proof.
  destruct Hcall as (_ & _ & HS & _ & Hne).
  apply bheap_other; [exact HS | congruence].
Qed.

Lemma build_row (i : nat) (o : Z) :
  structure !! i = Some o ->
  o ∈ structure /\ points !! i = Some (delta_row structure shape o) /\
  length (delta_row structure shape o) = length shape.
Proof.
  intros Ho. destruct (offsets_to_points_ok _ _ _ Hpoints) as (m & _ & _ & _ & ->).
  split; [apply list_elem_of_lookup; by exists i|]. split.
  - by rewrite list_lookup_fmap, Ho.
  - unfold delta_row. by rewrite length_zip_with, !length_unravel, Nat.min_id.
Qed.

Lemma build_mask (p : Z) : p ∈ S -> index_val mask p = Ok (zget mask p).
Proof.
  destruct (build_inputs_spec _ _ _ _ _ _ _ Hin) as (_ & _ & Lm & _).
  intros Hp. apply (S_range S n build_perm) in Hp.
  unfold index_val. rewrite py_index_in by lia. by rewrite zget_lookup by lia.
Qed.

Lemma build_valid_total (p : Z) (i : nat) :
  p ∈ S -> (i < length structure)%nat ->
  exists b, _is_valid_coordinate p (default [] (points !! i)) shape = Ok b.
Proof.
  destruct (build_inputs_spec _ _ _ _ _ _ _ Hin) as (_ & _ & _ & Hprod & _).
  intros Hp Hi. apply (S_range S n build_perm) in Hp.
  destruct (lookup_lt_is_Some_2 structure i Hi) as [o Ho].
  destruct (build_row i o Ho) as (_ & -> & Hlen). simpl.
  unfold _is_valid_coordinate, np_unravel_index.
  destruct (Z.leb_spec 0 p); [|lia]. destruct (Z.ltb_spec p (prod shape)); [|lia].
  simpl. apply valid_loop_total; [apply length_unravel | exact Hlen].
Qed.

(** A neighbour that the builder examines is a pixel. *)
Lemma build_neighbor_in (p q : Z) (i : nat) :
  p ∈ S -> (i < length structure)%nat ->
  neighbor mask structure shape points p i = Some q -> q ∈ S.
Proof.
  destruct (build_inputs_spec _ _ _ _ _ _ _ Hin)
    as (_ & _ & _ & Hprod & Hpos & _ & _ & Hrep & _ & Hmask).
  intros Hp Hi Hq. pose proof Hp as Hpr. apply (S_range S n build_perm) in Hpr.
  destruct (lookup_lt_is_Some_2 structure i Hi) as [o Ho].
  destruct (build_row i o Ho) as (Hoin & Hrow & Hlen).
  destruct (offsets_to_points_ok _ _ _ Hpoints) as (m & Hmin & Hns & Hsh & _).
  unfold neighbor in Hq. rewrite (build_mask p Hp), Ho, Hrow in Hq. simpl in Hq.
  apply (S_range S n build_perm).
  destruct (Z.eqb_spec (zget mask p) 0) as [Hm0|Hm1].
  - destruct (_is_valid_coordinate _ _ _) as [[|]|] eqn:Hv; try discriminate.
    injection Hq as <-.
    apply index_ok_spec in Hns. specialize (Hsh o Hoin). apply index_ok_spec in Hsh.
    apply valid_coordinate_in_range in Hv; [|assumption|lia|assumption|assumption].
    rewrite (shifted_no_wrap structure m o Hrep Hmin Hoin) in Hv by lia. lia.
  - injection Hq as <-.
    unfold mask_covers_border in Hmask. rewrite forallb_forall in Hmask.
    specialize (Hmask p ltac:(apply list_elem_of_In, elem_of_seqZ; lia)).
    apply orb_true_iff in Hmask as [Hz|Hall]; [apply Z.eqb_eq in Hz; done|].
    rewrite forallb_forall in Hall. apply in_range_spec, Hall. by apply list_elem_of_In.
Qed.

(** [find_root] returns the root of the pixel in the parent array and
    compresses the union-find array. *)
Lemma wp_find_root (k : nat) (par : list Z) :
  par_inv S n k par ->
  forall (f : nat) (zp : list Z) (x : Z),
    zpar_inv S n k par zp -> x ∈ S -> (k <= pos S x < f + k)%nat ->
    wp (find_root f (length h) x)
       (fun r h' => r = ancestor par n x /\
                    exists zp', h' = bheap h parent par zp' /\ zpar_inv S n k par zp')
       (bheap h parent par zp).
Proof.
  intros Hpar. pose proof build_parent_lt as Hlt. pose proof build_perm as Hperm.
  induction f as [|f IH]; intros zp x Hz Hx Hpos; [lia|].
  assert (Lz : length zp = n) by apply Hz.
  pose proof (proj1 (S_range S n Hperm x) Hx) as Hxr.
  simpl. apply wp_bind, wp_load; rewrite bheap_zpar by done; [lia|].
  destruct Hz as [_ Hzx]. pose proof (proj2 (Hzx x Hx) ltac:(lia)) as Hcase.
  destruct Hcase as [[Hzr Hpr] | (Hpr & Hzr & Hzpos & j & Hj)].
  - rewrite Hzr, Z.eqb_refl. apply wp_bind, wp_ret.
    apply wp_load; rewrite bheap_zpar by done; [lia|].
    split; [by rewrite Hzr, ancestor_fixed | exists zp; by split].
  - destruct (Z.eqb_spec (zget zp x) x) as [?|_]; [done|].
    apply wp_bind, wp_bind.
    apply wp_load; rewrite bheap_zpar by done; [lia|].
    apply wp_bind.
    destruct (par_inv_ancestor S n k par Hpar x j Hx ltac:(lia)) as [Hain Hapos].
    rewrite Hj in Hain, Hapos.
    eapply wp_mono; [apply (IH zp (zget zp x)); [by split | exact Hain | lia]|].
    intros r h1 (-> & zp1 & -> & Hz1).
    assert (Lz1 : length zp1 = n) by apply Hz1.
    rewrite <- Hj, (par_inv_root_of_ancestor S n k par Hperm Hpar x j Hx) by lia.
    apply wp_store; rewrite bheap_zpar by done; [lia|].
    rewrite bheap_store_zpar by done.
    apply wp_load; rewrite bheap_zpar by done; [rewrite length_zset; lia|].
    split; [apply zget_zset_eq; lia|].
    eexists. split; [reflexivity|].
    apply (zpar_inv_compress S n Hperm k par zp1 x Hpar Hz1 Hx); [lia | exact Hpr].
Qed.

(** The examination of one neighbour changes the parent array as
    [visit_par] does. *)
Lemma wp_visit_neighbor (k : nat) (par zp : list Z) (p : Z) (i : nat) :
  par_inv S n k par -> zpar_inv S n k par zp ->
  S !! k = Some p -> (i < length structure)%nat ->
  wp (visit_neighbor fuel mask structure shape points parent (length h) p i)
     (fun _ h' => exists zp',
        h' = bheap h parent (visit_par n mask structure shape points p par i) zp' /\
        par_inv S n k (visit_par n mask structure shape points p par i) /\
        zpar_inv S n k (visit_par n mask structure shape points p par i) zp')
     (bheap h parent par zp).
Proof.
  intros Hpar Hz Hk Hi.
  pose proof build_parent_lt as Hlt. pose proof build_perm as Hperm.
  assert (Hp : p ∈ S) by (apply list_elem_of_lookup; by exists k).
  assert (Lp : length par = n) by apply Hpar.
  assert (Hskip : forall h', h' = bheap h parent par zp ->
            visit_par n mask structure shape points p par i = par ->
            exists zp', h' = bheap h parent
                           (visit_par n mask structure shape points p par i) zp' /\
              par_inv S n k (visit_par n mask structure shape points p par i) /\
              zpar_inv S n k (visit_par n mask structure shape points p par i) zp').
  { intros h' -> ->. by exists zp. }
  pose proof (build_neighbor_in p (p + default 0 (structure !! i)) i Hp Hi) as Hnin.
  unfold visit_neighbor, visit_par, neighbor in *.
  rewrite (build_mask p Hp) in *.
  apply wp_bind. eapply wp_lift; [reflexivity|].
  set (index := p + default 0 (structure !! i)) in *.
  assert (Hcont : forall h0, h0 = bheap h parent par zp -> index ∈ S ->
    wp (bind (load parent index) (fun pidx =>
          if pidx <? 0 then ret tt
          else bind (find_root fuel (length h) index) (fun root =>
                 if root =? p then ret tt
                 else bind (store (length h) root p) (fun _ => store parent root p))))
       (fun _ h' => exists zp',
          h' = bheap h parent
                 (if zget par index <? 0 then par
                  else if ancestor par n index =? p then par
                       else zset par (ancestor par n index) p) zp' /\
          par_inv S n k
                 (if zget par index <? 0 then par
                  else if ancestor par n index =? p then par
                       else zset par (ancestor par n index) p) /\
          zpar_inv S n k
                 (if zget par index <? 0 then par
                  else if ancestor par n index =? p then par
                       else zset par (ancestor par n index) p) zp') h0).
  { intros h0 -> Hq. pose proof (proj1 (S_range S n Hperm index) Hq) as Hqr.
    apply wp_bind, wp_load; rewrite bheap_parent by done; [lia|].
    destruct (Z.ltb_spec (zget par index) 0) as [Hneg|Hpos];
      [apply wp_ret; by exists zp|].
    assert (Hkq : (k <= pos S index)%nat).
    { destruct (decide (k <= pos S index)%nat) as [?|Hn]; [done|].
      destruct Hpar as [_ Hpx]. rewrite (proj1 (Hpx index Hq)) in Hpos; lia. }
    pose proof (pos_lt S index Hq) as Hposlt. rewrite (S_length S n Hperm) in Hposlt.
    apply wp_bind.
    eapply wp_mono; [apply (wp_find_root k par Hpar fuel zp index Hz Hq); lia|].
    intros r h1 (-> & zp1 & -> & Hz1).
    destruct (par_inv_ancestor S n k par Hpar index n Hq Hkq) as [Hrin Hrpos].
    pose proof (par_inv_root S n k par Hperm Hpar index Hq Hkq) as Hroot.
    pose proof (proj1 (S_range S n Hperm _) Hrin) as Hrr.
    assert (Lz1 : length zp1 = n) by apply Hz1.
    destruct (Z.eqb_spec (ancestor par n index) p) as [Heq|Hne];
      [apply wp_ret; by exists zp1|].
    apply wp_bind, wp_store; rewrite bheap_zpar by done; [lia|].
    rewrite bheap_store_zpar by done.
    apply wp_store; rewrite bheap_parent by done; [lia|].
    rewrite bheap_store_parent by done.
    eexists. split; [reflexivity|]. split.
    - apply (par_inv_union S n Hperm k par _ p Hpar Hk Hrin); [lia | exact Hne].
    - apply (zpar_inv_union S n Hperm k par zp1 _ p Hpar Hz1 Hk Hrin);
        [lia | exact Hne | exact Hroot]. }
  destruct (Z.eqb_spec (zget mask p) 0) as [Hm0|Hm1].
  - destruct (build_valid_total p i Hp Hi) as [b Hb]. rewrite Hb in *.
    apply wp_bind. eapply wp_lift; [reflexivity|].
    destruct b; simpl in *; [|apply wp_ret; by apply Hskip].
    apply Hcont; [reflexivity | by apply Hnin].
  - apply wp_bind, wp_ret. simpl in *.
    apply Hcont; [reflexivity | by apply Hnin].
Qed.

(** One pixel of the sweep. *)
Lemma wp_pixel (k : nat) (par zp : list Z) (p : Z) :
  par_inv S n (Datatypes.S k) par -> zpar_inv S n (Datatypes.S k) par zp ->
  S !! k = Some p ->
  wp (bind (store parent p p) (fun _ =>
      bind (store (length h) p p) (fun _ =>
      for_each (seq 0 (length structure))
        (visit_neighbor fuel mask structure shape points parent (length h) p))))
     (fun _ h' => exists zp',
        h' = bheap h parent (pixel_par n mask structure shape points par p) zp' /\
        par_inv S n k (pixel_par n mask structure shape points par p) /\
        zpar_inv S n k (pixel_par n mask structure shape points par p) zp')
     (bheap h parent par zp).
Proof.
  intros Hpar Hz Hk.
  pose proof build_parent_lt as Hlt. pose proof build_perm as Hperm.
  assert (Hp : p ∈ S) by (apply list_elem_of_lookup; by exists k).
  pose proof (proj1 (S_range S n Hperm p) Hp) as Hpr.
  assert (Lp : length par = n) by apply Hpar.
  assert (Lz : length zp = n) by apply Hz.
  apply wp_bind, wp_store; rewrite bheap_parent by done; [lia|].
  rewrite bheap_store_parent by done.
  apply wp_bind, wp_store; rewrite bheap_zpar by done; [lia|].
  rewrite bheap_store_zpar by done.
  apply (wp_for_each _ _ (fun js h' => exists zp',
           h' = bheap h parent
                  (foldl (visit_par n mask structure shape points p) (zset par p p) js) zp' /\
           par_inv S n k
                  (foldl (visit_par n mask structure shape points p) (zset par p p) js) /\
           zpar_inv S n k
                  (foldl (visit_par n mask structure shape points p) (zset par p p) js) zp')).
  - exists (zset zp p p). split; [reflexivity|]. split.
    + by apply (par_inv_new_root S n Hperm).
    + by apply (zpar_inv_new_root S n Hperm).
  - intros js i rest h' Hseq (zp' & -> & Hpar' & Hz').
    rewrite foldl_snoc.
    apply wp_visit_neighbor; [exact Hpar' | exact Hz' | exact Hk |].
    assert (Hi : i ∈ seq 0 (length structure)).
    { rewrite Hseq. apply elem_of_app. right. left. }
    apply elem_of_seq in Hi. lia.
  - intros h' Hinv. exact Hinv.
Qed.

(** The sweep over the sorted indices in reverse. *)
Lemma wp_sweep :
  wp (for_in_reversed sorted_indices (fun p =>
        bind (store parent p p) (fun _ =>
        bind (store (length h) p p) (fun _ =>
        for_each (seq 0 (length structure))
          (visit_neighbor fuel mask structure shape points parent (length h) p)))))
     (fun _ h' => exists zp',
        h' = bheap h parent (sweep_par n mask structure shape points S) zp' /\
        par_inv S n 0 (sweep_par n mask structure shape points S))
     (bheap h parent (replicate n (-1)) (replicate n (-1))).
Proof.
  pose proof build_perm as Hperm.
  pose proof (S_length S n Hperm) as LS. pose proof (S_nodup S n Hperm) as Hnd.
  apply (wp_for_in_reversed _ S _ (fun done h' => exists zp',
           h' = bheap h parent
                  (foldl (pixel_par n mask structure shape points) (replicate n (-1)) done)
                  zp' /\
           par_inv S n (n - length done)
                  (foldl (pixel_par n mask structure shape points) (replicate n (-1)) done) /\
           zpar_inv S n (n - length done)
                  (foldl (pixel_par n mask structure shape points) (replicate n (-1)) done)
                  zp')).
  - apply build_sorted.
  - intros done h' (zp' & -> & _). apply build_sorted.
  - exists (replicate n (-1)). split; [reflexivity|]. simpl. rewrite Nat.sub_0_r.
    split; (split; [apply length_replicate|]); intros x Hx;
      pose proof (pos_lt S x Hx); apply (S_range S n Hperm) in Hx;
      (split; [intros _; by apply zget_replicate | lia]).
  - intros done p rest h' Hrev (zp' & -> & Hpar & Hz).
    destruct (pos_reverse_split S done rest p Hnd Hrev) as (Hp & Hpos & Hlen).
    rewrite LS in Hpos, Hlen. rewrite foldl_snoc, length_app. simpl.
    replace (n - length done)%nat with (Datatypes.S (pos S p)) in Hpar, Hz by lia.
    replace (n - (length done + 1))%nat with (pos S p) by lia.
    apply wp_pixel; [exact Hpar | exact Hz | by apply pos_lookup].
  - intros h' (zp' & -> & Hpar & _). exists zp'. split; [reflexivity|].
    rewrite length_reverse, LS, Nat.sub_diag in Hpar. exact Hpar.
Qed.

(** The initialisation of the two arrays. *)
Lemma wp_init :
  wp (for_each (seqZ 0 (Z.of_nat n)) (fun i =>
        bind (store parent i (-1)) (fun _ => store (length h) i (-1))))
     (fun _ h' => h' = bheap h parent (replicate n (-1)) (replicate n (-1)))
     (h ++ [T0]).
Proof.
  destruct (build_inputs_spec _ _ _ _ _ _ _ Hin) as (_ & LT & _).
  pose proof build_parent_lt as Hlt.
  assert (Hstart : h ++ [T0] = bheap h parent T0 T0).
  { unfold bheap. symmetry. apply list_insert_id.
    destruct Hcall as (_ & HT & _). by apply lookup_app_l_Some. }
  rewrite Hstart.
  apply (wp_for_each _ _ (fun ks h' => exists par zp,
           h' = bheap h parent par zp /\ length par = n /\ length zp = n /\
           forall x, x ∈ ks -> zget par x = -1 /\ zget zp x = -1)).
  - exists T0, T0. repeat split; try done; by apply elem_of_nil in H.
  - intros ks i rest h' Hseq (par & zp & -> & Lp & Lz & Hall).
    assert (Hi : 0 <= i < Z.of_nat n).
    { assert (Hin' : i ∈ seqZ 0 (Z.of_nat n)).
      { rewrite Hseq. apply elem_of_app. right. left. }
      apply elem_of_seqZ in Hin'. lia. }
    apply wp_bind, wp_store; rewrite bheap_parent by done; [lia|].
    rewrite bheap_store_parent by done.
    apply wp_store; rewrite bheap_zpar by done; [lia|].
    rewrite bheap_store_zpar by done.
    eexists _, _. split; [reflexivity|]. rewrite !length_zset.
    split; [exact Lp|]. split; [exact Lz|].
    intros x Hx. apply elem_of_app in Hx as [Hx|Hx].
    + destruct (Hall x Hx) as [H1 H2].
      destruct (decide (i = x)) as [->|Hne]; [by rewrite !zget_zset_eq by lia|].
      assert (0 <= x).
      { assert (Hin' : x ∈ seqZ 0 (Z.of_nat n)).
        { rewrite Hseq. apply elem_of_app. by left. }
        apply elem_of_seqZ in Hin'. lia. }
      by rewrite !zget_zset_ne by lia.
    + apply list_elem_of_singleton in Hx as ->. by rewrite !zget_zset_eq by lia.
  - intros h' (par & zp & -> & Lp & Lz & Hall).
    assert (Hrep : forall l, length l = n ->
              (forall x, x ∈ seqZ 0 (Z.of_nat n) -> zget l x = -1) -> l = replicate n (-1)).
    { intros l Ll Hl. apply list_eq_zget; [by rewrite length_replicate|].
      intros x Hx. rewrite zget_replicate by lia. apply Hl, elem_of_seqZ. lia. }
    rewrite (Hrep par Lp), (Hrep zp Lz); [reflexivity|intros x Hx; by apply Hall..].
Qed.

(** [canonize] changes the parent array as [canonize_par] does. *)
Lemma wp_canonize (par zp : list Z) :
  par_inv S n 0 par ->
  wp (canonize image parent sorted_indices)
     (fun _ h' => h' = bheap h parent (canonize_par I S par) zp)
     (bheap h parent par zp).
Proof.
  intros Hpar. pose proof build_perm as Hperm. pose proof build_parent_lt as Hlt.
  destruct (build_inputs_spec _ _ _ _ _ _ _ Hin) as (LI & _).
  unfold canonize.
  apply (wp_for_in _ S _ (fun done h' =>
           h' = bheap h parent (foldl (canonize_step I) par done) zp /\
           par_inv S n 0 (foldl (canonize_step I) par done))).
  - apply build_sorted.
  - intros done h' [-> _]. apply build_sorted.
  - by split.
  - intros done p rest h' HS [-> Hpar'].
    assert (Hp : p ∈ S) by (rewrite HS; apply elem_of_app; right; left).
    set (cur := foldl (canonize_step I) par done) in *.
    assert (Lc : length cur = n) by apply Hpar'.
    destruct (par_inv_visited S n 0 cur Hpar' p Hp ltac:(lia)) as [Hq _].
    destruct (par_inv_visited S n 0 cur Hpar' _ Hq ltac:(lia)) as [Hqq _].
    pose proof (proj1 (S_range S n Hperm _) Hp).
    pose proof (proj1 (S_range S n Hperm _) Hq).
    pose proof (proj1 (S_range S n Hperm _) Hqq).
    rewrite foldl_snoc. fold cur.
    assert (Hstep : par_inv S n 0 (canonize_step I cur p))
      by (by apply (par_inv_canonize_step S n Hperm)).
    unfold canonize_step in *.
    apply wp_bind, wp_load; rewrite bheap_parent by done; [lia|].
    apply wp_bind, wp_load; rewrite build_image; [lia|].
    apply wp_bind, wp_load; rewrite bheap_parent by done; [lia|].
    apply wp_bind, wp_load; rewrite build_image; [lia|].
    destruct (zget I (zget cur p) =? zget I (zget cur (zget cur p))).
    + apply wp_bind, wp_load; rewrite bheap_parent by done; [lia|].
      apply wp_store; rewrite bheap_parent by done; [lia|].
      rewrite bheap_store_parent by done. by split.
    + apply wp_ret. by split.
  - intros h' [-> _]. reflexivity.
Qed.

(** The whole run: [_build_max_tree] returns normally, the parent buffer
    holds [build_par] and the heap has one more buffer, the union-find
    array. *)
Lemma build_run (strides : list Z) :
  exists zp,
    _build_max_tree fuel (Some strides) image mask structure shape parent
      sorted_indices h
    = (Ok tt, bheap h parent (build_par n I mask structure shape points S) zp) /\
    par_inv S n 0 (sweep_par n mask structure shape points S).
Proof.
  destruct (build_inputs_spec _ _ _ _ _ _ _ Hin) as (LI & LT & _).
  pose proof build_parent_lt as Hlt.
  cut (wp (_build_max_tree fuel (Some strides) image mask structure shape parent
             sorted_indices)
          (fun _ h' => exists zp,
             h' = bheap h parent (build_par n I mask structure shape points S) zp /\
             par_inv S n 0 (sweep_par n mask structure shape points S)) h).
  { intros Hwp. apply wp_run in Hwp. destruct Hwp as ([] & h' & -> & zp & -> & Hp).
    by exists zp. }
  unfold _build_max_tree.
  apply wp_bind, wp_len.
  destruct Hcall as (HI & HT & HS & N1 & N2).
  rewrite (contents_lookup _ _ _ HI), LI.
  apply wp_bind, wp_ret.
  apply wp_bind, wp_copy. rewrite (contents_lookup _ _ _ HT).
  apply wp_bind. eapply wp_lift; [exact Hpoints|].
  apply wp_bind. eapply wp_mono; [apply wp_init|]. intros [] h1 ->.
  apply wp_bind. eapply wp_mono; [apply wp_sweep|].
  intros [] h2 (zp & -> & Hpar).
  eapply wp_mono; [apply (wp_canonize _ zp Hpar)|].
  intros [] h3 ->. exists zp. by split.
Qed.
End BuildRun.

(** * Properties of the parent array that the builder writes *)

Section Canonize.
Context (I S : list Z) (n : nat).
Hypothesis Hperm : is_perm n S = true.
Hypothesis Hasc : ascending I S = true.

(** Intensity does not increase from a pixel to its parent. *)
Lemma par_inv_mono (par : list Z) (x : Z) :
  par_inv S n 0 par -> x ∈ S -> zget I (zget par x) <= zget I x.
Proof.
  intros Hpar Hx.
  destruct (par_inv_visited S n 0 par Hpar x Hx ltac:(lia)) as [Hq Hpos].
  apply (ascending_pos I S); [exact Hasc | exact Hq | exact Hx | lia].
Qed.

Lemma canonical_at_zset (T : list Z) (c p v : Z) :
  length T = n -> c ∈ S -> p ∈ S -> c <> p ->
  canonical_at I T c -> canonical_at I (zset T p v) c.
Proof.
  intros Hl Hc Hp Hne Hcan. unfold canonical_at in *.
  rewrite (zget_zset_S S n Hperm) by assumption.
  destruct (decide (p = c)); [congruence | exact Hcan].
Qed.

(** After [canonize] the parent of every pixel is canonical, and parents
    still come before their children. *)
Lemma canonize_par_canonical (par : list Z) :
  par_inv S n 0 par ->
  par_inv S n 0 (canonize_par I S par) /\
  forall x, x ∈ S -> canonical_at I (canonize_par I S par) (zget (canonize_par I S par) x).
Proof.
  intros Hpar. unfold canonize_par.
  pose proof (S_nodup S n Hperm) as Hnd.
  assert (Hinv : forall done rest, S = done ++ rest ->
            par_inv S n 0 (foldl (canonize_step I) par done) /\
            (forall x, x ∈ done ->
               canonical_at I (foldl (canonize_step I) par done)
                 (zget (foldl (canonize_step I) par done) x))).
  { induction done as [|p done IH] using rev_ind; intros rest HS.
    - split; [exact Hpar|]. intros x Hx. by apply elem_of_nil in Hx.
    - rewrite <- app_assoc in HS. simpl in HS.
      destruct (IH _ HS) as [Hcur Hcan]. rewrite foldl_snoc.
      set (cur := foldl (canonize_step I) par done) in *.
      destruct (pos_split S done rest p Hnd HS) as [Hp Hpos].
      assert (Hstep : par_inv S n 0 (canonize_step I cur p))
        by (by apply (par_inv_canonize_step S n Hperm)).
      split; [exact Hstep|].
      assert (Lc : length cur = n) by apply Hcur.
      assert (Hbefore : forall x, x ∈ S -> (pos S x < pos S p)%nat -> x ∈ done).
      { intros x Hx Hlt.
        assert (Hl : (done ++ p :: rest) !! pos S x = Some x)
          by (rewrite <- HS; by apply pos_lookup).
        rewrite lookup_app_l in Hl by lia.
        apply list_elem_of_lookup. by exists (pos S x). }
      assert (Hdone : forall x, x ∈ done -> x ∈ S /\ (pos S x < pos S p)%nat).
      { intros x Hx. apply list_elem_of_lookup in Hx as [i Hi].
        pose proof (lookup_lt_Some _ _ _ Hi) as Hlt.
        assert (Hl : S !! i = Some x) by (rewrite HS; by apply lookup_app_l_Some).
        split; [apply list_elem_of_lookup; by exists i|].
        rewrite (pos_of_lookup S i x Hnd Hl). lia. }
      destruct (par_inv_visited S n 0 cur Hcur p Hp ltac:(lia)) as [Hq Hqpos].
      destruct (par_inv_visited S n 0 cur Hcur _ Hq ltac:(lia)) as [Hqq Hqqpos].
      (* the entries of the pixels before [p] are not touched *)
      assert (Hkeep : forall x, x ∈ S -> x <> p ->
                zget (canonize_step I cur p) x = zget cur x).
      { intros x Hx Hne. unfold canonize_step.
        destruct (_ =? _); [|reflexivity].
        rewrite (zget_zset_S S n Hperm) by assumption.
        destruct (decide (p = x)); congruence. }
      assert (Hcan' : forall c, c ∈ S -> c <> p ->
                canonical_at I cur c -> canonical_at I (canonize_step I cur p) c).
      { intros c Hc Hne Hcc. unfold canonical_at in *. by rewrite Hkeep. }
      intros x Hx. apply elem_of_app in Hx as [Hx|Hx].
      + destruct (Hdone x Hx) as [HxS Hxpos].
        assert (x <> p) by (intros ->; lia).
        rewrite Hkeep by assumption.
        destruct (par_inv_visited S n 0 cur Hcur x HxS ltac:(lia)) as [Hc Hcpos].
        apply Hcan'; [exact Hc | intros Heq; rewrite Heq in Hcpos; lia | by apply Hcan].
      + apply list_elem_of_singleton in Hx as ->.
        destruct (decide (zget cur p = p)) as [Hroot|Hnr].
        * (* [p] is a root and stays one *)
          assert (Hp' : zget (canonize_step I cur p) p = p).
          { unfold canonize_step. rewrite Hroot, Hroot, Z.eqb_refl.
            rewrite (zget_zset_S S n Hperm) by assumption. by destruct (decide _). }
          rewrite Hp'. left. exact Hp'.
        * assert (Hqlt : (pos S (zget cur p) < pos S p)%nat).
          { assert (pos S (zget cur p) <> pos S p)
              by (intros Heq; apply Hnr, (pos_inj S); assumption).
            lia. }
          assert (Hqd : zget cur p ∈ done) by (by apply Hbefore).
          pose proof (Hcan _ Hqd) as Hcq.
          pose proof (par_inv_mono cur (zget cur p) Hcur Hq) as Hmono.
          unfold canonize_step at 2.
          destruct (Z.eqb_spec (zget I (zget cur p)) (zget I (zget cur (zget cur p))))
            as [Heq|Hneq].
          -- rewrite (zget_zset_S S n Hperm) by assumption.
             destruct (decide (p = p)); [|done].
             apply Hcan'; [exact Hqq | intros E; rewrite E in Hqqpos; lia | exact Hcq].
          -- apply Hcan'; [exact Hq | exact Hnr|].
             right. lia. }
  destruct (Hinv S [] (eq_sym (app_nil_r S))) as [H1 H2]. by split.
Qed.
End Canonize.

(** * The sweep, followed on the parent array alone *)

Section Sweep.
Context (I T0 S mask structure shape : list Z) (n : nat) (points : list (list Z)).
Hypothesis Hin : build_inputs n I T0 S mask structure shape = true.
Hypothesis Hpoints : offsets_to_points structure shape = Ok points.

Lemma sweep_perm : is_perm n S = true.
Proof. exact (build_perm _ _ _ _ _ _ _ Hin). Qed.

Lemma sweep_neighbor_in (p q : Z) (i : nat) :
  p ∈ S -> (i < length structure)%nat ->
  neighbor mask structure shape points p i = Some q -> q ∈ S.
Proof.
  exact (build_neighbor_in I T0 S mask structure shape n points n Hin Hpoints
           (le_n n) p q i).
Qed.

(** The pixel at the lowest visited position is a root. *)
Lemma par_inv_lowest_root (k : nat) (par : list Z) (p : Z) :
  par_inv S n k par -> S !! k = Some p -> zget par p = p.
Proof.
  intros [_ Hp] Hk.
  assert (Hpin : p ∈ S) by (apply list_elem_of_lookup; by exists k).
  assert (Hpos : pos S p = k)
    by (apply pos_of_lookup; [apply (S_nodup S n sweep_perm) | exact Hk]).
  destruct (proj2 (Hp p Hpin) ltac:(lia)) as [Heq | [_ Hlt]]; [exact Heq | lia].
Qed.

(** What the examination of a neighbour does to the parent array: nothing,
    and then a visited neighbour already has the root [p]; or the root of
    the neighbour gets the parent [p]. *)
Lemma visit_par_cases (k : nat) (par : list Z) (p : Z) (i : nat) :
  par_inv S n k par -> S !! k = Some p -> (i < length structure)%nat ->
  (visit_par n mask structure shape points p par i = par /\
   forall q, neighbor mask structure shape points p i = Some q ->
             (k <= pos S q)%nat -> ancestor par n q = p) \/
  (exists q r,
     neighbor mask structure shape points p i = Some q /\ q ∈ S /\
     (k <= pos S q)%nat /\ r = ancestor par n q /\ r <> p /\ r ∈ S /\
     (k < pos S r)%nat /\ zget par r = r /\
     visit_par n mask structure shape points p par i = zset par r p).
Proof.
  intros Hpar Hk Hi. pose proof sweep_perm as Hperm.
  assert (Hpin : p ∈ S) by (apply list_elem_of_lookup; by exists k).
  assert (Hpos : pos S p = k)
    by (apply pos_of_lookup; [apply (S_nodup S n Hperm) | exact Hk]).
  unfold visit_par.
  destruct (neighbor mask structure shape points p i) as [q|] eqn:Hq;
    [|left; split; [reflexivity | discriminate]].
  pose proof (sweep_neighbor_in p q i Hpin Hi Hq) as Hqin.
  destruct (Z.ltb_spec (zget par q) 0) as [Hneg|Hnn].
  { left. split; [reflexivity|]. intros q' [= <-] Hkq.
    destruct (par_inv_visited S n k par Hpar q Hqin Hkq) as [Hin' _].
    apply (S_range S n Hperm) in Hin'. lia. }
  assert (Hkq : (k <= pos S q)%nat).
  { destruct (decide (k <= pos S q)%nat) as [?|Hn]; [done|].
    destruct Hpar as [_ Hpx]. rewrite (proj1 (Hpx q Hqin)) in Hnn; lia. }
  destruct (Z.eqb_spec (ancestor par n q) p) as [Heq|Hne].
  { left. split; [reflexivity|]. by intros q' [= <-] _. }
  right. exists q, (ancestor par n q).
  destruct (par_inv_ancestor S n k par Hpar q n Hqin Hkq) as [Hrin Hrpos].
  repeat split; try done.
  - assert (pos S (ancestor par n q) <> k).
    { intros Heq. apply Hne, (pos_inj S); [assumption..|lia]. }
    lia.
  - by apply (par_inv_root S n k par Hperm Hpar).
Qed.

Lemma par_inv_visit (k : nat) (par : list Z) (p : Z) (i : nat) :
  par_inv S n k par -> S !! k = Some p -> (i < length structure)%nat ->
  par_inv S n k (visit_par n mask structure shape points p par i).
Proof.
  intros Hpar Hk Hi.
  destruct (visit_par_cases k par p i Hpar Hk Hi)
    as [[-> _] | (q & r & _ & _ & _ & _ & Hne & Hrin & Hrpos & _ & ->)]; [exact Hpar|].
  apply (par_inv_union S n sweep_perm k par r p Hpar Hk Hrin); [lia | exact Hne].
Qed.

(** Induction over the states of the sweep: [P k] after the pixels at the
    positions [k] and above, [Q k p i] after [i] neighbours of the pixel
    [p] at the position [k]. *)
Lemma sweep_par_ind (P : nat -> list Z -> Prop) (Q : nat -> Z -> nat -> list Z -> Prop) :
  P n (replicate n (-1)) ->
  (forall k par p, S !! k = Some p -> par_inv S n (Datatypes.S k) par ->
     P (Datatypes.S k) par -> Q k p 0%nat (zset par p p)) ->
  (forall k par p i, S !! k = Some p -> par_inv S n k par ->
     (i < length structure)%nat -> Q k p i par ->
     Q k p (Datatypes.S i) (visit_par n mask structure shape points p par i)) ->
  (forall k par p, S !! k = Some p -> par_inv S n k par ->
     Q k p (length structure) par -> P k par) ->
  forall k, (k <= n)%nat ->
    P k (foldl (pixel_par n mask structure shape points) (replicate n (-1))
           (take (n - k) (reverse S))) /\
    par_inv S n k (foldl (pixel_par n mask structure shape points) (replicate n (-1))
           (take (n - k) (reverse S))).
Proof.
  intros Hinit Hnew Hvisit Hdone. pose proof sweep_perm as Hperm.
  pose proof (S_length S n Hperm) as LS.
  assert (Hbase : par_inv S n n (replicate n (-1))).
  { split; [apply length_replicate|]. intros x Hx. pose proof (pos_lt S x Hx).
    apply (S_range S n Hperm) in Hx. split; [intros _; by apply zget_replicate | lia]. }
  assert (Hgen : forall d, (d <= n)%nat ->
            P (n - d)%nat (foldl (pixel_par n mask structure shape points)
                             (replicate n (-1)) (take d (reverse S))) /\
            par_inv S n (n - d) (foldl (pixel_par n mask structure shape points)
                             (replicate n (-1)) (take d (reverse S)))).
  { induction d as [|d IH]; intros Hd.
    - rewrite take_0, Nat.sub_0_r. by split.
    - destruct IH as [IHP IHpar]; [lia|].
      assert (Hlk : exists p, reverse S !! d = Some p).
      { apply lookup_lt_is_Some_2. rewrite length_reverse. lia. }
      destruct Hlk as [p Hp]. rewrite (take_S_r _ _ _ Hp), foldl_snoc.
      set (par := foldl _ _ (take d (reverse S))) in *.
      assert (Hk : S !! (n - Datatypes.S d)%nat = Some p).
      { rewrite reverse_lookup in Hp by lia. rewrite <- Hp. f_equal. lia. }
      replace (n - d)%nat with (Datatypes.S (n - Datatypes.S d)) in IHP, IHpar by lia.
      set (k := (n - Datatypes.S d)%nat) in *.
      unfold pixel_par.
      assert (Hloop : forall j, (j <= length structure)%nat ->
                Q k p j (foldl (visit_par n mask structure shape points p)
                           (zset par p p) (seq 0 j)) /\
                par_inv S n k (foldl (visit_par n mask structure shape points p)
                           (zset par p p) (seq 0 j))).
      { induction j as [|j IHj]; intros Hj.
        - simpl. split; [by apply Hnew | by apply (par_inv_new_root S n Hperm)].
        - destruct IHj as [IHQ IHp]; [lia|].
          rewrite seq_S, foldl_snoc. simpl. split.
          + apply Hvisit; [exact Hk | exact IHp | lia | exact IHQ].
          + apply par_inv_visit; [exact IHp | exact Hk | lia]. }
      destruct (Hloop (length structure) (le_n _)) as [HQ Hpar'].
      split; [by apply (Hdone k _ p) | exact Hpar']. }
  intros k Hk. destruct (Hgen (n - k)%nat ltac:(lia)) as [H1 H2].
  replace (n - (n - k))%nat with k in H1, H2 by lia. by split.
Qed.

Lemma sweep_par_take_all :
  foldl (pixel_par n mask structure shape points) (replicate n (-1))
    (take (n - 0) (reverse S))
  = sweep_par n mask structure shape points S.
Proof.
  unfold sweep_par. rewrite Nat.sub_0_r, firstn_all2; [reflexivity|].
  rewrite length_reverse, (S_length S n sweep_perm). lia.
Qed.
End Sweep.

(** * The parent array and the connected components *)

Section Components.
Context (I T0 S mask structure shape : list Z) (n : nat) (points : list (list Z)).
Hypothesis Hin : build_inputs n I T0 S mask structure shape = true.
Hypothesis Hpoints : offsets_to_points structure shape = Ok points.

Local Abbreviation adj := (examined_adj n mask structure shape points).
Local Abbreviation conn := (connected_from n S mask structure shape points).
Local Abbreviation edge := (examinedb mask structure shape points).
Local Abbreviation sound_at := (sweep_sound_at n S mask structure shape points).

Lemma comp_perm : is_perm n S = true.
Proof. exact (build_perm _ _ _ _ _ _ _ Hin). Qed.

Lemma examined_adj_sym x y : adj x y = true -> adj y x = true.
Proof.
  unfold examined_adj. rewrite !andb_true_iff, !orb_true_iff. tauto.
Qed.

Lemma conn_sym k x y : conn k x y -> conn k y x.
Proof.
  induction 1 as [x|x y z (Hadj & Hx & Hy) _ IH]; [apply rtc_refl|].
  eapply rtc_r; [exact IH|]. repeat split; try assumption. by apply examined_adj_sym.
Qed.

Lemma conn_weaken k k' x y : (k' <= k)%nat -> conn k x y -> conn k' x y.
Proof.
  intros Hk. apply rtc_subrel. intros a b (Hadj & Ha & Hb). repeat split; [done|lia..].
Qed.

Lemma examinedb_of_neighbor x y i :
  (i < length structure)%nat ->
  neighbor mask structure shape points x i = Some y -> edge x y = true.
Proof.
  intros Hi Hn. unfold examinedb. apply existsb_exists. exists i.
  split; [apply in_seq; lia|]. rewrite Hn. apply Z.eqb_refl.
Qed.

Lemma examinedb_neighbor x y :
  edge x y = true ->
  exists i, (i < length structure)%nat /\
    neighbor mask structure shape points x i = Some y.
Proof.
  unfold examinedb. rewrite existsb_exists. intros (i & Hi & Hm).
  apply in_seq in Hi. exists i. split; [lia|].
  destruct (neighbor _ _ _ _ x i) as [q|]; [|discriminate].
  apply Z.eqb_eq in Hm. by subst.
Qed.

Lemma conn_edge k x y :
  x ∈ S -> y ∈ S -> (k <= pos S x)%nat -> (k <= pos S y)%nat ->
  edge x y = true -> conn k x y.
Proof.
  intros Hx Hy Hkx Hky He. apply rtc_once. repeat split; try assumption.
  unfold examined_adj. apply (S_range S n comp_perm) in Hx, Hy.
  rewrite (proj2 (in_range_spec n x) Hx), (proj2 (in_range_spec n y) Hy), He.
  reflexivity.
Qed.

Lemma sound_chain (k : nat) (par : list Z) (x : Z) (j : nat) :
  par_inv S n k par -> sound_at k par -> x ∈ S -> (k <= pos S x)%nat ->
  conn k x (ancestor par j x).
Proof.
  intros Hpar Hsound Hx Hkx. induction j as [|j IH]; [apply rtc_refl|].
  change (ancestor par (Datatypes.S j) x) with (zget par (ancestor par j x)).
  destruct (par_inv_ancestor S n k par Hpar x j Hx Hkx) as [Hin' Hpos'].
  destruct (decide (zget par (ancestor par j x) = ancestor par j x)) as [->|Hne];
    [exact IH|].
  eapply rtc_trans; [exact IH|].
  destruct (par_inv_visited S n k par Hpar _ Hin' ltac:(lia)) as [_ Hq].
  eapply conn_weaken; [|apply Hsound; [exact Hin' | lia | exact Hne]]. lia.
Qed.

Lemma sweep_sound :
  sound_at 0 (sweep_par n mask structure shape points S) /\
  par_inv S n 0 (sweep_par n mask structure shape points S).
Proof.
  pose proof comp_perm as Hperm.
  rewrite <- (sweep_par_take_all I T0 S mask structure shape n points Hin).
  apply (sweep_par_ind I T0 S mask structure shape n points Hin Hpoints
           sound_at (fun k _ _ par => sound_at k par)); [| | | |lia].
  - intros x Hx Hk. pose proof (pos_lt S x Hx). rewrite (S_length S n Hperm) in *. lia.
  - intros k par p Hk Hpar Hs x Hx Hkx Hne.
    assert (Hpin : p ∈ S) by (apply list_elem_of_lookup; by exists k).
    assert (Lp : length par = n) by apply Hpar.
    rewrite (zget_zset_S S n Hperm) in * by assumption.
    destruct (decide (p = x)) as [->|Hpx]; [done|].
    assert (pos S x <> k).
    { intros Heq. apply Hpx, (pos_inj S); [assumption..|].
      rewrite (pos_of_lookup S k p (S_nodup S n Hperm) Hk). lia. }
    apply Hs; [exact Hx | lia | exact Hne].
  - intros k par p i Hk Hpar Hi Hs.
    destruct (visit_par_cases I T0 S mask structure shape n points Hin Hpoints
                k par p i Hpar Hk Hi)
      as [[-> _] | (q & r & Hq & Hqin & Hkq & Hr & Hne & Hrin & Hrpos & Hroot & ->)];
      [exact Hs|].
    assert (Hpin : p ∈ S) by (apply list_elem_of_lookup; by exists k).
    assert (Hpos : pos S p = k)
      by (apply pos_of_lookup; [apply (S_nodup S n Hperm) | exact Hk]).
    assert (Lp : length par = n) by apply Hpar.
    intros x Hx Hkx Hnx. rewrite (zget_zset_S S n Hperm) in * by assumption.
    destruct (decide (r = x)) as [<-|Hrx]; [|by apply Hs].
    rewrite Hpos. apply conn_sym. eapply rtc_trans.
    + apply (conn_edge k p q); try assumption; [lia|].
      by apply (examinedb_of_neighbor p q i).
    + rewrite Hr. by apply sound_chain.
  - intros k par p _ _ Hs. exact Hs.
Qed.

Local Abbreviation comp := (examined_component n I mask structure shape points).

Lemma comp_asc : ascending I S = true.
Proof. by destruct (build_inputs_spec _ _ _ _ _ _ _ Hin) as (_&_&_&_&_&_&?&_). Qed.

Lemma examined_adj_in x y : adj x y = true -> x ∈ S /\ y ∈ S.
Proof.
  unfold examined_adj. rewrite !andb_true_iff. intros [[Hx Hy] _].
  split; apply (S_range S n comp_perm), in_range_spec; assumption.
Qed.

(** A path of visited pixels is a path in an upper level set. *)
Lemma conn_component (c x y : Z) :
  c ∈ S -> conn (pos S c) x y -> comp (zget I c) x y.
Proof.
  intros Hc. apply rtc_subrel. intros a b (Hadj & Ha & Hb).
  destruct (examined_adj_in a b Hadj) as [Hain Hbin].
  repeat split; [exact Hadj|..]; by apply (ascending_pos I S c _ comp_asc).
Qed.

Lemma comp_weaken (h h' : Z) (x y : Z) : h' <= h -> comp h x y -> comp h' x y.
Proof.
  intros Hh. apply rtc_subrel. intros a b (Hadj & Ha & Hb). repeat split; [done|lia..].
Qed.

(** Every pixel is joined to its parent in the upper level set of the
    parent's intensity; [canonize] keeps this. *)
Lemma canonize_sound (par : list Z) :
  par_inv S n 0 par -> sound_at 0 par ->
  forall x, x ∈ S ->
    comp (zget I (zget (canonize_par I S par) x)) x (zget (canonize_par I S par) x).
Proof.
  intros Hpar Hsound. pose proof comp_perm as Hperm.
  assert (Hstart : forall x, x ∈ S -> comp (zget I (zget par x)) x (zget par x)).
  { intros x Hx. destruct (decide (zget par x = x)) as [->|Hne]; [apply rtc_refl|].
    destruct (par_inv_visited S n 0 par Hpar x Hx ltac:(lia)) as [Hq _].
    apply conn_component; [exact Hq|]. apply Hsound; [exact Hx | lia | exact Hne]. }
  unfold canonize_par.
  assert (Hgen : forall ps, (forall p, p ∈ ps -> p ∈ S) ->
            par_inv S n 0 (foldl (canonize_step I) par ps) /\
            forall x, x ∈ S ->
              comp (zget I (zget (foldl (canonize_step I) par ps) x)) x
                   (zget (foldl (canonize_step I) par ps) x)).
  { induction ps as [|p ps IH] using rev_ind; intros Hps; [by split|].
    destruct IH as [Hcur Hcomp]; [intros q Hq; apply Hps, elem_of_app; by left|].
    assert (Hp : p ∈ S) by (apply Hps, elem_of_app; right; left).
    rewrite foldl_snoc. set (cur := foldl (canonize_step I) par ps) in *.
    split; [by apply (par_inv_canonize_step S n Hperm)|].
    assert (Lc : length cur = n) by apply Hcur.
    intros x Hx. unfold canonize_step.
    destruct (Z.eqb_spec (zget I (zget cur p)) (zget I (zget cur (zget cur p))))
      as [Heq|Hneq]; [|by apply Hcomp].
    rewrite (zget_zset_S S n Hperm) by assumption.
    destruct (decide (p = x)) as [<-|Hne]; [|by apply Hcomp].
    destruct (par_inv_visited S n 0 cur Hcur p Hp ltac:(lia)) as [Hq _].
    eapply rtc_trans; [|apply Hcomp, Hq].
    rewrite <- Heq. by apply Hcomp. }
  intros x Hx. by apply Hgen.
Qed.
End Components.

(** * Completeness of the sweep *)

Section LevelRoots.
Context (S : list Z) (n : nat).
Hypothesis Hperm : is_perm n S = true.

Lemma lstep_closed (m : nat) (par : list Z) (z : Z) :
  z ∈ S -> (m <= pos S z)%nat ->
  lstep S n m par z ∈ S /\ (m <= pos S (lstep S n m par z))%nat.
Proof.
  intros Hz Hm. unfold lstep.
  destruct ((m <=? pos S (zget par z))%nat && in_range n (zget par z)) eqn:E;
    [|by split].
  apply andb_true_iff in E as [E1 E2]. apply Nat.leb_le in E1.
  apply in_range_spec in E2. split; [by apply (S_range S n Hperm) | exact E1].
Qed.

Lemma lroot_iter_closed (m : nat) (par : list Z) (z : Z) (j : nat) :
  z ∈ S -> (m <= pos S z)%nat ->
  Nat.iter j (lstep S n m par) z ∈ S /\
  (m <= pos S (Nat.iter j (lstep S n m par) z))%nat.
Proof.
  intros Hz Hm. induction j as [|j [IH1 IH2]]; [by split|].
  simpl. by apply lstep_closed.
Qed.

Lemma lroot_ext (m : nat) (par par' : list Z) (z : Z) :
  (forall w, w ∈ S -> (m <= pos S w)%nat -> lstep S n m par' w = lstep S n m par w) ->
  z ∈ S -> (m <= pos S z)%nat ->
  lroot S n m par' z = lroot S n m par z.
Proof.
  intros Hext Hz Hm. unfold lroot.
  assert (H : forall j, Nat.iter j (lstep S n m par') z = Nat.iter j (lstep S n m par) z).
  { induction j as [|j IH]; [reflexivity|]. simpl. rewrite IH.
    destruct (lroot_iter_closed m par z j Hz Hm) as [H1 H2]. by apply Hext. }
  apply H.
Qed.

(** When all the visited pixels count, the level root is the root. *)
Lemma lroot_visited (k : nat) (par : list Z) (z : Z) :
  par_inv S n k par -> z ∈ S -> (k <= pos S z)%nat ->
  lroot S n k par z = ancestor par n z.
Proof.
  intros Hpar Hz Hk. unfold lroot.
  assert (H : forall j, Nat.iter j (lstep S n k par) z = ancestor par j z).
  { induction j as [|j IH]; [reflexivity|].
    change (ancestor par (Datatypes.S j) z) with (zget par (ancestor par j z)).
    simpl. rewrite IH.
    destruct (par_inv_ancestor S n k par Hpar z j Hz Hk) as [Hin' Hpos'].
    destruct (par_inv_visited S n k par Hpar _ Hin' ltac:(lia)) as [Hq Hqpos].
    unfold lstep.
    assert (E1 : (k <=? pos S (zget par (ancestor par j z)))%nat = true)
      by (apply Nat.leb_le; lia).
    assert (E2 : in_range n (zget par (ancestor par j z)) = true)
      by (by apply in_range_spec, (S_range S n Hperm)).
    by rewrite E1, E2. }
  apply H.
Qed.

(** The ancestor after [n - 1] steps is already the root. *)
Lemma par_inv_root_early (k : nat) (par : list Z) (z : Z) :
  par_inv S n k par -> z ∈ S -> (k <= pos S z)%nat ->
  zget par (ancestor par (n - 1) z) = ancestor par (n - 1) z.
Proof.
  intros Hpar Hz Hk.
  pose proof (pos_lt S z Hz) as Hlt. rewrite (S_length S n Hperm) in Hlt.
  destruct (par_inv_progress S n k par Hpar z (n - 1) Hz Hk) as [Hr|Hp]; [exact Hr|].
  destruct (par_inv_ancestor S n k par Hpar z (n - 1) Hz Hk) as [Hin' Hpos'].
  destruct Hpar as [_ Hx].
  destruct (proj2 (Hx _ Hin') ltac:(lia)) as [Heq | [_ Hbad]]; [exact Heq | lia].
Qed.

(** The roots after a union. *)
Lemma ancestor_union (k : nat) (par : list Z) (r p z : Z) :
  par_inv S n k par -> r ∈ S -> p ∈ S -> r <> p ->
  zget par r = r -> zget par p = p -> z ∈ S -> (k <= pos S z)%nat ->
  ancestor (zset par r p) n z
  = if decide (ancestor par n z = r) then p else ancestor par n z.
Proof.
  intros Hpar Hr Hp Hne Hrr Hpp Hz Hk.
  assert (Lp : length par = n) by apply Hpar.
  assert (Hn : n = Datatypes.S (n - 1)).
  { pose proof (pos_lt S z Hz). rewrite (S_length S n Hperm) in *. lia. }
  assert (Hp' : zget (zset par r p) p = p).
  { rewrite (zget_zset_S S n Hperm) by assumption. destruct (decide _); congruence. }
  assert (HA : forall j,
            ancestor (zset par r p) j z = ancestor par j z \/
            (ancestor (zset par r p) j z = p /\ ancestor par j z = r)).
  { induction j as [|j IH]; [by left|].
    change (ancestor ?T (Datatypes.S j) z) with (zget T (ancestor T j z)).
    destruct (par_inv_ancestor S n k par Hpar z j Hz Hk) as [Hin' _].
    destruct IH as [IH | [IH1 IH2]].
    - rewrite IH, (zget_zset_S S n Hperm) by assumption.
      destruct (decide (r = ancestor par j z)) as [<-|Hnr]; [right; by split | by left].
    - right. rewrite IH1, IH2. by split. }
  pose proof (par_inv_root_early k par z Hpar Hz Hk) as Hearly.
  assert (Hroot : ancestor par n z = ancestor par (n - 1) z).
  { rewrite Hn at 1.
    change (ancestor par (Datatypes.S (n - 1)) z) with (zget par (ancestor par (n - 1) z)).
    exact Hearly. }
  rewrite Hroot. rewrite Hn at 1.
  change (ancestor ?T (Datatypes.S (n - 1)) z) with (zget T (ancestor T (n - 1) z)).
  destruct (par_inv_ancestor S n k par Hpar z (n - 1) Hz Hk) as [Hin' _].
  destruct (HA (n - 1)%nat) as [HAe | [HA1 HA2]].
  - rewrite HAe, (zget_zset_S S n Hperm) by assumption.
    destruct (decide (r = ancestor par (n - 1) z)) as [<-|Hnr].
    + by destruct (decide (r = r)).
    + destruct (decide (ancestor par (n - 1) z = r)); [congruence | exact Hearly].
  - rewrite HA1, HA2, Hp'. by destruct (decide (r = r)).
Qed.
End LevelRoots.

Section SweepComplete.
Context (I T0 S mask structure shape : list Z) (n : nat) (points : list (list Z)).
Hypothesis Hin : build_inputs n I T0 S mask structure shape = true.
Hypothesis Hpoints : offsets_to_points structure shape = Ok points.

Local Abbreviation edge := (examinedb mask structure shape points).
Local Abbreviation complete_at := (sweep_complete_at n S mask structure shape points).
Local Abbreviation partial_at := (sweep_partial_at n S mask structure shape points).

(** The levels above the position [k] do not see a parent given to a root
    when the parent is at the position [k]. *)
Lemma lroot_new_parent (k m : nat) (par : list Z) (r p z : Z) :
  par_inv S n (Datatypes.S k) par \/ par_inv S n k par ->
  S !! k = Some p -> r ∈ S -> (zget par r = r \/ zget par r = -1) ->
  (k < m)%nat -> z ∈ S -> (m <= pos S z)%nat ->
  lroot S n m (zset par r p) z = lroot S n m par z.
Proof.
  intros Hpar Hk Hr Hroot Hm Hz Hmz.
  pose proof (build_perm _ _ _ _ _ _ _ Hin) as Hperm.
  assert (Lp : length par = n) by (destruct Hpar as [H|H]; apply H).
  assert (Hpin : p ∈ S) by (apply list_elem_of_lookup; by exists k).
  assert (Hpos : pos S p = k)
    by (apply pos_of_lookup; [apply (S_nodup S n Hperm) | exact Hk]).
  apply (lroot_ext S n Hperm); [|exact Hz|exact Hmz].
  intros w Hw Hmw. unfold lstep.
  rewrite (zget_zset_S S n Hperm) by assumption.
  destruct (decide (r = w)) as [<-|Hne]; [|reflexivity].
  rewrite Hpos. destruct (Nat.leb_spec m k) as [?|_]; [lia|]. simpl.
  destruct Hroot as [-> | ->].
  - by destruct (_ && _).
  - assert (E : in_range n (-1) = false) by (unfold in_range; simpl; lia || reflexivity).
    rewrite E. by rewrite andb_false_r.
Qed.

Lemma sweep_complete :
  complete_at 0 (sweep_par n mask structure shape points S) /\
  par_inv S n 0 (sweep_par n mask structure shape points S).
Proof.
  pose proof (build_perm _ _ _ _ _ _ _ Hin) as Hperm.
  rewrite <- (sweep_par_take_all I T0 S mask structure shape n points Hin).
  apply (sweep_par_ind I T0 S mask structure shape n points Hin Hpoints
           complete_at
           (fun k p i par => complete_at (Datatypes.S k) par /\ partial_at k p i par));
    [| | | |lia].
  - intros m x y Hm Hx _ Hpos _. pose proof (pos_lt S x Hx).
    rewrite (S_length S n Hperm) in *. lia.
  - intros k par p Hk Hpar Hc.
    assert (Hpin : p ∈ S) by (apply list_elem_of_lookup; by exists k).
    assert (Hpos : pos S p = k)
      by (apply pos_of_lookup; [apply (S_nodup S n Hperm) | exact Hk]).
    assert (Lp : length par = n) by apply Hpar.
    assert (Hunset : zget par p = -1)
      by (apply (proj1 (proj2 Hpar p Hpin)); lia).
    split.
    + intros m x y Hm Hx Hy Hxy He.
      rewrite !(lroot_new_parent k m par p p) by (auto; lia).
      by apply Hc.
    + intros x y Hx Hy Hxy He [Hne | (i' & Hi' & _)]; [|lia].
      assert (pos S x <> k).
      { intros Heq. apply Hne, (pos_inj S); [assumption..|lia]. }
      assert (Havoid : forall z, z ∈ S -> (Datatypes.S k <= pos S z)%nat ->
                ancestor (zset par p p) n z = ancestor par n z).
      { intros z Hz Hkz. apply (ancestor_zset_avoid S n Hperm); [exact Lp | exact Hpin|].
        intros i _.
        destruct (par_inv_ancestor S n (Datatypes.S k) par Hpar z i Hz Hkz) as [Ha Hapos].
        split; [exact Ha|]. intros Heq. rewrite Heq, Hpos in Hapos. lia. }
      rewrite !Havoid by (assumption || lia).
      rewrite <- !(lroot_visited S n Hperm (Datatypes.S k) par) by (assumption || lia).
      apply Hc; [lia | exact Hx | exact Hy | lia | exact He].
  - intros k par p i Hk Hpar Hi [Hc Hp].
    assert (Hpin : p ∈ S) by (apply list_elem_of_lookup; by exists k).
    assert (Hpos : pos S p = k)
      by (apply pos_of_lookup; [apply (S_nodup S n Hperm) | exact Hk]).
    assert (Lp : length par = n) by apply Hpar.
    pose proof (par_inv_lowest_root I T0 S mask structure shape n Hin k par p Hpar Hk)
      as Hproot.
    destruct (visit_par_cases I T0 S mask structure shape n points Hin Hpoints
                k par p i Hpar Hk Hi)
      as [[-> Hsame] | (q & r & Hq & Hqin & Hkq & Hr & Hne & Hrin & Hrpos & Hroot & ->)].
    + split; [exact Hc|].
      intros x y Hx Hy Hxy He [Hnx | (i' & Hi' & Hn')].
      * apply Hp; auto.
      * destruct (decide (x = p)) as [->|Hnx]; [|apply Hp; auto].
        destruct (decide (i' = i)) as [->|Hni].
        -- rewrite (Hsame y Hn') by lia. by apply ancestor_fixed.
        -- apply Hp; try assumption. right. exists i'. split; [lia | exact Hn'].
    + split.
      * intros m x y Hm Hx Hy Hxy He.
        rewrite !(lroot_new_parent k m par r p) by (auto; lia).
        by apply Hc.
      * intros x y Hx Hy Hxy He Hcase.
        rewrite !(ancestor_union S n Hperm k par r p) by (assumption || lia).
        destruct (decide (x = p /\ neighbor mask structure shape points p i = Some y))
          as [[-> Hny]|Hold].
        -- rewrite Hq in Hny. injection Hny as <-.
           rewrite (ancestor_fixed par n p Hproot), <- Hr.
           destruct (decide (p = r)) as [?|_]; [congruence|].
           by destruct (decide (r = r)).
        -- rewrite (Hp x y Hx Hy Hxy He); [reflexivity|].
           destruct Hcase as [Hnx | (i' & Hi' & Hn')]; [by left|].
           destruct (decide (x = p)) as [->|Hnx]; [|by left].
           right. exists i'. split; [|exact Hn'].
           destruct (decide (i' = i)) as [->|?]; [|lia].
           exfalso. apply Hold. by split.
  - intros k par p Hk Hpar [Hc Hp] m x y Hm Hx Hy Hxy He.
    destruct (decide (m = k)) as [->|Hmk]; [|apply Hc; [lia | done..]].
    rewrite !(lroot_visited S n Hperm k par) by (assumption || lia).
    apply Hp; try assumption.
    assert (Hpin : p ∈ S) by (apply list_elem_of_lookup; by exists k).
    destruct (decide (x = p)) as [->|Hnx]; [|by left].
    right. destruct (examinedb_neighbor mask structure shape points p y He) as (i & Hi & Hn).
    by exists i.
Qed.
End SweepComplete.

(** * The tree that the builder writes *)

Section BuildTree.
Context (I T0 S mask structure shape : list Z) (n : nat) (points : list (list Z)).
Hypothesis Hin : build_inputs n I T0 S mask structure shape = true.
Hypothesis Hpoints : offsets_to_points structure shape = Ok points.

Lemma build_par_inv :
  par_inv S n 0 (build_par n I mask structure shape points S).
Proof.
  pose proof (build_perm _ _ _ _ _ _ _ Hin) as Hperm.
  pose proof (comp_asc I T0 S mask structure shape n Hin) as Hasc.
  destruct (sweep_sound I T0 S mask structure shape n points Hin Hpoints) as [_ Hpar].
  exact (proj1 (canonize_par_canonical I S n Hperm Hasc _ Hpar)).
Qed.

Lemma build_positive : (0 < n)%nat.
Proof.
  destruct (build_inputs_spec _ _ _ _ _ _ _ Hin) as (_ & _ & _ & Hprod & Hdims & _).
  pose proof (prod_pos shape Hdims). lia.
Qed.

Lemma build_first_in : zget S 0 ∈ S.
Proof.
  pose proof (build_perm _ _ _ _ _ _ _ Hin) as Hperm.
  pose proof (S_length S n Hperm) as LS. pose proof build_positive.
  destruct S as [|s0 rest]; [simpl in LS; lia|]. left.
Qed.

Lemma build_first_pos : pos S (zget S 0) = 0%nat.
Proof.
  pose proof (build_perm _ _ _ _ _ _ _ Hin) as Hperm.
  pose proof (S_length S n Hperm) as LS. pose proof build_positive.
  apply pos_of_lookup; [apply (S_nodup S n Hperm)|].
  destruct S as [|s0 rest]; [simpl in LS; lia|]. reflexivity.
Qed.

(** The properties of the parent array after the sweep and [canonize]. *)
Lemma build_par_tree :
  let T := build_par n I mask structure shape points S in
  length T = n /\
  zget T (zget S 0) = zget S 0 /\
  forall p, 0 <= p < Z.of_nat n ->
    0 <= zget T p < Z.of_nat n /\
    zget I (zget T p) <= zget I p /\
    (zget T p = p \/ (pos S (zget T p) < pos S p)%nat) /\
    canonical_at I T (zget T p) /\
    examined_component n I mask structure shape points (zget I (zget T p)) p (zget T p).
Proof.
  intros T.
  pose proof (build_perm _ _ _ _ _ _ _ Hin) as Hperm.
  pose proof (comp_asc I T0 S mask structure shape n Hin) as Hasc.
  destruct (sweep_sound I T0 S mask structure shape n points Hin Hpoints)
    as [Hsound Hpar].
  destruct (canonize_par_canonical I S n Hperm Hasc _ Hpar) as [HT Hcan].
  fold (build_par n I mask structure shape points S) in HT, Hcan. fold T in HT, Hcan.
  split; [apply HT|]. split.
  { destruct HT as [_ Hx].
    destruct (proj2 (Hx _ build_first_in) ltac:(lia)) as [Heq | [_ Hlt]]; [exact Heq|].
    rewrite build_first_pos in Hlt. lia. }
  intros p Hp. apply (S_range S n Hperm) in Hp.
  destruct (par_inv_visited S n 0 T HT p Hp ltac:(lia)) as [Hq Hqpos].
  split; [by apply (S_range S n Hperm)|].
  split; [by apply (par_inv_mono I S n Hasc T p HT)|].
  split.
  { destruct HT as [_ Hx].
    destruct (proj2 (Hx p Hp) ltac:(lia)) as [Heq | [_ Hlt]]; [by left | right; lia]. }
  split; [by apply Hcan|].
  exact (canonize_sound I T0 S mask structure shape n points Hin _ Hpar Hsound p Hp).
Qed.
End BuildTree.

(** * [find_root] on an array of its own *)

Section FindRoot.
Context (S : list Z) (n : nat).
Hypothesis Hperm : is_perm n S = true.

Lemma zpar_inv_refl (par : list Z) : par_inv S n 0 par -> zpar_inv S n 0 par par.
Proof.
  intros [Hl Hp]. split; [exact Hl|]. intros x Hx. split; [lia|]. intros _.
  destruct (proj2 (Hp x Hx) ltac:(lia)) as [Heq | [Hin Hpos]]; [by left|].
  right. assert (Hne : zget par x <> x) by (intros Heq; rewrite Heq in Hpos; lia).
  repeat split; [exact Hne | exact Hne | lia | by exists 1%nat].
Qed.

Lemma zpar_inv_forest (par zp : list Z) :
  par_inv S n 0 par -> zpar_inv S n 0 par zp -> par_inv S n 0 zp.
Proof.
  intros Hpar [Hl Hz]. split; [exact Hl|]. intros x Hx. split; [lia|]. intros _.
  destruct (proj2 (Hz x Hx) ltac:(lia)) as [[Hzr _] | (_ & _ & Hpos & j & Hj)];
    [by left|].
  right. rewrite <- Hj at 1.
  split; [apply (par_inv_ancestor S n 0 par Hpar x j Hx); lia | lia].
Qed.

(** Path compression keeps the root of every pixel. *)
Lemma zpar_inv_roots (par zp : list Z) :
  par_inv S n 0 par -> zpar_inv S n 0 par zp ->
  forall y, y ∈ S -> ancestor zp n y = ancestor par n y.
Proof.
  intros Hpar Hz. pose proof (zpar_inv_forest par zp Hpar Hz) as Hzp.
  assert (Hgen : forall m y, y ∈ S -> (pos S y < m)%nat ->
            ancestor zp n y = ancestor par n y).
  { induction m as [|m IH]; intros y Hy Hm; [lia|].
    destruct (proj2 (proj2 Hz y Hy) ltac:(lia))
      as [[Hzr Hpr] | (_ & _ & Hpos & j & Hj)].
    - by rewrite !ancestor_fixed.
    - rewrite <- (par_inv_root_of_ancestor S n 0 zp Hperm Hzp y 1 Hy) by lia.
      change (ancestor zp 1 y) with (zget zp y).
      rewrite <- (par_inv_root_of_ancestor S n 0 par Hperm Hpar y j Hy) by lia.
      rewrite Hj. apply IH; [|lia].
      rewrite <- Hj. apply (par_inv_ancestor S n 0 par Hpar y j Hy). lia. }
  intros y Hy. apply (Hgen (Datatypes.S (pos S y))); [exact Hy | lia].
Qed.

Lemma wp_find_root_buffer (par : list Z) (b : buf) (h : heap) :
  par_inv S n 0 par -> (b < length h)%nat ->
  forall (fuel : nat) (zp : list Z) (x : Z),
    zpar_inv S n 0 par zp -> x ∈ S -> (pos S x < fuel)%nat ->
    wp (find_root fuel b x)
       (fun r h' => r = ancestor par n x /\
                    exists zp', h' = <[b := zp']> h /\ zpar_inv S n 0 par zp' /\
                                zget zp' x = r)
       (<[b := zp]> h).
Proof.
  intros Hpar Hb.
  induction fuel as [|fuel IH]; intros zp x Hz Hx Hpos; [lia|].
  assert (Lz : length zp = n) by apply Hz.
  pose proof (proj1 (S_range S n Hperm x) Hx) as Hxr.
  simpl. apply wp_bind, wp_load; rewrite contents_insert_eq by done; [lia|].
  destruct Hz as [_ Hzx]. pose proof (proj2 (Hzx x Hx) ltac:(lia)) as Hcase.
  destruct Hcase as [[Hzr Hpr] | (Hpr & Hzr & Hzpos & j & Hj)].
  - rewrite Hzr, Z.eqb_refl. apply wp_bind, wp_ret.
    apply wp_load; rewrite contents_insert_eq by done; [lia|].
    split; [by rewrite Hzr, ancestor_fixed | exists zp; split; [reflexivity|]; split; [by split | reflexivity]].
  - destruct (Z.eqb_spec (zget zp x) x) as [?|_]; [done|].
    apply wp_bind, wp_bind.
    apply wp_load; rewrite contents_insert_eq by done; [lia|].
    apply wp_bind.
    destruct (par_inv_ancestor S n 0 par Hpar x j Hx ltac:(lia)) as [Hain Hapos].
    rewrite Hj in Hain, Hapos.
    eapply wp_mono; [apply (IH zp (zget zp x)); [by split | exact Hain | lia]|].
    intros r h1 (-> & zp1 & -> & Hz1 & _).
    assert (Lz1 : length zp1 = n) by apply Hz1.
    rewrite <- Hj, (par_inv_root_of_ancestor S n 0 par Hperm Hpar x j Hx) by lia.
    apply wp_store; rewrite contents_insert_eq by done; [lia|].
    rewrite list_insert_insert_eq.
    apply wp_load; rewrite contents_insert_eq by done; [rewrite length_zset; lia|].
    split; [apply zget_zset_eq; lia|].
    eexists. split; [reflexivity|]. split; [|reflexivity].
    apply (zpar_inv_compress S n Hperm 0 par zp1 x Hpar Hz1 Hx); [lia | exact Hpr].
Qed.
End FindRoot.

(** Without a root in the array the recursion does not end: whatever the
    depth of stack, the call does not return and the array is as it was. *)
Lemma find_root_no_root (zp : list Z) (b : buf) (h : heap) :
  h !! b = Some zp ->
  (forall y, 0 <= y < Z.of_nat (length zp) ->
     0 <= zget zp y < Z.of_nat (length zp) /\ zget zp y <> y) ->
  forall (fuel : nat) (x : Z), 0 <= x < Z.of_nat (length zp) ->
    find_root fuel b x h = (Raise RecursionError, h).
Proof.
  intros Hb Hno. induction fuel as [|fuel IH]; intros x Hx; [reflexivity|].
  destruct (Hno x Hx) as [Hr Hne].
  assert (Hl : load b x h = (Ok (zget zp x), h)).
  { unfold load. rewrite (contents_lookup h b zp Hb), (py_index_in _ _ Hx).
    by rewrite (zget_lookup zp x Hx). }
  simpl. unfold bind at 1. rewrite Hl.
  destruct (Z.eqb_spec (zget zp x) x) as [?|_]; [done|].
  unfold bind. rewrite Hl, (IH _ Hr). reflexivity.
Qed.

Lemma find_root_writes_only (b : buf) (fuel : nat) :
  forall x, writes_only b (find_root fuel b x).
Proof.
  induction fuel as [|fuel IH]; intros x; [apply writes_only_raise|].
  simpl. apply writes_only_bind; [apply writes_only_load|]. intros v.
  apply writes_only_bind; [|intros _; apply writes_only_load].
  destruct (v =? x); [apply writes_only_ret|].
  apply writes_only_bind; [apply writes_only_load|]. intros v'.
  apply writes_only_bind; [apply IH|]. intros r. apply writes_only_store.
Qed.

(** * Levels: the nodes of the tree *)

Lemma ascending_tail (I : list Z) (z : Z) (S : list Z) :
  ascending I (z :: S) = true -> ascending I S = true.
Proof.
  destruct S as [|y S]; [reflexivity|]. cbn [ascending].
  intros H. by apply andb_true_iff in H as [_ H].
Qed.

Lemma cut_spec (I S : list Z) (lvl z : Z) :
  ascending I S = true -> z ∈ S ->
  (cut I S lvl <= pos S z)%nat <-> lvl <= zget I z.
Proof.
  induction S as [|z0 S IH]; intros Hasc Hz; [by apply elem_of_nil in Hz|].
  cbn [cut pos].
  destruct (Z.ltb_spec (zget I z0) lvl) as [Hlt|Hge].
  - destruct (Z.eqb_spec z0 z) as [->|Hne]; [split; lia|].
    apply elem_of_cons in Hz as [?|Hz]; [congruence|].
    rewrite <- (IH (ascending_tail _ _ _ Hasc) Hz). lia.
  - split; [intros _|lia].
    assert (H0 : z0 ∈ z0 :: S) by left.
    pose proof (ascending_pos I (z0 :: S) z0 z Hasc H0 Hz) as Hle.
    cbn [pos] in Hle. rewrite Z.eqb_refl in Hle. specialize (Hle ltac:(lia)). lia.
Qed.

Lemma examined_symmetric_spec (n : nat) (mask structure shape : list Z)
    (points : list (list Z)) (x y : Z) :
  examined_symmetric n mask structure shape points = true ->
  0 <= x < Z.of_nat n -> 0 <= y < Z.of_nat n ->
  examinedb mask structure shape points x y = true ->
  examinedb mask structure shape points y x = true.
Proof.
  unfold examined_symmetric. rewrite forallb_forall. intros Hs Hx Hy He.
  assert (Hxin : In x (seqZ 0 (Z.of_nat n))) by (apply list_elem_of_In, elem_of_seqZ; lia).
  assert (Hyin : In y (seqZ 0 (Z.of_nat n))) by (apply list_elem_of_In, elem_of_seqZ; lia).
  pose proof (Hs x Hxin) as Hrow. rewrite forallb_forall in Hrow.
  specialize (Hrow y Hyin). by rewrite He in Hrow.
Qed.

Section LevelSteps.
Context (I S : list Z) (n : nat) (par : list Z).
Hypothesis Hperm : is_perm n S = true.
Hypothesis Hasc : ascending I S = true.
Hypothesis Hpar : par_inv S n 0 par.

Lemma lstep_le (m : nat) (z : Z) :
  z ∈ S -> (pos S (lstep S n m par z) <= pos S z)%nat.
Proof.
  intros Hz. unfold lstep. destruct (_ && _); [|lia].
  apply (par_inv_visited S n 0 par Hpar z Hz). lia.
Qed.

Lemma lstep_progress (m : nat) (z : Z) (j : nat) :
  z ∈ S -> (m <= pos S z)%nat ->
  lstep S n m par (Nat.iter j (lstep S n m par) z) = Nat.iter j (lstep S n m par) z \/
  (pos S (Nat.iter j (lstep S n m par) z) + j <= pos S z)%nat.
Proof.
  intros Hz Hm. induction j as [|j IH]; [right; simpl; lia|].
  destruct (lroot_iter_closed S n Hperm m par z j Hz Hm) as [Hin Hpos].
  rewrite !Nat.iter_succ. set (w := Nat.iter j (lstep S n m par) z) in *.
  destruct IH as [IH|IH]; [left; by rewrite !IH|].
  destruct (decide (lstep S n m par w = w)) as [Hfix|Hmove]; [left; by rewrite !Hfix|].
  right. assert (pos S (lstep S n m par w) < pos S w)%nat; [|lia].
  unfold lstep in *.
  destruct ((m <=? pos S (zget par w))%nat && in_range n (zget par w)); [|done].
  destruct (proj2 (proj2 Hpar w Hin) ltac:(lia)) as [Heq | [_ Hlt]]; [done | lia].
Qed.

(** The level root is a fixed point of the step. *)
Lemma lroot_fixed (m : nat) (z : Z) :
  z ∈ S -> (m <= pos S z)%nat ->
  lstep S n m par (lroot S n m par z) = lroot S n m par z.
Proof.
  intros Hz Hm. unfold lroot.
  destruct (lstep_progress m z n Hz Hm) as [H|H]; [exact H|].
  pose proof (pos_lt S z Hz) as Hlt. rewrite (S_length S n Hperm) in Hlt. lia.
Qed.

Lemma lroot_le (m : nat) (z : Z) :
  z ∈ S -> (m <= pos S z)%nat -> (pos S (lroot S n m par z) <= pos S z)%nat.
Proof.
  intros Hz Hm. unfold lroot.
  assert (H : forall j, (pos S (Nat.iter j (lstep S n m par) z) <= pos S z)%nat).
  { induction j as [|j IH]; [simpl; lia|]. rewrite !Nat.iter_succ.
    destruct (lroot_iter_closed S n Hperm m par z j Hz Hm) as [Hin _].
    pose proof (lstep_le m _ Hin). lia. }
  apply H.
Qed.

Lemma lroot_of_fixed (m : nat) (z : Z) :
  lstep S n m par z = z -> lroot S n m par z = z.
Proof.
  intros Hfix. unfold lroot. induction n as [|j IH] in |- * at 1; [reflexivity|].
  rewrite !Nat.iter_succ. by rewrite IH.
Qed.

Lemma lroot_step (m : nat) (z : Z) :
  z ∈ S -> (m <= pos S z)%nat ->
  lroot S n m par (lstep S n m par z) = lroot S n m par z.
Proof.
  intros Hz Hm. unfold lroot.
  assert (Hcomm : forall j w, Nat.iter j (lstep S n m par) (lstep S n m par w)
                         = lstep S n m par (Nat.iter j (lstep S n m par) w)).
  { induction j as [|j IH]; intros w; [reflexivity|]. rewrite !Nat.iter_succ. by rewrite IH. }
  rewrite Hcomm. by apply lroot_fixed.
Qed.

(** ** The level root of a pixel at its own level *)

Lemma level_cut (z : Z) : z ∈ S -> (cut I S (zget I z) <= pos S z)%nat.
Proof. intros Hz. apply (cut_spec I S _ z Hasc Hz). lia. Qed.

Lemma level_root_in (z : Z) :
  z ∈ S ->
  level_root I S n par z ∈ S /\
  (pos S (level_root I S n par z) <= pos S z)%nat /\
  zget I (level_root I S n par z) = zget I z.
Proof.
  intros Hz. unfold level_root.
  destruct (lroot_iter_closed S n Hperm _ par z n Hz (level_cut z Hz)) as [Hin Hpos].
  fold (lroot S n (cut I S (zget I z)) par z) in Hin, Hpos.
  pose proof (lroot_le _ z Hz (level_cut z Hz)) as Hle.
  split; [exact Hin|]. split; [exact Hle|].
  apply (cut_spec I S _ _ Hasc Hin) in Hpos.
  pose proof (ascending_pos I S _ _ Hasc Hin Hz Hle). lia.
Qed.

Lemma level_root_of_root (z : Z) : zget par z = z -> level_root I S n par z = z.
Proof.
  intros Hr. apply lroot_of_fixed. unfold lstep. rewrite Hr. by destruct (_ && _).
Qed.

Lemma level_root_same (z : Z) :
  z ∈ S -> zget I (zget par z) = zget I z ->
  level_root I S n par z = level_root I S n par (zget par z).
Proof.
  intros Hz Heq. unfold level_root. rewrite Heq.
  destruct (par_inv_visited S n 0 par Hpar z Hz ltac:(lia)) as [Hq _].
  rewrite <- (lroot_step _ z Hz (level_cut z Hz)). f_equal.
  unfold lstep.
  assert (E1 : (cut I S (zget I z) <=? pos S (zget par z))%nat = true).
  { apply Nat.leb_le, (cut_spec I S _ _ Hasc Hq). lia. }
  assert (E2 : in_range n (zget par z) = true)
    by (by apply in_range_spec, (S_range S n Hperm)).
  by rewrite E1, E2.
Qed.

Lemma level_root_lower (z : Z) :
  z ∈ S -> zget I (zget par z) < zget I z -> level_root I S n par z = z.
Proof.
  intros Hz Hlt. apply lroot_of_fixed. unfold lstep.
  destruct (par_inv_visited S n 0 par Hpar z Hz ltac:(lia)) as [Hq _].
  assert (E1 : (cut I S (zget I z) <=? pos S (zget par z))%nat = false).
  { apply Nat.leb_gt. pose proof (cut_spec I S (zget I z) _ Hasc Hq). lia. }
  by rewrite E1.
Qed.
End LevelSteps.

(** * [canonize] and the representatives of the nodes *)

Section CanonizeLevels.
Context (I S : list Z) (n : nat) (par : list Z).
Hypothesis Hperm : is_perm n S = true.
Hypothesis Hasc : ascending I S = true.
Hypothesis Hpar : par_inv S n 0 par.

(** After [canonize] the parent of a pixel is the level root of the parent
    it had. *)
Lemma canonize_par_level_root :
  forall x, x ∈ S ->
    zget (canonize_par I S par) x = level_root I S n par (zget par x).
Proof.
  unfold canonize_par. pose proof (S_nodup S n Hperm) as Hnd.
  assert (Lp : length par = n) by apply Hpar.
  assert (Hinv : forall done rest, S = done ++ rest ->
            length (foldl (canonize_step I) par done) = n /\
            (forall x, x ∈ done ->
               zget (foldl (canonize_step I) par done) x
               = level_root I S n par (zget par x)) /\
            (forall x, x ∈ rest ->
               zget (foldl (canonize_step I) par done) x = zget par x)).
  { induction done as [|p done IH] using rev_ind; intros rest HS.
    - split; [exact Lp|]. split; [|done]. intros x Hx. by apply elem_of_nil in Hx.
    - rewrite <- app_assoc in HS. simpl in HS.
      destruct (IH _ HS) as (Lc & Hdone & Hrest). rewrite foldl_snoc.
      set (cur := foldl (canonize_step I) par done) in *.
      destruct (pos_split S done rest p Hnd HS) as [Hp Hpos].
      assert (Hbefore : forall x, x ∈ S -> (pos S x < pos S p)%nat -> x ∈ done).
      { intros x Hx Hlt.
        assert (Hl : (done ++ p :: rest) !! pos S x = Some x)
          by (rewrite <- HS; by apply pos_lookup).
        rewrite lookup_app_l in Hl by lia.
        apply list_elem_of_lookup. by exists (pos S x). }
      assert (HinS : forall x, x ∈ done ++ p :: rest -> x ∈ S) by (by rewrite <- HS).
      assert (Hnotp : forall x, x ∈ done \/ x ∈ rest -> x <> p).
      { intros x Hx ->. rewrite HS in Hnd.
        apply list.NoDup_app in Hnd as (_ & Hdis & Hnd2).
        apply list.NoDup_cons in Hnd2 as [Hnotin _].
        destruct Hx as [Hx|Hx]; [|done]. apply (Hdis p Hx). left. }
      assert (Hcurp : zget cur p = zget par p) by (apply Hrest; left).
      assert (Hkeep : forall x, x ∈ S -> x <> p ->
                zget (canonize_step I cur p) x = zget cur x).
      { intros x Hx Hne. unfold canonize_step.
        destruct (_ =? _); [|reflexivity].
        rewrite (zget_zset_S S n Hperm) by assumption.
        destruct (decide (p = x)); congruence. }
      split; [unfold canonize_step; destruct (_ =? _); by rewrite ?length_zset|].
      split.
      + intros x Hx. apply elem_of_app in Hx as [Hx|Hx].
        { rewrite Hkeep; [by apply Hdone | | by apply Hnotp; left].
          apply HinS, elem_of_app. by left. }
        apply list_elem_of_singleton in Hx as ->.
        destruct (par_inv_visited S n 0 par Hpar p Hp ltac:(lia)) as [Hq Hqpos].
        unfold canonize_step. rewrite Hcurp.
        destruct (proj2 (proj2 Hpar p Hp) ltac:(lia)) as [Hroot | [_ Hlt]].
        * (* [p] is a root *)
          rewrite Hroot, Hcurp, Hroot, Z.eqb_refl.
          rewrite (zget_zset_S S n Hperm), (level_root_of_root I S n par p Hroot)
            by assumption.
          by destruct (decide (p = p)).
        * assert (Hqd : zget par p ∈ done) by (apply Hbefore; [exact Hq | lia]).
          rewrite (Hdone _ Hqd).
          destruct (par_inv_visited S n 0 par Hpar _ Hq ltac:(lia)) as [Hqq _].
          destruct (level_root_in I S n par Hperm Hasc Hpar _ Hqq) as (_ & _ & HI).
          rewrite HI.
          pose proof (par_inv_mono I S n Hasc par _ Hpar Hq) as Hmono.
          destruct (Z.eqb_spec (zget I (zget par p)) (zget I (zget par (zget par p))))
            as [Heq|Hneq].
          -- rewrite (zget_zset_S S n Hperm) by assumption.
             destruct (decide (p = p)); [|done].
             symmetry. by apply (level_root_same I S n par Hperm Hasc Hpar).
          -- rewrite Hcurp. symmetry.
             apply (level_root_lower I S n par Hasc Hpar); [exact Hq | lia].
      + intros x Hx. rewrite Hkeep; [apply Hrest; by right | | apply Hnotp; by right].
        apply HinS, elem_of_app. right. by right. }
  intros x Hx. destruct (Hinv S [] (eq_sym (app_nil_r S))) as (_ & H & _). by apply H.
Qed.

(** The representative of a pixel is its level root. *)
Lemma representative_level_root (x : Z) :
  x ∈ S -> representative I (canonize_par I S par) x = level_root I S n par x.
Proof.
  intros Hx. unfold representative. rewrite (canonize_par_level_root x Hx).
  destruct (par_inv_visited S n 0 par Hpar x Hx ltac:(lia)) as [Hq Hqpos].
  destruct (level_root_in I S n par Hperm Hasc Hpar _ Hq) as (Hlin & Hlpos & HI).
  rewrite HI.
  pose proof (par_inv_mono I S n Hasc par x Hpar Hx) as Hmono.
  destruct (proj2 (proj2 Hpar x Hx) ltac:(lia)) as [Hroot | [_ Hlt]].
  - rewrite Hroot, (level_root_of_root I S n par x Hroot), Z.eqb_refl. reflexivity.
  - destruct (Z.ltb_spec (zget I (zget par x)) (zget I x)) as [Hlow|Hsame].
    + rewrite orb_true_r. symmetry.
      by apply (level_root_lower I S n par Hasc Hpar).
    + rewrite orb_false_r.
      destruct (Z.eqb_spec (level_root I S n par (zget par x)) x) as [Heq|_].
      { rewrite Heq in Hlpos. lia. }
      symmetry. apply (level_root_same I S n par Hperm Hasc Hpar); [exact Hx | lia].
Qed.

(** [canonize] keeps the roots: it gives a pixel one of its ancestors as
    its parent. *)
Lemma canonize_par_roots (x : Z) :
  x ∈ S -> (zget (canonize_par I S par) x = x <-> zget par x = x).
Proof.
  intros Hx. rewrite (canonize_par_level_root x Hx).
  destruct (par_inv_visited S n 0 par Hpar x Hx ltac:(lia)) as [Hq Hqpos].
  destruct (level_root_in I S n par Hperm Hasc Hpar _ Hq) as (Hlin & Hlpos & HI).
  split.
  - intros Heq. rewrite Heq in Hlpos.
    destruct (proj2 (proj2 Hpar x Hx) ltac:(lia)) as [Hroot | [_ Hlt]]; [exact Hroot | lia].
  - intros Hroot. rewrite Hroot. by apply level_root_of_root.
Qed.
End CanonizeLevels.

(** * The nodes of the tree that the builder writes *)

Lemma order_from_intro (T : list Z) (rest seen : list Z) :
  (forall pre p post, rest = pre ++ p :: post -> zget T p ∈ seen \/ zget T p ∈ pre) ->
  order_from T seen rest = true.
Proof.
  revert seen. induction rest as [|p rest IH]; intros seen H; [reflexivity|].
  cbn [order_from]. apply andb_true_iff. split.
  - apply existsb_eqb_elem.
    destruct (H [] p rest eq_refl) as [Hs|Hn]; [exact Hs | by apply elem_of_nil in Hn].
  - apply IH. intros pre p' post ->.
    destruct (H (p :: pre) p' post eq_refl) as [Hs|Hp].
    + left. by right.
    + apply elem_of_cons in Hp as [->|Hp]; [left; left | by right].
Qed.

Lemma tree_order_intro (T S : list Z) :
  NoDup S -> S <> [] -> zget T (zget S 0) = zget S 0 ->
  (forall p, p ∈ S -> p <> zget S 0 ->
     zget T p ∈ S /\ (pos S (zget T p) < pos S p)%nat) ->
  tree_order T S = true.
Proof.
  intros Hnd Hne Hroot Hlt. destruct S as [|r rest]; [done|].
  change (zget (r :: rest) 0) with r in *.
  cbn [tree_order]. apply andb_true_iff. split; [by apply Z.eqb_eq|].
  apply order_from_intro. intros pre p post Hrest.
  assert (HS : r :: rest = (r :: pre) ++ p :: post) by (by rewrite Hrest).
  destruct (pos_split (r :: rest) (r :: pre) post p Hnd HS) as [Hp Hpos].
  assert (Hpr : p <> r).
  { intros ->. cbn [pos] in Hpos. rewrite Z.eqb_refl in Hpos. simpl in Hpos. lia. }
  destruct (Hlt p Hp Hpr) as [Hq Hqpos].
  assert (Hl : ((r :: pre) ++ p :: post) !! pos (r :: rest) (zget T p)
               = Some (zget T p)) by (rewrite <- HS; by apply pos_lookup).
  rewrite lookup_app_l in Hl by lia.
  assert (Hin : zget T p ∈ r :: pre) by (apply list_elem_of_lookup; eauto).
  apply elem_of_cons in Hin as [->|Hin]; [left; left | by right].
Qed.

Section BuildNodes.
Context (I T0 S mask structure shape : list Z) (n : nat) (points : list (list Z)).
Hypothesis Hin : build_inputs n I T0 S mask structure shape = true.
Hypothesis Hpoints : offsets_to_points structure shape = Ok points.
Hypothesis Hsym : examined_symmetric n mask structure shape points = true.

Local Abbreviation par0 := (sweep_par n mask structure shape points S).
Local Abbreviation T := (build_par n I mask structure shape points S).
Local Abbreviation comp := (examined_component n I mask structure shape points).
Local Abbreviation conn := (connected_from n S mask structure shape points).

(** Pixels joined by a path of visited pixels have the same level root. *)
Lemma sweep_conn_level (m : nat) (x y : Z) :
  conn m x y -> lroot S n m par0 x = lroot S n m par0 y.
Proof.
  pose proof (build_perm _ _ _ _ _ _ _ Hin) as Hperm.
  destruct (sweep_complete I T0 S mask structure shape n points Hin Hpoints)
    as [Hc _].
  induction 1 as [x|x y z (Hadj & Hx & Hy) _ IH]; [reflexivity|].
  rewrite <- IH.
  destruct (examined_adj_in I T0 S mask structure shape n points Hin x y Hadj) as [Hxin Hyin].
  assert (He : examinedb mask structure shape points x y = true /\
               examinedb mask structure shape points y x = true).
  { unfold examined_adj in Hadj. apply andb_true_iff in Hadj as [_ He].
    apply (S_range S n Hperm) in Hxin, Hyin.
    apply orb_true_iff in He as [He|He]; (split; [|]); try exact He;
      by apply (examined_symmetric_spec n mask structure shape points _ _ Hsym) in He. }
  destruct He as [He1 He2].
  destruct (decide (pos S x <= pos S y)%nat).
  - apply (Hc m x y); [lia | done | done | lia | exact He1].
  - symmetry. apply (Hc m y x); [lia | done | done | lia | exact He2].
Qed.

Lemma comp_conn (lvl : Z) (x y : Z) : comp lvl x y -> conn (cut I S lvl) x y.
Proof.
  pose proof (comp_asc I T0 S mask structure shape n Hin) as Hasc.
  apply rtc_subrel. intros a b (Hadj & Ha & Hb).
  destruct (examined_adj_in I T0 S mask structure shape n points Hin a b Hadj) as [Hain Hbin].
  repeat split; [exact Hadj|..]; by apply (cut_spec I S lvl _ Hasc).
Qed.

(** Two pixels of one intensity that are joined in the upper level set of
    that intensity have the same representative. *)
Lemma build_same_node (x y : Z) :
  0 <= x < Z.of_nat n -> 0 <= y < Z.of_nat n ->
  zget I x = zget I y -> comp (zget I x) x y ->
  representative I T x = representative I T y.
Proof.
  intros Hx Hy HI Hcomp.
  pose proof (build_perm _ _ _ _ _ _ _ Hin) as Hperm.
  pose proof (comp_asc I T0 S mask structure shape n Hin) as Hasc.
  destruct (sweep_complete I T0 S mask structure shape n points Hin Hpoints)
    as [_ Hpar].
  apply (S_range S n Hperm) in Hx, Hy.
  unfold build_par.
  rewrite !(representative_level_root I S n par0 Hperm Hasc Hpar) by assumption.
  unfold level_root. rewrite <- HI.
  by apply sweep_conn_level, comp_conn.
Qed.

(** The representative of a pixel has the intensity of the pixel and is
    joined to it in the upper level set. *)
Lemma build_representative_sound (x : Z) :
  0 <= x < Z.of_nat n ->
  0 <= representative I T x < Z.of_nat n /\
  zget I (representative I T x) = zget I x /\
  comp (zget I x) x (representative I T x).
Proof.
  intros Hx.
  destruct (build_par_tree I T0 S mask structure shape n points Hin Hpoints)
    as (_ & _ & Htree).
  destruct (Htree x Hx) as (Hr & Hle & _ & _ & Hcomp).
  unfold representative.
  destruct (Z.eqb_spec (zget T x) x) as [_|_];
    [simpl; split; [exact Hx|]; split; [reflexivity | apply rtc_refl]|].
  destruct (Z.ltb_spec (zget I (zget T x)) (zget I x)) as [_|Hge];
    [simpl; split; [exact Hx|]; split; [reflexivity | apply rtc_refl]|].
  simpl. assert (HI : zget I (zget T x) = zget I x) by lia.
  split; [exact Hr|]. split; [exact HI|]. by rewrite <- HI.
Qed.

(** ** A connected image gives a tree with one root *)

Hypothesis Hconn : forall x, 0 <= x < Z.of_nat n ->
  comp (zget I (zget S 0)) (zget S 0) x.

Lemma build_first_cut : cut I S (zget I (zget S 0)) = 0%nat.
Proof.
  pose proof (build_first_in I T0 S mask structure shape n Hin) as H0.
  destruct S as [|s0 rest]; [reflexivity|].
  change (zget (s0 :: rest) 0) with s0. cbn [cut].
  destruct (Z.ltb_spec (zget I s0) (zget I s0)); [lia | reflexivity].
Qed.

Lemma sweep_single_root (x : Z) :
  0 <= x < Z.of_nat n -> ancestor par0 n x = zget S 0.
Proof.
  intros Hx.
  pose proof (build_perm _ _ _ _ _ _ _ Hin) as Hperm.
  destruct (sweep_complete I T0 S mask structure shape n points Hin Hpoints)
    as [_ Hpar].
  pose proof (build_first_in I T0 S mask structure shape n Hin) as H0.
  pose proof (comp_conn _ _ _ (Hconn x Hx)) as Hc. rewrite build_first_cut in Hc.
  apply sweep_conn_level in Hc.
  apply (S_range S n Hperm) in Hx.
  rewrite !(lroot_visited S n Hperm 0 par0) in Hc by (assumption || lia).
  rewrite <- Hc. apply ancestor_fixed.
  destruct (proj2 (proj2 Hpar _ H0) ltac:(lia)) as [Heq | [_ Hlt]]; [exact Heq|].
  rewrite (build_first_pos I T0 S mask structure shape n Hin) in Hlt. lia.
Qed.

Lemma build_single_root (x : Z) :
  0 <= x < Z.of_nat n -> x <> zget S 0 ->
  0 <= zget T x < Z.of_nat n /\ (pos S (zget T x) < pos S x)%nat.
Proof.
  intros Hx Hne.
  pose proof (build_perm _ _ _ _ _ _ _ Hin) as Hperm.
  pose proof (comp_asc I T0 S mask structure shape n Hin) as Hasc.
  destruct (sweep_complete I T0 S mask structure shape n points Hin Hpoints)
    as [_ Hpar].
  destruct (build_par_tree I T0 S mask structure shape n points Hin Hpoints)
    as (_ & _ & Htree).
  destruct (Htree x Hx) as (Hr & _ & Hord & _).
  split; [exact Hr|]. destruct Hord as [Heq|Hlt]; [|exact Hlt].
  exfalso. apply Hne. rewrite <- (sweep_single_root x Hx).
  symmetry. apply ancestor_fixed.
  apply (canonize_par_roots I S n par0 Hperm Hasc Hpar x); [|exact Heq].
  by apply (S_range S n Hperm).
Qed.

(** The output of the builder is a well-formed tree for [_compute_area]
    and the filters. *)
Lemma build_tree_inputs : tree_inputs n T S = true /\ tree_mono I T = true.
Proof.
  pose proof (build_perm _ _ _ _ _ _ _ Hin) as Hperm.
  destruct (build_par_tree I T0 S mask structure shape n points Hin Hpoints)
    as (LT & Hroot & Htree).
  pose proof (build_first_in I T0 S mask structure shape n Hin) as H0.
  split.
  - unfold tree_inputs. rewrite LT, Nat.eqb_refl, Hperm. simpl.
    apply andb_true_iff. split.
    + apply tree_order_intro; [apply (S_nodup S n Hperm) | | exact Hroot |].
      * intros ->. by apply elem_of_nil in H0.
      * intros p Hp Hne. apply (S_range S n Hperm) in Hp.
        destruct (build_single_root p Hp Hne) as [Hr Hlt].
        split; [by apply (S_range S n Hperm) | exact Hlt].
    + apply forallb_forall. intros v Hv. apply list_elem_of_In in Hv.
      apply list_elem_of_lookup in Hv as [i Hi].
      pose proof (lookup_lt_Some _ _ _ Hi) as Hlt. rewrite LT in Hlt.
      destruct (Htree (Z.of_nat i) ltac:(lia)) as (Hr & _).
      unfold zget in Hr. rewrite Nat2Z.id, Hi in Hr. simpl in Hr.
      by apply in_range_spec.
  - unfold tree_mono. apply forallb_forall. intros p Hp.
    apply list_elem_of_In, elem_of_seqZ in Hp. rewrite LT in Hp.
    apply Z.leb_le. apply (Htree p); lia.
Qed.
End BuildNodes.

(** * [canonize] on a forest of its own *)

(** A well-formed tree is a forest in the sense of the sweep. *)
Lemma tree_order_par_inv (T S : list Z) (n : nat) :
  is_perm n S = true -> tree_order T S = true -> length T = n ->
  par_inv S n 0 T.
Proof.
  intros Hperm Hord LT. pose proof (S_nodup S n Hperm) as Hnd.
  destruct (tree_order_spec T S Hord) as ([rest HS] & Hroot & Hbefore).
  split; [exact LT|]. intros x Hx. split; [lia|]. intros _.
  destruct (list_elem_of_split _ _ Hx) as (pre & post & Hsplit).
  destruct (pos_split S pre post x Hnd Hsplit) as [_ Hpos].
  destruct pre as [|r pre].
  - left. rewrite Hsplit in Hroot. exact Hroot.
  - right. pose proof (Hbefore (r :: pre) x post Hsplit ltac:(done)) as Hq.
    apply list_elem_of_lookup in Hq as [i Hi].
    pose proof (lookup_lt_Some _ _ _ Hi) as Hlt.
    assert (Hl : S !! i = Some (zget T x))
      by (rewrite Hsplit; by apply lookup_app_l_Some).
    split; [apply list_elem_of_lookup; by exists i|].
    rewrite (pos_of_lookup S i _ Hnd Hl). lia.
Qed.

Lemma forest_par_inv (S : list Z) (n : nat) (T : list Z) :
  is_perm n S = true -> forest S n T = true -> par_inv S n 0 T.
Proof.
  intros Hperm Hf. unfold forest in Hf. apply andb_true_iff in Hf as [HL Hall].
  apply Nat.eqb_eq in HL. rewrite forallb_forall in Hall.
  split; [exact HL|]. intros x Hx. split; [lia|]. intros _.
  pose proof (Hall x (proj1 (list_elem_of_In _ _) Hx)) as Hcase.
  apply orb_true_iff in Hcase as [Heq|Hlt]; [left; by apply Z.eqb_eq|].
  apply andb_true_iff in Hlt as [Hr Hlt]. apply Nat.ltb_lt in Hlt.
  right. split; [by apply (S_range S n Hperm), in_range_spec | lia].
Qed.

Section CanonizeRun.
Context (h : heap) (image parent sorted_indices : buf).
Context (I par S : list Z) (n : nat).
Hypothesis Himage : h !! image = Some I.
Hypothesis Hparent : h !! parent = Some par.
Hypothesis Hsorted : h !! sorted_indices = Some S.
Hypothesis Hpi : parent <> image.
Hypothesis Hps : parent <> sorted_indices.
Hypothesis LI : length I = n.
Hypothesis Hperm : is_perm n S = true.
Hypothesis Hpar : par_inv S n 0 par.

Lemma canonize_run :
  canonize image parent sorted_indices h
  = (Ok tt, <[parent := canonize_par I S par]> h).
Proof.
  assert (Hlt : (parent < length h)%nat) by (by eapply lookup_lt_Some).
  assert (Himg : forall cur, contents (<[parent := cur]> h) image = I).
  { intros cur. rewrite contents_insert_ne by done. by apply contents_lookup. }
  assert (Hsrt : forall cur, contents (<[parent := cur]> h) sorted_indices = S).
  { intros cur. rewrite contents_insert_ne by done. by apply contents_lookup. }
  assert (Hstart : h = <[parent := par]> h) by (symmetry; by apply list_insert_id).
  assert (Hwp : wp (canonize image parent sorted_indices)
                  (fun _ h' => h' = <[parent := canonize_par I S par]> h) h);
    [|apply wp_run in Hwp as ([] & h' & Hrun & ->); exact Hrun].
  rewrite Hstart at 1. unfold canonize.
  apply (wp_for_in _ S _ (fun done h' =>
           h' = <[parent := foldl (canonize_step I) par done]> h /\
           par_inv S n 0 (foldl (canonize_step I) par done))).
  - apply Hsrt.
  - intros done h' [-> _]. apply Hsrt.
  - by split.
  - intros done p rest h' HS [-> Hpar'].
    assert (Hp : p ∈ S) by (rewrite HS; apply elem_of_app; right; left).
    set (cur := foldl (canonize_step I) par done) in *.
    assert (Lc : length cur = n) by apply Hpar'.
    destruct (par_inv_visited S n 0 cur Hpar' p Hp ltac:(lia)) as [Hq _].
    destruct (par_inv_visited S n 0 cur Hpar' _ Hq ltac:(lia)) as [Hqq _].
    pose proof (proj1 (S_range S n Hperm _) Hp).
    pose proof (proj1 (S_range S n Hperm _) Hq).
    pose proof (proj1 (S_range S n Hperm _) Hqq).
    rewrite foldl_snoc. fold cur.
    assert (Hstep : par_inv S n 0 (canonize_step I cur p))
      by (by apply (par_inv_canonize_step S n Hperm)).
    unfold canonize_step in *.
    apply wp_bind, wp_load; rewrite contents_insert_eq by done; [lia|].
    apply wp_bind, wp_load; rewrite Himg; [lia|].
    apply wp_bind, wp_load; rewrite contents_insert_eq by done; [lia|].
    apply wp_bind, wp_load; rewrite Himg; [lia|].
    destruct (zget I (zget cur p) =? zget I (zget cur (zget cur p))).
    + apply wp_bind, wp_load; rewrite contents_insert_eq by done; [lia|].
      apply wp_store; rewrite contents_insert_eq by done; [lia|].
      rewrite list_insert_insert_eq. by split.
    + apply wp_ret. by split.
  - intros h' [-> _]. reflexivity.
Qed.
End CanonizeRun.

Section CanonizeForest.
Context (I S : list Z) (n : nat) (par : list Z).
Hypothesis Hperm : is_perm n S = true.
Hypothesis Hasc : ascending I S = true.
Hypothesis Hpar : par_inv S n 0 par.

(** A step on a pixel whose parent is canonical changes nothing. *)
Lemma canonize_step_canonical (T : list Z) (p : Z) :
  length T = n -> p ∈ S -> canonical_at I T (zget T p) -> canonize_step I T p = T.
Proof.
  intros LT Hp Hcan. unfold canonize_step.
  destruct (Z.eqb_spec (zget I (zget T p)) (zget I (zget T (zget T p)))) as [Heq|_];
    [|reflexivity].
  destruct Hcan as [Hfix|Hlt]; [|lia].
  rewrite Hfix. unfold zset. apply list_insert_id.
  apply zget_lookup. apply (S_range S n Hperm) in Hp. lia.
Qed.

Lemma canonize_par_idempotent :
  canonize_par I S (canonize_par I S par) = canonize_par I S par.
Proof.
  destruct (canonize_par_canonical I S n Hperm Hasc par Hpar) as [HT Hcan].
  set (T := canonize_par I S par) in *.
  assert (LT : length T = n) by apply HT.
  unfold canonize_par at 1.
  assert (Hgen : forall ps, (forall p, p ∈ ps -> p ∈ S) ->
            foldl (canonize_step I) T ps = T).
  { induction ps as [|p ps IH] using rev_ind; intros Hps; [reflexivity|].
    rewrite foldl_snoc, IH by (intros q Hq; apply Hps, elem_of_app; by left).
    assert (Hp : p ∈ S) by (apply Hps, elem_of_app; right; left).
    apply canonize_step_canonical; [exact LT | exact Hp | by apply Hcan]. }
  by apply Hgen.
Qed.

(** A level root is an ancestor. *)
Lemma lroot_ancestor (m : nat) (z : Z) :
  exists j, lroot S n m par z = ancestor par j z.
Proof.
  unfold lroot.
  assert (H : forall i, exists j, Nat.iter i (lstep S n m par) z = ancestor par j z).
  { induction i as [|i [j IH]]; [by exists 0%nat|].
    rewrite Nat.iter_succ, IH. unfold lstep. destruct (_ && _).
    - by exists (Datatypes.S j).
    - by exists j. }
  apply H.
Qed.

(** [canonize] gives every pixel one of its ancestors as its parent, and
    keeps the root of every pixel. *)
Lemma canonize_par_compresses : zpar_inv S n 0 par (canonize_par I S par).
Proof.
  destruct (canonize_par_canonical I S n Hperm Hasc par Hpar) as [HT _].
  split; [apply HT|]. intros x Hx. split; [lia|]. intros _.
  pose proof (canonize_par_roots I S n par Hperm Hasc Hpar x Hx) as Hroots.
  destruct (decide (zget par x = x)) as [Hr|Hnr]; [left; split; [by apply Hroots | done]|].
  right. split; [exact Hnr|]. split; [by rewrite Hroots|].
  rewrite (canonize_par_level_root I S n par Hperm Hasc Hpar x Hx).
  destruct (par_inv_visited S n 0 par Hpar x Hx ltac:(lia)) as [Hq Hqpos].
  destruct (level_root_in I S n par Hperm Hasc Hpar _ Hq) as (_ & Hlpos & _).
  split.
  - destruct (proj2 (proj2 Hpar x Hx) ltac:(lia)) as [? | [_ Hlt]]; [done | lia].
  - unfold level_root. destruct (lroot_ancestor (cut I S (zget I (zget par x))) (zget par x))
      as [j Hj].
    exists (Datatypes.S j). rewrite Hj. by rewrite ancestor_succ.
Qed.
End CanonizeForest.

(** * The grid, and where the code examines the neighbours of the grid *)

Lemma reverse_zip_with_add (X Y : list Z) :
  length X = length Y ->
  reverse (zip_with Z.add X Y) = zip_with Z.add (reverse X) (reverse Y).
Proof.
  revert Y. induction X as [|x X IH]; intros Y L.
  - by destruct Y.
  - destruct Y as [|y Y]; [discriminate|].
    simpl. rewrite !reverse_cons, IH by (simpl in *; lia).
    rewrite zip_with_app by (rewrite !length_reverse; simpl in *; lia).
    reflexivity.
Qed.

Lemma ravel_rev_add (rs X Y : list Z) :
  length X = length rs -> length Y = length rs ->
  ravel_rev rs (zip_with Z.add X Y) = ravel_rev rs X + ravel_rev rs Y.
Proof.
  revert X Y. induction rs as [|d ds IH]; intros X Y LX LY.
  - by destruct X.
  - destruct X as [|x X], Y as [|y Y]; try discriminate.
    simpl in *. rewrite IH by lia. lia.
Qed.

Lemma ravel_add (shape X Y : list Z) :
  length X = length shape -> length Y = length shape ->
  ravel shape (zip_with Z.add X Y) = ravel shape X + ravel shape Y.
Proof.
  intros LX LY. unfold ravel. rewrite reverse_zip_with_add by congruence.
  apply ravel_rev_add; by rewrite !length_reverse.
Qed.

Lemma ravel_unravel (shape : list Z) (p : Z) :
  Forall (fun d => 0 < d) shape -> 0 <= p < prod shape ->
  ravel shape (unravel p shape) = p.
Proof.
  intros Hpos Hp. unfold ravel, unravel. rewrite reverse_involutive.
  apply ravel_unravel_rev; [by apply Forall_reverse | by rewrite prod_reverse].
Qed.

Lemma unravel_rev_range (rs : list Z) (v : Z) :
  Forall (fun d => 0 < d) rs -> 0 <= v ->
  Forall2 (fun e s => 0 <= e < s) (unravel_rev rs v) rs.
Proof.
  intros Hpos. revert v. induction Hpos as [|d ds Hd _ IH]; intros v Hv; [constructor|].
  simpl. constructor.
  - rewrite Z.rem_mod_nonneg by lia. apply Z.mod_pos_bound. lia.
  - apply IH. rewrite Z.quot_div_nonneg by lia. apply Z.div_pos; lia.
Qed.

Lemma unravel_rev_ravel_rev (rs E : list Z) :
  Forall2 (fun e s => 0 <= e < s) E rs -> unravel_rev rs (ravel_rev rs E) = E.
Proof.
  induction 1 as [|e s E rs He HF IH]; [reflexivity|].
  pose proof (ravel_rev_range rs E HF) as Hr.
  assert (Hpos : 0 <= prod rs) by lia.
  simpl.
  assert (Hq : Z.quot (e + s * ravel_rev rs E) s = ravel_rev rs E).
  { symmetry. apply (Z.quot_unique _ _ _ e); nia. }
  assert (Hm : Z.rem (e + s * ravel_rev rs E) s = e).
  { symmetry. apply (Z.rem_unique _ _ (ravel_rev rs E)); nia. }
  by rewrite Hq, Hm, IH.
Qed.

Lemma inside_spec (shape c : list Z) :
  inside shape c = true <-> Forall2 (fun e s => 0 <= e < s) c shape.
Proof.
  unfold inside. rewrite andb_true_iff, Nat.eqb_eq. split.
  - intros [L H]. revert shape L H. induction c as [|e c IH]; intros [|s shape] L H;
      try discriminate; constructor.
    + simpl in H. apply andb_true_iff in H as [H _]. lia.
    + simpl in H. apply andb_true_iff in H as [_ H]. apply IH; [simpl in L; lia | exact H].
  - induction 1 as [|e s c shape He _ [IL IH]]; [by split|].
    split; [simpl; lia|]. simpl. apply andb_true_iff. split; [lia | exact IH].
Qed.

Lemma inside_length (shape c : list Z) :
  inside shape c = true -> length c = length shape.
Proof. unfold inside. rewrite andb_true_iff, Nat.eqb_eq. tauto. Qed.

Lemma ravel_inside (shape c : list Z) :
  inside shape c = true -> 0 <= ravel shape c < prod shape.
Proof.
  intros H. apply inside_spec, Forall2_reverse, ravel_rev_range in H.
  by rewrite prod_reverse in H.
Qed.

Lemma unravel_inside (shape : list Z) (p : Z) :
  Forall (fun d => 0 < d) shape -> 0 <= p -> inside shape (unravel p shape) = true.
Proof.
  intros Hpos Hp. apply inside_spec. unfold unravel.
  rewrite <- (reverse_involutive shape) at 2. apply Forall2_reverse.
  apply unravel_rev_range; [by apply Forall_reverse | exact Hp].
Qed.

Lemma unravel_ravel (shape c : list Z) :
  inside shape c = true -> unravel (ravel shape c) shape = c.
Proof.
  intros H. apply inside_spec, Forall2_reverse in H.
  unfold unravel, ravel. rewrite (unravel_rev_ravel_rev _ _ H).
  apply reverse_involutive.
Qed.

(** The loop of [_is_valid_coordinate] decides whether the coordinates are
    inside the grid. *)
Lemma valid_loop_inside (pc co sh : list Z) :
  length pc = length sh -> length co = length sh ->
  valid_loop pc co sh = Ok (inside sh (zip_with Z.add pc co)).
Proof.
  unfold inside. revert pc co. induction sh as [|s sh IH]; intros pc co Lp Lc.
  - destruct pc, co; try discriminate. reflexivity.
  - destruct pc as [|c pc], co as [|d co]; try discriminate.
    simpl in Lp, Lc. cbn [valid_loop zip_with zip forallb length fst snd].
    rewrite (IH pc co) by lia.
    change (Datatypes.S ?a =? Datatypes.S ?b)%nat with (a =? b)%nat.
    destruct (Z.ltb_spec (c + d) 0) as [Hlt|Hge].
    + destruct (Z.leb_spec 0 (c + d)); [lia|]. simpl. by rewrite andb_false_r.
    + destruct (Z.leb_spec 0 (c + d)); [|lia].
      destruct (Z.geb_spec (c + d) s) as [Hge'|Hlt'].
      * destruct (Z.ltb_spec (c + d) s); [lia|]. simpl. by rewrite andb_false_r.
      * destruct (Z.ltb_spec (c + d) s); [|lia]. simpl. reflexivity.
Qed.

Lemma grid_inputs_spec (n : nat) (I T0 S mask structure shape : list Z)
    (D : list (list Z)) :
  grid_inputs n I T0 S mask structure shape D = true ->
  length I = n /\ length T0 = n /\ length mask = n /\ prod shape = Z.of_nat n /\
  Forall (fun d => 0 < d) shape /\ is_perm n S = true /\ ascending I S = true /\
  forallb (representable int32) structure = true /\
  offsets_consistent structure shape D = true /\
  directions_symmetric D = true /\
  mask_zero_on_border n mask shape D = true.
Proof.
  unfold grid_inputs. rewrite !andb_true_iff, !Nat.eqb_eq, Z.eqb_eq.
  intros ((((((((((? & ?) & ?) & ?) & Hd) & ?) & ?) & ?) & ?) & ?) & ?).
  repeat split; try assumption.
  apply list.Forall_forall. intros d Hin. rewrite forallb_forall in Hd.
  apply list_elem_of_In in Hin. apply Hd in Hin. lia.
Qed.

Lemma offsets_consistent_lookup (structure shape : list Z) (D : list (list Z)) :
  offsets_consistent structure shape D = true ->
  length D = length structure /\
  forall i o d, structure !! i = Some o -> D !! i = Some d ->
    length d = length shape /\ o = ravel shape d.
Proof.
  unfold offsets_consistent. rewrite andb_true_iff, Nat.eqb_eq, forallb_forall.
  intros [L H]. split; [exact L|]. intros i o d Ho Hd.
  assert (Hz : zip structure D !! i = Some (o, d)).
  { apply lookup_zip_with_Some. by exists o, d. }
  apply list_elem_of_lookup_2, list_elem_of_In, H in Hz.
  apply andb_true_iff in Hz as [H1 H2]. simpl in H1, H2.
  apply Nat.eqb_eq in H1. apply Z.eqb_eq in H2. by split.
Qed.

Lemma zip_add_opp (u d : list Z) :
  (length u <= length d)%nat ->
  zip_with Z.add (zip_with Z.add u d) (Z.opp <$> d) = u.
Proof.
  revert d. induction u as [|a u IH]; intros [|b d] L; simpl in *;
    [reflexivity | reflexivity | lia |].
  rewrite IH by lia. f_equal. lia.
Qed.

Section GridTransfer.
Context (n : nat) (I T0 S mask structure shape : list Z) (D : list (list Z)).
Hypothesis Hgrid : grid_inputs n I T0 S mask structure shape D = true.
Hypothesis Hpoints : offsets_to_points structure shape = Ok D.

Lemma grid_row (i : nat) (o : Z) :
  structure !! i = Some o ->
  exists d, D !! i = Some d /\ length d = length shape /\ o = ravel shape d.
Proof.
  intros Ho. destruct (grid_inputs_spec _ _ _ _ _ _ _ _ Hgrid)
    as (_&_&_&_&_&_&_&_&Hc&_).
  destruct (offsets_consistent_lookup _ _ _ Hc) as [L Hrow].
  destruct (lookup_lt_is_Some_2 D i) as [d Hd];
    [rewrite L; by eapply lookup_lt_Some|].
  exists d. split; [exact Hd|]. by apply (Hrow i).
Qed.

Lemma grid_direction (d : list Z) :
  d ∈ D -> exists i o, structure !! i = Some o /\ D !! i = Some d /\
                       length d = length shape /\ o = ravel shape d.
Proof.
  intros Hd. destruct (grid_inputs_spec _ _ _ _ _ _ _ _ Hgrid)
    as (_&_&_&_&_&_&_&_&Hc&_).
  destruct (offsets_consistent_lookup _ _ _ Hc) as [L Hrow].
  apply list_elem_of_lookup in Hd as [i Hi].
  destruct (lookup_lt_is_Some_2 structure i) as [o Ho];
    [rewrite <- L; by eapply lookup_lt_Some|].
  exists i, o. split; [exact Ho|]. split; [exact Hi|]. by apply (Hrow i).
Qed.

(** A step inside the grid is the step by the offset. *)
Lemma ravel_step (p : Z) (d : list Z) :
  0 <= p < Z.of_nat n -> length d = length shape ->
  ravel shape (zip_with Z.add (unravel p shape) d) = p + ravel shape d.
Proof.
  intros Hp Ld. destruct (grid_inputs_spec _ _ _ _ _ _ _ _ Hgrid)
    as (_&_&_&Hprod&Hpos&_).
  rewrite ravel_add by (by rewrite ?length_unravel).
  rewrite ravel_unravel by (assumption || lia). reflexivity.
Qed.

Lemma grid_mask_border (p : Z) (d : list Z) :
  0 <= p < Z.of_nat n -> zget mask p <> 0 -> d ∈ D ->
  inside shape (zip_with Z.add (unravel p shape) d) = true.
Proof.
  intros Hp Hm Hd. destruct (grid_inputs_spec _ _ _ _ _ _ _ _ Hgrid)
    as (_&_&_&_&_&_&_&_&_&_&Hb).
  unfold mask_zero_on_border in Hb. rewrite forallb_forall in Hb.
  assert (Hpin : In p (seqZ 0 (Z.of_nat n))) by (apply list_elem_of_In, elem_of_seqZ; lia).
  apply Hb, orb_true_iff in Hpin as [H0|Hall]; [lia|].
  rewrite forallb_forall in Hall. by apply Hall, list_elem_of_In.
Qed.

(** The inputs that the specification asks for are inputs on which the
    builder runs. *)
Lemma grid_build_inputs : build_inputs n I T0 S mask structure shape = true.
Proof.
  destruct (grid_inputs_spec _ _ _ _ _ _ _ _ Hgrid)
    as (LI&LT&LM&Hprod&Hpos&Hperm&Hasc&Hrep&Hc&Hsym&Hb).
  unfold build_inputs. rewrite LI, LT, LM, !Nat.eqb_refl, Hprod, Z.eqb_refl, Hperm, Hasc.
  rewrite Hrep, Hpoints. simpl.
  assert (Hd : forallb (fun d => 0 <? d) shape = true).
  { apply forallb_forall. intros d Hin. apply list_elem_of_In in Hin.
    rewrite list.Forall_forall in Hpos. apply Hpos in Hin. lia. }
  rewrite Hd. simpl.
  unfold mask_covers_border. apply forallb_forall. intros p Hp.
  apply list_elem_of_In, elem_of_seqZ in Hp.
  destruct (Z.eqb_spec (zget mask p) 0) as [|Hm]; [reflexivity|]. simpl.
  apply forallb_forall. intros o Ho. apply list_elem_of_In in Ho.
  apply list_elem_of_lookup in Ho as [i Hi].
  destruct (grid_row i o Hi) as (d & Hd' & Ld & ->).
  assert (Hin : d ∈ D) by (by eapply list_elem_of_lookup_2).
  pose proof (grid_mask_border p d ltac:(lia) Hm Hin) as Hins.
  apply ravel_inside in Hins. rewrite ravel_step in Hins by (lia || done).
  apply in_range_spec. lia.
Qed.

(** With the table of the directions, the builder examines the neighbours
    of the grid. *)
Lemma neighbor_grid (p : Z) (i : nat) (o : Z) (d : list Z) :
  0 <= p < Z.of_nat n -> structure !! i = Some o -> D !! i = Some d ->
  neighbor mask structure shape D p i = grid_neighbor shape p d.
Proof.
  intros Hp Ho Hd. destruct (grid_inputs_spec _ _ _ _ _ _ _ _ Hgrid)
    as (_&_&LM&Hprod&Hpos&_).
  destruct (grid_row i o Ho) as (d' & Hd' & Ld & Hod).
  assert (d' = d) by congruence. subst d'.
  assert (Hin : d ∈ D) by (by eapply list_elem_of_lookup_2).
  unfold neighbor, grid_neighbor.
  assert (Hm : index_val mask p = Ok (zget mask p)).
  { unfold index_val. rewrite (py_index_in (length mask) p) by lia.
    by rewrite (zget_lookup mask p) by lia. }
  rewrite Hm, Ho, Hd. simpl.
  destruct (Z.eqb_spec (zget mask p) 0) as [Hz|Hnz].
  - unfold _is_valid_coordinate. rewrite np_unravel_index_eq.
    rewrite (proj2 (index_ok_spec shape p)) by lia. simpl.
    rewrite valid_loop_inside by (by rewrite ?length_unravel).
    destruct (inside shape _) eqn:E; [|reflexivity].
    f_equal. rewrite ravel_step by done. lia.
  - rewrite (grid_mask_border p d Hp Hnz Hin).
    f_equal. rewrite ravel_step by done. lia.
Qed.

Lemma examinedb_grid (x y : Z) :
  0 <= x < Z.of_nat n ->
  examinedb mask structure shape D x y = grid_edgeb shape D x y.
Proof.
  intros Hx. apply eq_true_iff_eq. unfold examinedb, grid_edgeb.
  rewrite !existsb_exists. split.
  - intros (i & Hi & Hm). apply in_seq in Hi.
    destruct (lookup_lt_is_Some_2 structure i ltac:(lia)) as [o Ho].
    destruct (grid_row i o Ho) as (d & Hd & _).
    exists d. split; [by apply list_elem_of_In; eapply list_elem_of_lookup_2|].
    by rewrite <- (neighbor_grid x i o d Hx Ho Hd).
  - intros (d & Hd & Hm). apply list_elem_of_In in Hd.
    destruct (grid_direction d Hd) as (i & o & Ho & Hi & _).
    exists i. split; [apply in_seq; apply lookup_lt_Some in Ho; lia|].
    by rewrite (neighbor_grid x i o d Hx Ho Hi).
Qed.

Lemma examined_adj_grid (x y : Z) :
  examined_adj n mask structure shape D x y = grid_adj n shape D x y.
Proof.
  unfold examined_adj, grid_adj.
  destruct (in_range n x) eqn:Ex; [|reflexivity].
  destruct (in_range n y) eqn:Ey; [|reflexivity].
  apply in_range_spec in Ex, Ey. by rewrite !examinedb_grid.
Qed.

Lemma examined_component_grid (lvl x y : Z) :
  examined_component n I mask structure shape D lvl x y <->
  grid_component n I shape D lvl x y.
Proof.
  split; apply rtc_subrel; intros a b (Hadj & Ha & Hb); repeat split; try assumption.
  - by rewrite <- examined_adj_grid.
  - by rewrite examined_adj_grid.
Qed.

(** The neighbours of the grid are symmetric. *)
Lemma grid_edgeb_sym (x y : Z) :
  0 <= x < Z.of_nat n ->
  grid_edgeb shape D x y = true -> grid_edgeb shape D y x = true.
Proof.
  intros Hx. destruct (grid_inputs_spec _ _ _ _ _ _ _ _ Hgrid)
    as (_&_&_&Hprod&Hpos&_&_&_&_&Hsym&_).
  unfold grid_edgeb. rewrite !existsb_exists.
  intros (d & Hd & Hm). apply list_elem_of_In in Hd.
  unfold grid_neighbor in Hm.
  destruct (inside shape (zip_with Z.add (unravel x shape) d)) eqn:E; [|discriminate].
  apply Z.eqb_eq in Hm. subst y.
  unfold directions_symmetric in Hsym. rewrite forallb_forall in Hsym.
  pose proof (Hsym d (proj1 (list_elem_of_In _ _) Hd)) as Hopp.
  apply bool_decide_eq_true in Hopp.
  exists (Z.opp <$> d). split; [by apply list_elem_of_In|].
  unfold grid_neighbor. rewrite (unravel_ravel _ _ E).
  assert (Hback : zip_with Z.add (zip_with Z.add (unravel x shape) d) (Z.opp <$> d)
                  = unravel x shape).
  { pose proof (inside_length _ _ E) as L.
    rewrite length_zip_with in L. pose proof (length_unravel x shape).
    apply zip_add_opp. lia. }
  rewrite Hback, (unravel_inside shape x Hpos) by lia.
  rewrite ravel_unravel by (assumption || lia). apply Z.eqb_refl.
Qed.

Lemma grid_examined_symmetric : examined_symmetric n mask structure shape D = true.
Proof.
  unfold examined_symmetric. apply forallb_forall. intros x Hx.
  apply forallb_forall. intros y Hy.
  apply list_elem_of_In, elem_of_seqZ in Hx, Hy.
  rewrite !examinedb_grid by lia.
  destruct (grid_edgeb shape D x y) eqn:E; [|reflexivity].
  simpl. apply grid_edgeb_sym; [lia | exact E].
Qed.
End GridTransfer.

(** * The tree of the builder on the grid *)

Lemma grid_adj_sym (n : nat) (shape : list Z) (D : list (list Z)) (x y : Z) :
  grid_adj n shape D x y = true -> grid_adj n shape D y x = true.
Proof.
  unfold grid_adj. rewrite !andb_true_iff, !orb_true_iff. tauto.
Qed.

Lemma grid_component_sym (n : nat) (I shape : list Z) (D : list (list Z))
    (lvl x y : Z) :
  grid_component n I shape D lvl x y -> grid_component n I shape D lvl y x.
Proof.
  induction 1 as [x|x y z (Hadj & Hx & Hy) _ IH]; [apply rtc_refl|].
  eapply rtc_r; [exact IH|]. repeat split; try assumption. by apply grid_adj_sym.
Qed.

Section GridTree.
Context (n : nat) (I T0 S mask structure shape : list Z) (D : list (list Z)).
Hypothesis Hgrid : grid_inputs n I T0 S mask structure shape D = true.
Hypothesis Hpoints : offsets_to_points structure shape = Ok D.

Local Abbreviation T := (build_par n I mask structure shape D S).
Local Abbreviation node := (grid_component n I shape D).

(** Every pixel: its parent is not brighter and not later in the order,
    the parent is canonical, and the representative of the pixel is a pixel
    of its node. *)
Lemma grid_tree_pixel (p : Z) :
  0 <= p < Z.of_nat n ->
  0 <= zget T p < Z.of_nat n /\
  zget I (zget T p) <= zget I p /\
  (zget T p = p \/ (pos S (zget T p) < pos S p)%nat) /\
  canonical_at I T (zget T p) /\
  zget I (representative I T p) = zget I p /\
  node (zget I p) p (representative I T p).
Proof.
  intros Hp. pose proof (grid_build_inputs n I T0 S mask structure shape D Hgrid Hpoints)
    as Hin.
  destruct (build_par_tree I T0 S mask structure shape n D Hin Hpoints) as (_ & _ & Htree).
  destruct (Htree p Hp) as (Hr & Hle & Hord & Hcan & _).
  destruct (build_representative_sound I T0 S mask structure shape n D Hin Hpoints p Hp)
    as (_ & HI & Hcomp).
  repeat split; try assumption; try apply Hr.
  by apply (examined_component_grid n I T0 S mask structure shape D Hgrid).
Qed.

(** The representatives are those of the nodes: two pixels have the same
    representative exactly when they have the same intensity and are
    joined in the upper level set of that intensity. *)
Lemma grid_tree_nodes (p q : Z) :
  0 <= p < Z.of_nat n -> 0 <= q < Z.of_nat n ->
  representative I T p = representative I T q <->
  zget I p = zget I q /\ node (zget I p) p q.
Proof.
  intros Hp Hq.
  pose proof (grid_build_inputs n I T0 S mask structure shape D Hgrid Hpoints) as Hin.
  pose proof (grid_examined_symmetric n I T0 S mask structure shape D Hgrid) as Hsym.
  split.
  - intros Heq.
    destruct (grid_tree_pixel p Hp) as (_ & _ & _ & _ & HIp & Hnp).
    destruct (grid_tree_pixel q Hq) as (_ & _ & _ & _ & HIq & Hnq).
    assert (HI : zget I p = zget I q) by congruence.
    split; [exact HI|]. eapply rtc_trans; [exact Hnp|].
    rewrite Heq, HI. by apply grid_component_sym.
  - intros [HI Hnode].
    apply (build_same_node I T0 S mask structure shape n D Hin Hpoints Hsym p q Hp Hq HI).
    by apply (examined_component_grid n I T0 S mask structure shape D Hgrid).
Qed.

(** On a connected grid the first sorted pixel is the only root. *)
Lemma grid_tree_root :
  (forall x, 0 <= x < Z.of_nat n -> node (zget I (zget S 0)) (zget S 0) x) ->
  forall p, 0 <= p < Z.of_nat n -> zget T p = p -> p = zget S 0.
Proof.
  intros Hconn p Hp Hroot.
  pose proof (grid_build_inputs n I T0 S mask structure shape D Hgrid Hpoints) as Hin.
  pose proof (grid_examined_symmetric n I T0 S mask structure shape D Hgrid) as Hsym.
  destruct (decide (p = zget S 0)) as [?|Hne]; [done|]. exfalso.
  assert (Hc : forall x, 0 <= x < Z.of_nat n ->
            examined_component n I mask structure shape D (zget I (zget S 0)) (zget S 0) x).
  { intros x Hx.
    by apply (examined_component_grid n I T0 S mask structure shape D Hgrid), Hconn. }
  destruct (build_single_root I T0 S mask structure shape n D Hin Hpoints Hsym Hc p Hp Hne)
    as [_ Hlt].
  rewrite Hroot in Hlt. lia.
Qed.

Lemma grid_tree_inputs :
  (forall x, 0 <= x < Z.of_nat n -> node (zget I (zget S 0)) (zget S 0) x) ->
  tree_inputs n T S = true /\ tree_mono I T = true.
Proof.
  intros Hconn.
  pose proof (grid_build_inputs n I T0 S mask structure shape D Hgrid Hpoints) as Hin.
  pose proof (grid_examined_symmetric n I T0 S mask structure shape D Hgrid) as Hsym.
  apply (build_tree_inputs I T0 S mask structure shape n D Hin Hpoints Hsym).
  intros x Hx.
  by apply (examined_component_grid n I T0 S mask structure shape D Hgrid), Hconn.
Qed.
End GridTree.

(** * Further facts on the table of deltas, the area and the filters *)

Lemma ravel_rev_sub (rs X Y : list Z) :
  length X = length rs -> length Y = length rs ->
  ravel_rev rs (zip_with Z.sub X Y) = ravel_rev rs X - ravel_rev rs Y.
Proof.
  revert X Y. induction rs as [|d ds IH]; intros X Y LX LY.
  - by destruct X.
  - destruct X as [|x X], Y as [|y Y]; try discriminate.
    simpl in *. rewrite IH by lia. lia.
Qed.

(** Every row of the table ravels to its offset, whatever the centre. *)
Lemma offsets_to_points_ravel (offsets shape : list Z) (points : list (list Z)) :
  Forall (fun d => 0 < d) shape ->
  forallb (representable int32) offsets = true ->
  offsets_to_points offsets shape = Ok points ->
  length points = length offsets /\
  forall i o row, offsets !! i = Some o -> points !! i = Some row ->
    length row = length shape /\ ravel shape row = o.
Proof.
  intros Hpos Hrep Hok.
  destruct (offsets_to_points_ok offsets shape points Hok) as (m & Hm & Hc & Hs & ->).
  split; [by rewrite length_fmap|].
  intros i o row Ho Hrow. rewrite list_lookup_fmap, Ho in Hrow. injection Hrow as <-.
  assert (Hin : o ∈ offsets) by (by eapply list_elem_of_lookup_2).
  apply index_ok_spec in Hc. pose proof (proj1 (index_ok_spec _ _) (Hs o Hin)) as Hso.
  unfold delta_row. split; [by rewrite length_zip_with, !length_unravel, Nat.min_id|].
  unfold ravel. rewrite reverse_zip_with_sub by (by rewrite !length_unravel).
  unfold unravel. rewrite !reverse_involutive.
  rewrite ravel_rev_sub by (by rewrite length_unravel_rev).
  rewrite !ravel_unravel_rev by (rewrite ?prod_reverse; (by apply Forall_reverse) || lia).
  apply (shifted_no_wrap offsets m o Hrep Hm Hin); lia.
Qed.

Lemma count_if_mono (f g : Z -> bool) (l : list Z) :
  (forall y, y ∈ l -> f y = true -> g y = true) -> count_if f l <= count_if g l.
Proof.
  induction l as [|x l IH]; intros H; [reflexivity|].
  simpl. assert (IH' : count_if f l <= count_if g l).
  { apply IH. intros y Hy. apply H. by right. }
  pose proof (H x ltac:(left)) as Hx.
  destruct (f x); [rewrite Hx by done; lia|]. destruct (g x); lia.
Qed.

(** A subtree is part of the subtree of the parent. *)
Lemma in_subtree_parent (T S : list Z) (n : nat) (p x : Z) :
  tree_inputs n T S = true -> 0 <= p < Z.of_nat n -> 0 <= x < Z.of_nat n ->
  in_subtree T n p x = true -> in_subtree T n (zget T p) x = true.
Proof.
  intros Htree Hp Hx Hsub.
  destruct (tree_inputs_spec _ _ _ Htree) as (LT & Hperm & Hord & _).
  pose proof (tree_order_par_inv T S n Hperm Hord LT) as Hpar.
  apply in_subtree_spec in Hsub as (k & Hk & Hanc). apply in_subtree_spec.
  apply (S_range S n Hperm) in Hx, Hp.
  destruct (decide (zget T p = p)) as [Hroot|Hnr]; [exists k; by rewrite Hroot|].
  exists (Datatypes.S k).
  change (ancestor T (Datatypes.S k) x) with (zget T (ancestor T k x)).
  split; [|by rewrite Hanc].
  destruct (par_inv_progress S n 0 T Hpar x k Hx ltac:(lia)) as [Hfix|Hprog];
    [rewrite Hanc in Hfix; done|].
  rewrite Hanc in Hprog.
  destruct (proj2 (proj2 Hpar p Hp) ltac:(lia)) as [? | [_ Hlt]]; [done|].
  pose proof (pos_lt S x Hx) as Hxl. rewrite (S_length S n Hperm) in Hxl. lia.
Qed.

(** The area does not increase from a pixel to its child, and lies between
    1 and the number of pixels. *)
Lemma area_spec_increasing (T S : list Z) (n : nat) :
  tree_inputs n T S = true ->
  attr_increasing (area_spec n T S) T = true /\
  forall p, 0 <= p < Z.of_nat n -> 1 <= zget (area_spec n T S) p <= Z.of_nat n.
Proof.
  intros Htree.
  destruct (tree_inputs_spec _ _ _ Htree) as (LT & Hperm & Hord & Hr).
  destruct (area_spec_subtree T S n Hperm Hord) as (_ & Hroot & Hsize).
  split.
  - unfold attr_increasing. apply forallb_forall. intros p Hp.
    apply list_elem_of_In, elem_of_seqZ in Hp. rewrite LT in Hp.
    assert (Hq : 0 <= zget T p < Z.of_nat n)
      by (apply (forallb_in_range_zget n T p Hr); lia).
    apply Z.leb_le. rewrite !Hsize by lia. unfold subtree_size.
    apply count_if_mono. intros x Hx. apply elem_of_seqZ in Hx.
    apply (in_subtree_parent T S n p x Htree); lia.
  - intros p Hp. split; [by apply area_spec_ge_1|].
    rewrite <- Hroot. by apply area_spec_le_root.
Qed.

(** Raising the threshold lowers the outputs. *)
Lemma outputs_antitone (I T S A : list Z) (n : nat) (thr thr' : Z) (O O' : list Z) :
  tree_inputs n T S = true -> length O = n -> length O' = n ->
  tree_mono I T = true ->
  (forall p, 0 <= p < Z.of_nat n -> 0 <= zget I p) ->
  thr <= thr' ->
  forall p, 0 <= p < Z.of_nat n ->
    zget (direct_filter_spec I T S A thr' O') p
      <= zget (direct_filter_spec I T S A thr O) p /\
    zget (cut_first_filter_spec I T S A thr' O') p
      <= zget (cut_first_filter_spec I T S A thr O) p.
Proof.
  intros Htree LO LO' Hmono Hnn Hthr.
  destruct (tree_inputs_spec _ _ _ Htree) as (LT & _ & _ & _).
  destruct (direct_fix I T S A n thr O Htree LO) as (_ & Hdr & Hd).
  destruct (direct_fix I T S A n thr' O' Htree LO') as (_ & Hdr' & Hd').
  destruct (cut_first_fix I T S A n thr O Htree LO) as (_ & Hcr & Hc).
  destruct (cut_first_fix I T S A n thr' O' Htree LO') as (_ & Hcr' & Hc').
  pose proof (root_range T S n Htree) as Hroot.
  apply (pixel_ind T S n Htree).
  - rewrite Hdr, Hdr', Hcr, Hcr'. unfold root_value. specialize (Hnn _ Hroot).
    destruct (Z.ltb_spec (zget A (zget S 0)) thr);
      destruct (Z.ltb_spec (zget A (zget S 0)) thr'); lia.
  - intros p Hp Hne [IHd IHc].
    rewrite (Hd p Hp Hne), (Hd' p Hp Hne), (Hc p Hp Hne), (Hc' p Hp Hne).
    pose proof (tree_mono_spec I T p Hmono ltac:(lia)) as Hm.
    assert (Hq : 0 <= zget T p < Z.of_nat n)
      by (apply (props_parent_range T S n O Htree LO); exact Hp).
    destruct (outputs_le_image I T S A n thr' O' Htree LO' Hmono Hnn _ Hq) as [Hd1 Hc1].
    unfold direct_rule, cut_first_rule.
    destruct (zget I p =? zget I (zget T p)); [by split|].
    destruct (Z.ltb_spec (zget A p) thr); destruct (Z.ltb_spec (zget A p) thr');
      try lia; simpl.
    + by split.
    + split; [lia|].
      destruct (Z.ltb_spec (zget (cut_first_filter_spec I T S A thr O) (zget T p))
                  (zget I (zget T p))); lia.
    + split; [lia|].
      destruct (Z.ltb_spec (zget (cut_first_filter_spec I T S A thr O) (zget T p))
                  (zget I (zget T p)));
        destruct (Z.ltb_spec (zget (cut_first_filter_spec I T S A thr' O') (zget T p))
                    (zget I (zget T p))); lia.
Qed.

(** The outputs do not depend on what the output array held. *)
Lemma outputs_overwritten (I T S A : list Z) (n : nat) (thr : Z) (O O' : list Z) :
  tree_inputs n T S = true -> length O = n -> length O' = n ->
  direct_filter_spec I T S A thr O = direct_filter_spec I T S A thr O' /\
  cut_first_filter_spec I T S A thr O = cut_first_filter_spec I T S A thr O'.
Proof.
  intros Htree LO LO'.
  destruct (direct_fix I T S A n thr O Htree LO) as (L1 & Hdr & Hd).
  destruct (direct_fix I T S A n thr O' Htree LO') as (L1' & Hdr' & Hd').
  destruct (cut_first_fix I T S A n thr O Htree LO) as (L2 & Hcr & Hc).
  destruct (cut_first_fix I T S A n thr O' Htree LO') as (L2' & Hcr' & Hc').
  split; apply list_eq_zget; try congruence.
  - rewrite L1. apply (pixel_ind T S n Htree); [congruence|].
    intros p Hp Hne IH. rewrite (Hd p Hp Hne), (Hd' p Hp Hne).
    by apply direct_rule_local.
  - rewrite L2. apply (pixel_ind T S n Htree); [congruence|].
    intros p Hp Hne IH. rewrite (Hc p Hp Hne), (Hc' p Hp Hne).
    by apply cut_first_rule_local.
Qed.

Lemma filter_inputs_output (n : nat) (I O O' T S A : list Z) :
  filter_inputs n I O T S A = true -> length O' = n ->
  filter_inputs n I O' T S A = true.
Proof.
  unfold filter_inputs. cbn [forallb]. rewrite !andb_true_iff, !Nat.eqb_eq.
  intros H L. rewrite L. tauto.
Qed.

Lemma filter_call_output (h : heap) (image output parent sorted_indices attribute : buf)
    (I O O' T S A : list Z) :
  filter_call h image output parent sorted_indices attribute I O T S A ->
  filter_call (<[output := O']> h) image output parent sorted_indices attribute
    I O' T S A.
Proof.
  intros (Hi & Ho & Ht & Hs & Ha & N1 & N2 & N3 & N4).
  assert (Hlt : (output < length h)%nat) by (by eapply lookup_lt_Some).
  repeat split; try assumption; try (by rewrite list_lookup_insert_ne).
  by apply list_lookup_insert_eq.
Qed.

Lemma bheap_lookup_other (h : heap) (parent : buf) (par zp : list Z) (b : buf)
    (l : list Z) :
  h !! b = Some l -> b <> parent -> bheap h parent par zp !! b = Some l.
Proof.
  intros Hb Hne. unfold bheap. rewrite list_lookup_insert_ne by done.
  by apply lookup_app_l_Some.
Qed.

Lemma bheap_lookup_parent (h : heap) (parent : buf) (par zp : list Z) :
  (parent < length h)%nat -> bheap h parent par zp !! parent = Some par.
Proof.
  intros Hlt. unfold bheap. apply list_lookup_insert_eq.
  rewrite length_app. lia.
Qed.

Lemma length_bheap (h : heap) (parent : buf) (par zp : list Z) :
  length (bheap h parent par zp) = Datatypes.S (length h).
Proof. unfold bheap. rewrite length_insert, length_app. simpl. lia. Qed.

(** For an attribute that does not increase from parent to child the two
    filters leave the same heap. *)
Lemma filters_agree_increasing (I O T S A : list Z) (n : nat) (thr : Z)
    (h : heap) (image output parent sorted_indices attribute : buf) :
  filter_call h image output parent sorted_indices attribute I O T S A ->
  filter_inputs n I O T S A = true ->
  tree_inputs n T S = true ->
  attr_increasing A T = true ->
  _cut_first_filter image output parent sorted_indices attribute thr h
  = _direct_filter image output parent sorted_indices attribute thr h.
Proof.
  intros Hcall Hin Htree Hinc.
  destruct (filter_inputs_spec _ _ _ _ _ _ Hin) as (LI & LO & _).
  rewrite (direct_filter_run _ _ _ _ _ _ I O T S A n thr Hcall Hin).
  rewrite (cut_first_filter_run _ _ _ _ _ _ I O T S A n thr Hcall Hin).
  do 2 f_equal.
  destruct (cut_first_fix I T S A n thr O Htree LO) as (Lc & _).
  destruct (direct_fix I T S A n thr O Htree LO) as (Ld & _).
  apply list_eq_zget; [congruence|]. rewrite Lc. intros p Hp.
  apply (cut_first_eq_direct I T S A n thr O Htree LO Hinc p Hp).
Qed.

(** On a line the table of [offsets_to_points] is the list of the offsets. *)
Lemma offsets_to_points_line (offsets : list Z) (n : Z) (points : list (list Z)) :
  0 < n -> forallb (representable int32) offsets = true ->
  offsets_to_points offsets [n] = Ok points ->
  points = (fun o => [o]) <$> offsets.
Proof.
  intros Hn Hrep Hok.
  destruct (offsets_to_points_ravel offsets [n] points) as [HL Hrows];
    [by repeat constructor | exact Hrep | exact Hok |].
  apply list_eq. intros i. rewrite list_lookup_fmap.
  destruct (offsets !! i) as [o|] eqn:Ho.
  - destruct (lookup_lt_is_Some_2 points i) as [row Hrow];
      [rewrite HL; by eapply lookup_lt_Some|].
    rewrite Hrow. simpl. destruct (Hrows i o row Ho Hrow) as [Lr Hr].
    destruct row as [|c [|c' row]]; try discriminate.
    unfold ravel in Hr. simpl in Hr. do 2 f_equal. lia.
  - simpl. apply lookup_ge_None. rewrite HL. by apply lookup_ge_None.
Qed.

(** The coordinates of a raveled index. *)
Lemma unravel_pair (H W q r : Z) :
  0 <= q < H -> 0 <= r < W -> unravel (q * W + r) [H; W] = [q; r].
Proof.
  intros Hq Hr.
  assert (Hins : inside [H; W] [q; r] = true).
  { apply inside_spec. repeat constructor; lia. }
  rewrite <- (unravel_ravel [H; W] [q; r] Hins). f_equal.
  unfold ravel. simpl. lia.
Qed.

(** The table for the four nearest neighbours in two dimensions. *)
Lemma offsets_to_points_four (H W : Z) :
  3 <= H -> 2 <= W -> 2 * W < 2 ^ 31 ->
  offsets_to_points [- W; W; -1; 1] [H; W]
  = Ok [[-1; 0]; [1; 0]; [-1; W - 1]; [0; 1]].
Proof.
  intros HH HW Hsmall.
  assert (Hmin : np_min [- W; W; -1; 1] = Some (- W)).
  { unfold np_min. simpl. f_equal. lia. }
  rewrite (offsets_to_points_eq _ _ _ Hmin).
  assert (Hneg : neg_shift_of [- W; W; -1; 1] = W).
  { unfold neg_shift_of. rewrite Hmin. simpl. rewrite Z.opp_involutive.
    apply wrap32_small. lia. }
  assert (Hsh : forall o, - W <= o <= W -> shifted [- W; W; -1; 1] o = o + W).
  { intros o Ho. unfold shifted. rewrite Hneg. apply wrap32_small. lia. }
  assert (Hprod : prod [H; W] = H * W) by (unfold prod; simpl; lia).
  assert (Hok : forall v, 0 <= v <= 2 * W -> index_ok [H; W] v = true).
  { intros v Hv. apply index_ok_spec. rewrite Hprod. nia. }
  rewrite Hneg, (Hok W) by lia. cbn [forallb].
  rewrite !Hsh by lia. rewrite !Hok by lia. cbn [andb fmap list_fmap].
  unfold delta_row. rewrite Hneg, !Hsh by lia.
  assert (U : forall v q r, v = q * W + r -> 0 <= q < H -> 0 <= r < W ->
            unravel v [H; W] = [q; r]).
  { intros v q r -> Hq Hr. by apply unravel_pair. }
  rewrite (U W 1 0), (U (- W + W) 0 0), (U (W + W) 2 0), (U (-1 + W) 0 (W - 1)),
    (U (1 + W) 1 1) by lia.
  simpl. rewrite ?Z.sub_0_r. reflexivity.
Qed.

Lemma valid_coordinate_inside (shape coordinates : list Z) (index : Z) :
  0 <= index < prod shape -> length coordinates = length shape ->
  _is_valid_coordinate index coordinates shape
  = Ok (inside shape (zip_with Z.add (unravel index shape) coordinates)).
Proof.
  intros Hi Lc. unfold _is_valid_coordinate. rewrite np_unravel_index_eq.
  rewrite (proj2 (index_ok_spec shape index) Hi). simpl.
  apply valid_loop_inside; [apply length_unravel | exact Lc].
Qed.

(** With that table the pixel in the first column of the second row has
    its neighbour to the left accepted, in the last column of the row
    above. *)
Lemma four_neighbours_left (H W : Z) :
  3 <= H -> 2 <= W ->
  _is_valid_coordinate W [-1; W - 1] [H; W] = Ok true /\
  grid_neighbor [H; W] W [0; -1] = None.
Proof.
  intros HH HW.
  assert (Hprod : prod [H; W] = H * W) by (unfold prod; simpl; lia).
  assert (HU : unravel W [H; W] = [1; 0]).
  { rewrite <- (unravel_pair H W 1 0) by lia. f_equal. lia. }
  split.
  - rewrite valid_coordinate_inside; [|rewrite Hprod; nia|reflexivity].
    rewrite HU. f_equal. apply inside_spec. simpl. repeat constructor; lia.
  - unfold grid_neighbor. rewrite HU. simpl.
    unfold inside. simpl. by rewrite andb_false_r.
Qed.

(** * The claims about the filters and the area attribute *)

(** C2. [_direct_filter] handles the root first ([output[root]] is 0 when
    [attribute[root] < threshold] and [I[root]] otherwise) and then every
    non-root pixel [p] in ascending sorted order, with [q = parent[p]]:
    [output[q]] when [I[p] = I[q]], else [output[q]] when
    [attribute[p] < threshold], else [I[p]].  On a call with arrays of equal
    length that hold pixel indices, and an output buffer of its own, the
    function returns normally and the output buffer holds what the
    procedure [direct_filter_spec] computes. *)
Theorem direct_filter_refines (h : heap)
    (image output parent sorted_indices attribute : buf)
    (I O T S A : list Z) (n : nat) (thr : Z) :
  filter_call h image output parent sorted_indices attribute I O T S A ->
  filter_inputs n I O T S A = true ->
  _direct_filter image output parent sorted_indices attribute thr h
  = (Ok tt, <[output := direct_filter_spec I T S A thr O]> h).
Proof. intros Hcall Hin. by apply (direct_filter_run h _ _ _ _ _ I O T S A n). Qed.

Lemma direct_filter_refines_witness :
  _direct_filter 0%nat 1%nat 2%nat 3%nat 4%nat 3 ex_heap
  = (Ok tt, <[1%nat := direct_filter_spec ex_image ex_parent ex_sorted ex_area 3 ex_output]>
              ex_heap).
Proof.
  apply (direct_filter_refines ex_heap 0%nat 1%nat 2%nat 3%nat 4%nat
           ex_image ex_output ex_parent ex_sorted ex_area 8 3).
  - repeat split; (reflexivity || lia).
  - reflexivity.
Defined.

(** C3. [_cut_first_filter] handles the root in the same way and then every
    non-root pixel [p] in ascending sorted order, with [q = parent[p]]:
    [output[q]] when [I[p] = I[q]], else [output[q]] when
    [attribute[p] < threshold] or [output[q] < I[q]], else [I[p]]; the
    output buffer holds what [cut_first_filter_spec] computes.  When
    [output[q] < I[q]] the rule gives [output[q]], so that in a well-formed
    tree every pixel below a pruned ancestor takes the ancestor's output
    and none is above it. *)
Theorem cut_first_filter_refines (h : heap)
    (image output parent sorted_indices attribute : buf)
    (I O T S A : list Z) (n : nat) (thr : Z) :
  filter_call h image output parent sorted_indices attribute I O T S A ->
  filter_inputs n I O T S A = true ->
  tree_inputs n T S = true ->
  tree_mono I T = true ->
  _cut_first_filter image output parent sorted_indices attribute thr h
  = (Ok tt, <[output := cut_first_filter_spec I T S A thr O]> h) /\
  (forall out p q, zget out q < zget I q ->
     cut_first_rule I A thr out p q = zget out q) /\
  (forall k x, 0 <= x < Z.of_nat n ->
     zget (cut_first_filter_spec I T S A thr O) (ancestor T k x)
       < zget I (ancestor T k x) ->
     zget (cut_first_filter_spec I T S A thr O) x
       = zget (cut_first_filter_spec I T S A thr O) (ancestor T k x) /\
     zget (cut_first_filter_spec I T S A thr O) x
       <= zget (cut_first_filter_spec I T S A thr O) (ancestor T k x)).
Proof.
  intros Hcall Hin Htree Hmono.
  destruct (filter_inputs_spec _ _ _ _ _ _ Hin) as (_ & LO & _).
  split; [by apply (cut_first_filter_run h _ _ _ _ _ I O T S A n)|]. split.
  - intros out p q Hlt. unfold cut_first_rule.
    destruct (zget I p =? zget I q); [reflexivity|].
    apply Z.ltb_lt in Hlt. by rewrite Hlt, orb_true_r.
  - intros k x Hx Hpruned.
    rewrite (cut_first_pruned I T S A n thr O Htree LO Hmono k x Hx Hpruned).
    split; [reflexivity | lia].
Qed.

Lemma cut_first_filter_refines_witness :
  _cut_first_filter 0%nat 1%nat 2%nat 3%nat 4%nat 3 ex_heap
  = (Ok tt, <[1%nat := cut_first_filter_spec ex_image ex_parent ex_sorted ex_area 3 ex_output]>
              ex_heap).
Proof.
  apply (cut_first_filter_refines ex_heap 0%nat 1%nat 2%nat 3%nat 4%nat
           ex_image ex_output ex_parent ex_sorted ex_area 8 3).
  - repeat split; (reflexivity || lia).
  - reflexivity.
  - reflexivity.
  - reflexivity.
Defined.

(** C4. [_compute_area] returns a new array that is 1 everywhere and then
    accumulated by [A[parent[p]] += A[p]] over the sorted indices in
    reverse ([area_spec]); on a well-formed tree [A[p]] is the number of
    pixels of the subtree rooted at [p], for every pixel [p], and
    [A[root]] is the number of pixels, for [root = sorted_indices[0]]. *)
Theorem compute_area_subtree_sizes (h : heap) (image parent sorted_indices : buf)
    (I T S : list Z) (n : nat) :
  area_call h image parent sorted_indices I T S ->
  area_inputs n I T S = true ->
  tree_inputs n T S = true ->
  _compute_area image parent sorted_indices h
  = (Ok (length h), h ++ [area_spec n T S]) /\
  zget (area_spec n T S) (zget S 0) = Z.of_nat n /\
  forall p, 0 <= p < Z.of_nat n -> zget (area_spec n T S) p = subtree_size T n p.
Proof.
  intros Hcall Hin Htree.
  destruct (tree_inputs_spec _ _ _ Htree) as (_ & Hperm & Hord & _).
  split; [by apply (compute_area_run h _ _ _ I)|].
  by destruct (area_spec_subtree T S n Hperm Hord) as (_ & Hroot & Hsub).
Qed.

Lemma compute_area_subtree_sizes_witness :
  _compute_area 0%nat 2%nat 3%nat ex_heap4
  = (Ok 4%nat, ex_heap4 ++ [area_spec 8 ex_parent ex_sorted]) /\
  zget (area_spec 8 ex_parent ex_sorted) (zget ex_sorted 0) = 8 /\
  forall p, 0 <= p < 8 ->
    zget (area_spec 8 ex_parent ex_sorted) p = subtree_size ex_parent 8 p.
Proof.
  apply (compute_area_subtree_sizes ex_heap4 0%nat 2%nat 3%nat ex_image ex_parent ex_sorted 8).
  - repeat split; reflexivity.
  - reflexivity.
  - reflexivity.
Defined.

(** C5. With threshold 0 and the area attribute that [_compute_area]
    returns, both filters write the input image: on a well-formed tree the
    output buffer holds [I] after either filter. *)
Theorem threshold_zero_identity (h : heap) (image output parent sorted_indices : buf)
    (I O T S : list Z) (n : nat) :
  pipeline_call h image output parent sorted_indices I O T S ->
  length I = n -> length O = n ->
  tree_inputs n T S = true ->
  _compute_area image parent sorted_indices h
  = (Ok (length h), h ++ [area_spec n T S]) /\
  _direct_filter image output parent sorted_indices (length h) 0
    (h ++ [area_spec n T S])
  = (Ok tt, <[output := I]> (h ++ [area_spec n T S])) /\
  _cut_first_filter image output parent sorted_indices (length h) 0
    (h ++ [area_spec n T S])
  = (Ok tt, <[output := I]> (h ++ [area_spec n T S])).
Proof.
  intros Hcall LI LO Htree.
  pose proof (pipeline_filter_call h _ _ _ _ I O T S (area_spec n T S) Hcall) as Hfc.
  pose proof (pipeline_filter_inputs I O T S n LI LO Htree) as Hfi.
  assert (Hid : forall p, 0 <= p < Z.of_nat n ->
            zget (direct_filter_spec I T S (area_spec n T S) 0 O) p = zget I p /\
            zget (cut_first_filter_spec I T S (area_spec n T S) 0 O) p = zget I p).
  { apply (nothing_pruned I T S _ n 0 O Htree LO).
    intros p Hp. pose proof (area_spec_ge_1 n T S p Hp). lia. }
  destruct (direct_fix I T S (area_spec n T S) n 0 O Htree LO) as (Ld & _).
  destruct (cut_first_fix I T S (area_spec n T S) n 0 O Htree LO) as (Lc & _).
  split; [by apply (pipeline_area_run h _ output _ _ I O)|]. split.
  - rewrite (direct_filter_run _ _ _ _ _ _ I O T S _ n 0 Hfc Hfi).
    do 2 f_equal. apply list_eq_zget; [congruence|].
    intros p Hp. apply Hid. lia.
  - rewrite (cut_first_filter_run _ _ _ _ _ _ I O T S _ n 0 Hfc Hfi).
    do 2 f_equal. apply list_eq_zget; [congruence|].
    intros p Hp. apply Hid. lia.
Qed.

Lemma threshold_zero_identity_witness :
  _compute_area 0%nat 2%nat 3%nat ex_heap4
  = (Ok 4%nat, ex_heap4 ++ [area_spec 8 ex_parent ex_sorted]) /\
  _direct_filter 0%nat 1%nat 2%nat 3%nat 4%nat 0
    (ex_heap4 ++ [area_spec 8 ex_parent ex_sorted])
  = (Ok tt, <[1%nat := ex_image]> (ex_heap4 ++ [area_spec 8 ex_parent ex_sorted])) /\
  _cut_first_filter 0%nat 1%nat 2%nat 3%nat 4%nat 0
    (ex_heap4 ++ [area_spec 8 ex_parent ex_sorted])
  = (Ok tt, <[1%nat := ex_image]> (ex_heap4 ++ [area_spec 8 ex_parent ex_sorted])).
Proof.
  apply (threshold_zero_identity ex_heap4 0%nat 1%nat 2%nat 3%nat
           ex_image ex_output ex_parent ex_sorted 8).
  - repeat split; (reflexivity || lia).
  - reflexivity.
  - reflexivity.
  - reflexivity.
Defined.

(** C6. With a threshold above [A[root]], [A] the area attribute that
    [_compute_area] returns, both filters write an all-zero image on a
    well-formed tree. *)
Theorem threshold_above_root_zero (h : heap) (image output parent sorted_indices : buf)
    (I O T S : list Z) (n : nat) (thr : Z) :
  pipeline_call h image output parent sorted_indices I O T S ->
  length I = n -> length O = n ->
  tree_inputs n T S = true ->
  zget (area_spec n T S) (zget S 0) < thr ->
  _compute_area image parent sorted_indices h
  = (Ok (length h), h ++ [area_spec n T S]) /\
  _direct_filter image output parent sorted_indices (length h) thr
    (h ++ [area_spec n T S])
  = (Ok tt, <[output := replicate n 0]> (h ++ [area_spec n T S])) /\
  _cut_first_filter image output parent sorted_indices (length h) thr
    (h ++ [area_spec n T S])
  = (Ok tt, <[output := replicate n 0]> (h ++ [area_spec n T S])).
Proof.
  intros Hcall LI LO Htree Hthr.
  pose proof (pipeline_filter_call h _ _ _ _ I O T S (area_spec n T S) Hcall) as Hfc.
  pose proof (pipeline_filter_inputs I O T S n LI LO Htree) as Hfi.
  assert (Hz : forall p, 0 <= p < Z.of_nat n ->
            zget (direct_filter_spec I T S (area_spec n T S) thr O) p = 0 /\
            zget (cut_first_filter_spec I T S (area_spec n T S) thr O) p = 0).
  { apply (everything_pruned I T S _ n thr O Htree LO).
    intros p Hp. pose proof (area_spec_le_root n T S p Htree Hp). lia. }
  destruct (direct_fix I T S (area_spec n T S) n thr O Htree LO) as (Ld & _).
  destruct (cut_first_fix I T S (area_spec n T S) n thr O Htree LO) as (Lc & _).
  split; [by apply (pipeline_area_run h _ output _ _ I O)|]. split.
  - rewrite (direct_filter_run _ _ _ _ _ _ I O T S _ n thr Hfc Hfi).
    do 2 f_equal. apply list_eq_zget; [by rewrite length_replicate|].
    intros p Hp. rewrite zget_replicate by lia. apply Hz. lia.
  - rewrite (cut_first_filter_run _ _ _ _ _ _ I O T S _ n thr Hfc Hfi).
    do 2 f_equal. apply list_eq_zget; [by rewrite length_replicate|].
    intros p Hp. rewrite zget_replicate by lia. apply Hz. lia.
Qed.

Lemma threshold_above_root_zero_witness :
  _compute_area 0%nat 2%nat 3%nat ex_heap4
  = (Ok 4%nat, ex_heap4 ++ [area_spec 8 ex_parent ex_sorted]) /\
  _direct_filter 0%nat 1%nat 2%nat 3%nat 4%nat 9
    (ex_heap4 ++ [area_spec 8 ex_parent ex_sorted])
  = (Ok tt, <[1%nat := replicate 8 0]> (ex_heap4 ++ [area_spec 8 ex_parent ex_sorted])) /\
  _cut_first_filter 0%nat 1%nat 2%nat 3%nat 4%nat 9
    (ex_heap4 ++ [area_spec 8 ex_parent ex_sorted])
  = (Ok tt, <[1%nat := replicate 8 0]> (ex_heap4 ++ [area_spec 8 ex_parent ex_sorted])).
Proof.
  apply (threshold_above_root_zero ex_heap4 0%nat 1%nat 2%nat 3%nat
           ex_image ex_output ex_parent ex_sorted 8 9).
  - repeat split; (reflexivity || lia).
  - reflexivity.
  - reflexivity.
  - reflexivity.
  - reflexivity.
Defined.

(** C7. On a well-formed tree whose intensities do not increase towards the
    root, and for an attribute that does not increase from parent to child,
    both filters return normally and the output of [_cut_first_filter] is
    pointwise below the output of [_direct_filter]. *)
Theorem cut_first_dominated (h : heap)
    (image output parent sorted_indices attribute : buf)
    (I O T S A : list Z) (n : nat) (thr : Z) :
  filter_call h image output parent sorted_indices attribute I O T S A ->
  filter_inputs n I O T S A = true ->
  tree_inputs n T S = true ->
  tree_mono I T = true ->
  attr_increasing A T = true ->
  fst (_direct_filter image output parent sorted_indices attribute thr h) = Ok tt /\
  fst (_cut_first_filter image output parent sorted_indices attribute thr h) = Ok tt /\
  forall p, 0 <= p < Z.of_nat n ->
    zget (contents (snd (_cut_first_filter image output parent sorted_indices attribute
                           thr h)) output) p
    <= zget (contents (snd (_direct_filter image output parent sorted_indices attribute
                              thr h)) output) p.
Proof.
  intros Hcall Hin Htree Hmono _.
  destruct (filter_inputs_spec _ _ _ _ _ _ Hin) as (_ & LO & _).
  rewrite (direct_filter_run _ _ _ _ _ _ I O T S A n thr Hcall Hin).
  rewrite (cut_first_filter_run _ _ _ _ _ _ I O T S A n thr Hcall Hin).
  split; [reflexivity|]. split; [reflexivity|]. simpl.
  intros p Hp.
  rewrite !(run_output h image output parent sorted_indices attribute I O T S A Hcall).
  by apply (cut_first_le_direct I T S A n thr O Htree LO Hmono).
Qed.

Lemma cut_first_dominated_witness :
  fst (_direct_filter 0%nat 1%nat 2%nat 3%nat 4%nat 3 ex_heap) = Ok tt /\
  fst (_cut_first_filter 0%nat 1%nat 2%nat 3%nat 4%nat 3 ex_heap) = Ok tt /\
  forall p, 0 <= p < 8 ->
    zget (contents (snd (_cut_first_filter 0%nat 1%nat 2%nat 3%nat 4%nat 3 ex_heap)) 1%nat) p
    <= zget (contents (snd (_direct_filter 0%nat 1%nat 2%nat 3%nat 4%nat 3 ex_heap)) 1%nat) p.
Proof.
  apply (cut_first_dominated ex_heap 0%nat 1%nat 2%nat 3%nat 4%nat
           ex_image ex_output ex_parent ex_sorted ex_area 8 3).
  - repeat split; (reflexivity || lia).
  - reflexivity.
  - reflexivity.
  - reflexivity.
  - reflexivity.
Defined.

(** C9. For every integer element type [t]: when the image values are
    representable in [t], both filters return normally on a well-formed
    tree, and every value of the output is the zero of the type or the
    value [I[q]] of some pixel [q]; hence it is representable in [t]. *)
Theorem outputs_in_dtype (t : dtype) (h : heap)
    (image output parent sorted_indices attribute : buf)
    (I O T S A : list Z) (n : nat) (thr : Z) :
  filter_call h image output parent sorted_indices attribute I O T S A ->
  filter_inputs n I O T S A = true ->
  tree_inputs n T S = true ->
  forallb (representable t) I = true ->
  forall filter, filter = _direct_filter \/ filter = _cut_first_filter ->
    fst (filter image output parent sorted_indices attribute thr h) = Ok tt /\
    forall p, 0 <= p < Z.of_nat n ->
      let v := zget (contents (snd (filter image output parent sorted_indices attribute
                                      thr h)) output) p in
      (v = 0 \/ exists q, 0 <= q < Z.of_nat n /\ v = zget I q) /\
      representable t v = true.
Proof.
  intros Hcall Hin Htree Hrep filter Hf.
  destruct (filter_inputs_spec _ _ _ _ _ _ Hin) as (LI & LO & _).
  assert (Hzero : representable t 0 = true) by (by destruct t).
  assert (Himg : forall q, 0 <= q < Z.of_nat n -> representable t (zget I q) = true).
  { intros q Hq. rewrite forallb_forall in Hrep. apply Hrep, list_elem_of_In.
    apply list_elem_of_lookup. exists (Z.to_nat q). apply zget_lookup. lia. }
  pose proof (outputs_from_image I T S A n thr O Htree LO) as Hout.
  destruct Hf as [-> | ->].
  - rewrite (direct_filter_run _ _ _ _ _ _ I O T S A n thr Hcall Hin).
    split; [reflexivity|]. intros p Hp. simpl.
    rewrite (run_output h image output parent sorted_indices attribute I O T S A Hcall).
    destruct (Hout p Hp) as [Hd _]. split; [exact Hd|].
    destruct Hd as [-> | (q & Hq & ->)]; [exact Hzero | by apply Himg].
  - rewrite (cut_first_filter_run _ _ _ _ _ _ I O T S A n thr Hcall Hin).
    split; [reflexivity|]. intros p Hp. simpl.
    rewrite (run_output h image output parent sorted_indices attribute I O T S A Hcall).
    destruct (Hout p Hp) as [_ Hc]. split; [exact Hc|].
    destruct Hc as [-> | (q & Hq & ->)]; [exact Hzero | by apply Himg].
Qed.

Lemma outputs_in_dtype_witness :
  fst (_cut_first_filter 0%nat 1%nat 2%nat 3%nat 4%nat 3 ex_heap) = Ok tt /\
  forall p, 0 <= p < 8 ->
    let v := zget (contents (snd (_cut_first_filter 0%nat 1%nat 2%nat 3%nat 4%nat 3
                                    ex_heap)) 1%nat) p in
    (v = 0 \/ exists q, 0 <= q < 8 /\ v = zget ex_image q) /\
    representable int8 v = true.
Proof.
  apply (outputs_in_dtype int8 ex_heap 0%nat 1%nat 2%nat 3%nat 4%nat
           ex_image ex_output ex_parent ex_sorted ex_area 8 3).
  - repeat split; (reflexivity || lia).
  - reflexivity.
  - reflexivity.
  - reflexivity.
  - right. reflexivity.
Defined.

(** C10, as stated, fails when two arguments share a buffer: with [image]
    and [output] the same buffer, [_direct_filter] changes the image. *)
Lemma aliased_output_changes_image :
  snd (_direct_filter 0%nat 0%nat 1%nat 2%nat 3%nat 3 alias_heap) !! 0%nat
  <> alias_heap !! 0%nat.
Proof. vm_compute. discriminate. Qed.

(** C10, amended.  Both filters write only to the output buffer and
    [_compute_area] only to the new buffer it returns: after a call of a
    filter, whatever its outcome, every buffer other than [output] is
    unchanged, so image, parent, sorted indices and attribute are unchanged
    whenever they do not share the buffer of [output]; after a call of
    [_compute_area] every buffer that existed is unchanged and the returned
    buffer is a new one. *)
Theorem filters_write_only_output (h : heap)
    (image output parent sorted_indices attribute : buf) (thr : Z) (b : buf) :
  b <> output ->
  snd (_direct_filter image output parent sorted_indices attribute thr h) !! b = h !! b /\
  snd (_cut_first_filter image output parent sorted_indices attribute thr h) !! b = h !! b /\
  ((b < length h)%nat ->
   snd (_compute_area image parent sorted_indices h) !! b = h !! b) /\
  (forall a, fst (_compute_area image parent sorted_indices h) = Ok a -> a = length h).
Proof.
  intros Hb. repeat split.
  - destruct (_direct_filter _ _ _ _ _ _ h) as [r h'] eqn:E.
    by apply (direct_filter_writes_only _ _ _ _ _ _ _ _ _ E).
  - destruct (_cut_first_filter _ _ _ _ _ _ h) as [r h'] eqn:E.
    by apply (cut_first_filter_writes_only _ _ _ _ _ _ _ _ _ E).
  - intros Hlt. destruct (_compute_area _ _ _ h) as [r h'] eqn:E.
    by apply (compute_area_fresh _ _ _ _ _ _ E).
  - intros a Ha. destruct (_compute_area _ _ _ h) as [r h'] eqn:E.
    simpl in Ha. subst r. by apply (compute_area_fresh _ _ _ _ _ _ E).
Qed.

Lemma filters_write_only_output_witness :
  snd (_direct_filter 0%nat 1%nat 2%nat 3%nat 4%nat 3 ex_heap) !! 0%nat
  = ex_heap !! 0%nat /\
  snd (_cut_first_filter 0%nat 1%nat 2%nat 3%nat 4%nat 3 ex_heap) !! 0%nat
  = ex_heap !! 0%nat /\
  ((0 < length ex_heap)%nat ->
   snd (_compute_area 0%nat 2%nat 3%nat ex_heap) !! 0%nat = ex_heap !! 0%nat) /\
  (forall a, fst (_compute_area 0%nat 2%nat 3%nat ex_heap) = Ok a -> a = length ex_heap).
Proof.
  apply (filters_write_only_output ex_heap 0%nat 1%nat 2%nat 3%nat 4%nat 3 0%nat). lia.
Defined.

(** * The claim about the neighbourhood resolver *)

(** C8, as stated, fails when the shift itself is not an index of the
    image: for the offsets [1, 2] and the shape [5], [neg_shift] is -1, both
    [o + neg_shift] are in [0, 5), and [offsets_to_points] raises, because
    the centre [unravel(neg_shift)] does not exist. *)
Lemma offsets_to_points_center_rejected :
  forallb (fun o => index_ok [5] (shifted [1; 2] o)) [1; 2] = true /\
  offsets_to_points [1; 2] [5] = Raise ValueError.
Proof. split; reflexivity. Qed.

(** C8, amended.  With [neg_shift = -min(offsets)] and the sums
    [o + neg_shift] taken in [int32] as the code takes them,
    [offsets_to_points] raises numpy's [ValueError] (the specification's
    ShapeMismatch) whenever [neg_shift] or some [o + neg_shift] is outside
    [0, P), [P] the product of the shape; otherwise it returns, for each
    offset in order, the row
    [unravel(o + neg_shift, shape) - unravel(neg_shift, shape)]. *)
Theorem offsets_to_points_result (offsets shape : list Z) (m : Z) :
  np_min offsets = Some m ->
  neg_shift_of offsets = wrap32 (- m) /\
  (index_ok shape (neg_shift_of offsets) = false \/
   (exists o, o ∈ offsets /\ index_ok shape (shifted offsets o) = false) ->
   offsets_to_points offsets shape = Raise ValueError) /\
  (index_ok shape (neg_shift_of offsets) = true ->
   (forall o, o ∈ offsets -> index_ok shape (shifted offsets o) = true) ->
   offsets_to_points offsets shape = Ok (delta_row offsets shape <$> offsets)).
Proof.
  intros Hmin. rewrite (offsets_to_points_eq offsets shape m Hmin).
  split; [unfold neg_shift_of; by rewrite Hmin|]. split.
  - intros [-> | (o & Ho & Hbad)]; [reflexivity|].
    destruct (index_ok shape (neg_shift_of offsets)); [simpl|reflexivity].
    destruct (forallb _ offsets) eqn:E; [|reflexivity].
    rewrite forallb_forall in E. apply list_elem_of_In in Ho.
    rewrite (E o Ho) in Hbad. discriminate.
  - intros -> Hall. simpl.
    assert (E : forallb (fun o => index_ok shape (shifted offsets o)) offsets = true).
    { apply forallb_forall. intros o Ho. by apply Hall, list_elem_of_In. }
    by rewrite E.
Qed.

Lemma offsets_to_points_result_witness :
  neg_shift_of [-1; 1] = wrap32 (- -1) /\
  (index_ok [8] (neg_shift_of [-1; 1]) = false \/
   (exists o, o ∈ [-1; 1] /\ index_ok [8] (shifted [-1; 1] o) = false) ->
   offsets_to_points [-1; 1] [8] = Raise ValueError) /\
  (index_ok [8] (neg_shift_of [-1; 1]) = true ->
   (forall o, o ∈ [-1; 1] -> index_ok [8] (shifted [-1; 1] o) = true) ->
   offsets_to_points [-1; 1] [8] = Ok (delta_row [-1; 1] [8] <$> [-1; 1])).
Proof. apply (offsets_to_points_result [-1; 1] [8] (-1)). reflexivity. Defined.

(** * The builder *)

(** C1, counterexample.  On a line of three pixels of intensities 1, 3, 1
    with the neighbours at the offsets -1 and 1, the inputs satisfy the
    preconditions and [_build_max_tree] writes the parent array [0; 0; 0].
    The pixel 2 and its parent 0 have the same intensity, but they are not
    in the same flat-zone: the only pixel adjacent to 2 is the pixel 1, of
    intensity 3. *)
Lemma build_max_tree_parent_outside_flat_zone :
  build_call line_heap 0 1 2 line_image line_parent line_sorted /\
  grid_inputs 3 line_image line_parent line_sorted
    line_mask line_structure line_shape line_points = true /\
  offsets_to_points line_structure line_shape = Ok line_points /\
  (exists zp,
     _build_max_tree 3 (Some [1]) 0 line_mask line_structure line_shape 1 2 line_heap
     = (Ok tt, bheap line_heap 1 [0; 0; 0] zp)) /\
  zget line_image (zget [0; 0; 0] 2) = zget line_image 2 /\
  ~ grid_flat_zone 3 line_image line_shape line_points 2 0.
Proof.
  split; [repeat split; discriminate|].
  split; [reflexivity|]. split; [reflexivity|].
  split; [eexists; vm_compute; reflexivity|].
  split; [reflexivity|].
  intros Hzone. apply rtc_inv in Hzone as [Heq | (b & [Hadj Hlvl] & _)]; [discriminate|].
  assert (Hb : 0 <= b < 3).
  { unfold grid_adj in Hadj. apply andb_true_iff in Hadj as [Hr _].
    apply andb_true_iff in Hr as [_ Hr]. by apply (in_range_spec 3 b) in Hr. }
  assert (Hcases : b = 0 \/ b = 1 \/ b = 2) by lia.
  destruct Hcases as [-> | [-> | ->]]; vm_compute in Hadj, Hlvl; congruence.
Qed.

(** With neighbours two steps away the pixels of a line fall into two
    sets that no path joins, and the parent array has a root for each: the
    pixel 1 is its own parent and is not the first sorted pixel. *)
Lemma build_max_tree_several_roots :
  grid_inputs 5 pairs_image pairs_parent pairs_sorted pairs_mask [-2; 2] [5]
    [[-2]; [2]] = true /\
  offsets_to_points [-2; 2] [5] = Ok [[-2]; [2]] /\
  exists zp,
    _build_max_tree 5 (Some [1]) 0 pairs_mask [-2; 2] [5] 1 2 pairs_heap
    = (Ok tt, bheap pairs_heap 1 [0; 1; 0; 1; 0] zp).
Proof.
  split; [reflexivity|]. split; [reflexivity|]. eexists. vm_compute. reflexivity.
Qed.

(** With the neighbour to the left alone the two pixels of a line of one
    intensity are adjacent, but neither is visited when the other examines
    it: each is its own parent, and the node has two representatives. *)
Lemma build_max_tree_one_sided :
  offsets_to_points [-1] [2] = Ok [[-1]] /\
  grid_adj 2 [2] [[-1]] 0 1 = true /\
  exists zp,
    _build_max_tree 2 (Some [1]) 0 [0; 0] [-1] [2] 1 2 [[1; 1]; [7; 7]; [0; 1]]
    = (Ok tt, bheap [[1; 1]; [7; 7]; [0; 1]] 1 [0; 1] zp).
Proof.
  split; [reflexivity|]. split; [reflexivity|]. eexists. vm_compute. reflexivity.
Qed.

(** The table of [offsets_to_points] is not always the table of the
    directions.  For the four nearest neighbours on three rows and three
    columns the centre is taken at the coordinates (1, 0) of the index 3,
    and the offset -1 gets the delta (-1, 2) instead of (0, -1).  The
    builder then examines the pixel 2, at (0, 2), as a neighbour of the
    pixel 3, at (1, 0), and writes the parent 3 for the pixel 5, at
    (1, 2): two pixels of intensity 8 that no path of the grid joins in the
    upper level set of 8. *)
Lemma build_max_tree_wrong_deltas :
  grid_inputs 9 square_image square_parent square_sorted square_mask
    four_offsets square_shape four_directions = true /\
  offsets_to_points four_offsets square_shape
  = Ok [[-1; 0]; [1; 0]; [-1; 2]; [0; 1]] /\
  (exists zp,
     _build_max_tree 9 (Some [3; 1]) 0 square_mask four_offsets square_shape 1 2
       square_heap
     = (Ok tt, bheap square_heap 1 [0; 0; 3; 0; 0; 3; 0; 0; 0] zp)) /\
  zget square_image 5 = zget square_image 3 /\
  ~ grid_component 9 square_image square_shape four_directions 8 5 3.
Proof.
  split; [reflexivity|]. split; [reflexivity|].
  split; [eexists; vm_compute; reflexivity|].
  split; [reflexivity|].
  assert (Hclosed : forall a b,
            grid_component 9 square_image square_shape four_directions 8 a b ->
            a = 2 \/ a = 5 -> b = 2 \/ b = 5).
  { induction 1 as [a|a b c (Hadj & _ & Hb) _ IH]; [done|].
    intros Ha. apply IH.
    assert (Hr : 0 <= b < 9).
    { unfold grid_adj in Hadj. apply andb_true_iff in Hadj as [Hr _].
      apply andb_true_iff in Hr as [_ Hr]. by apply (in_range_spec 9 b) in Hr. }
    assert (Hcases : b = 0 \/ b = 1 \/ b = 2 \/ b = 3 \/ b = 4 \/ b = 5 \/
                     b = 6 \/ b = 7 \/ b = 8) by lia.
    destruct Ha as [-> | ->];
      destruct Hcases as [-> | [-> | [-> | [-> | [-> | [-> | [-> | [-> | ->]]]]]]]];
      vm_compute in Hadj, Hb; try congruence; try lia; auto. }
  intros Hc. destruct (Hclosed 5 3 Hc); lia.
Qed.

(** The source reads the name [strides], which nothing binds: as it is
    written the function raises before it writes anything. *)
Lemma build_max_tree_unbound_name (fuel : nat) (image parent sorted_indices : nat)
    (mask structure shape : list Z) (h : list (list Z)) :
  _build_max_tree fuel None image mask structure shape parent sorted_indices h
  = (Raise NameError, h).
Proof. reflexivity. Qed.

(** C1, amended.  The inputs are those of the specification: sorted
    indices that are a permutation in ascending intensity, a mask that is
    zero on every border pixel, offsets that are the raveled forms of the
    directions [D] of a symmetric neighbourhood.  Where the table that
    [offsets_to_points] makes of the offsets is the table [D] of these
    directions, [_build_max_tree] (with a binding for the name [strides],
    and a stack deep enough for one call of [find_root] per pixel) returns
    normally and leaves in [parent] an array [T] with
    - [T[root] = root] for [root = sorted_indices[0]];
    - for every pixel [p]: [I[T[p]] <= I[p]], [T[p]] is canonical (its own
      parent, or brighter than its parent), and whenever
      [I[T[p]] = I[p]], [T[p]] is the representative of [p] and
      [I[T[T[p]]] < I[p]] or [T[p]] is its own parent;
    - the representatives are those of the nodes of the max-tree, one for
      each: two pixels have the same representative exactly when they have
      the same intensity and a path of adjacent pixels of at least that
      intensity joins them on the grid;
    - on a grid that is connected, a pixel that is its own parent is the
      root.
    The representative of a node need not lie in the flat-zone of the
    pixel. *)
Theorem build_max_tree_canonical
    (h : list (list Z)) (image parent sorted_indices : nat)
    (I T0 S mask structure shape strides : list Z) (D : list (list Z))
    (n fuel : nat) :
  build_call h image parent sorted_indices I T0 S ->
  grid_inputs n I T0 S mask structure shape D = true ->
  offsets_to_points structure shape = Ok D ->
  (n <= fuel)%nat ->
  exists T zp,
    _build_max_tree fuel (Some strides) image mask structure shape parent
      sorted_indices h
    = (Ok tt, bheap h parent T zp) /\
    length T = n /\
    zget T (zget S 0) = zget S 0 /\
    (forall p, 0 <= p < Z.of_nat n ->
       0 <= zget T p < Z.of_nat n /\
       zget I (zget T p) <= zget I p /\
       (zget T p = p \/ (pos S (zget T p) < pos S p)%nat) /\
       canonical_at I T (zget T p) /\
       (zget I (zget T p) = zget I p ->
          zget T p = representative I T p /\
          (zget I (zget T (zget T p)) < zget I p \/
           zget T (zget T p) = zget T p))) /\
    (forall p q, 0 <= p < Z.of_nat n -> 0 <= q < Z.of_nat n ->
       representative I T p = representative I T q <->
       zget I p = zget I q /\ grid_component n I shape D (zget I p) p q) /\
    ((forall x, 0 <= x < Z.of_nat n ->
        grid_component n I shape D (zget I (zget S 0)) (zget S 0) x) ->
     forall p, 0 <= p < Z.of_nat n -> zget T p = p -> p = zget S 0).
Proof.
  intros Hcall Hgrid Hpoints Hfuel.
  pose proof (grid_build_inputs n I T0 S mask structure shape D Hgrid Hpoints) as Hin.
  destruct (build_run h image parent sorted_indices I T0 S mask structure shape n
              D fuel Hcall Hin Hpoints Hfuel strides) as (zp & Hrun & _).
  destruct (build_par_tree I T0 S mask structure shape n D Hin Hpoints)
    as (LT & Hroot & _).
  exists (build_par n I mask structure shape D S), zp.
  split; [exact Hrun|]. split; [exact LT|]. split; [exact Hroot|].
  split; [|split].
  - intros p Hp.
    destruct (grid_tree_pixel n I T0 S mask structure shape D Hgrid Hpoints p Hp)
      as (Hr & Hle & Hord & Hcan & _).
    repeat split; try assumption; try apply Hr.
    + unfold representative.
      destruct (Z.eqb_spec (zget (build_par n I mask structure shape D S) p) p)
        as [Heq|_]; [by rewrite Heq|].
      destruct (Z.ltb_spec (zget I (zget (build_par n I mask structure shape D S) p))
                  (zget I p)); [lia | reflexivity].
    + destruct Hcan as [Hfix|Hlt]; [by right | left; lia].
  - intros p q Hp Hq.
    exact (grid_tree_nodes n I T0 S mask structure shape D Hgrid Hpoints p q Hp Hq).
  - exact (grid_tree_root n I T0 S mask structure shape D Hgrid Hpoints).
Qed.

Lemma build_max_tree_canonical_witness :
  exists T zp,
    _build_max_tree 9 (Some [3; 1]) 0 square_mask eight_offsets square_shape 1 2
      square_heap
    = (Ok tt, bheap square_heap 1 T zp) /\
    length T = 9%nat /\
    zget T (zget square_sorted 0) = zget square_sorted 0 /\
    (forall p, 0 <= p < Z.of_nat 9 ->
       0 <= zget T p < Z.of_nat 9 /\
       zget square_image (zget T p) <= zget square_image p /\
       (zget T p = p \/ (pos square_sorted (zget T p) < pos square_sorted p)%nat) /\
       canonical_at square_image T (zget T p) /\
       (zget square_image (zget T p) = zget square_image p ->
          zget T p = representative square_image T p /\
          (zget square_image (zget T (zget T p)) < zget square_image p \/
           zget T (zget T p) = zget T p))) /\
    (forall p q, 0 <= p < Z.of_nat 9 -> 0 <= q < Z.of_nat 9 ->
       representative square_image T p = representative square_image T q <->
       zget square_image p = zget square_image q /\
       grid_component 9 square_image square_shape eight_directions
         (zget square_image p) p q) /\
    ((forall x, 0 <= x < Z.of_nat 9 ->
        grid_component 9 square_image square_shape eight_directions
          (zget square_image (zget square_sorted 0)) (zget square_sorted 0) x) ->
     forall p, 0 <= p < Z.of_nat 9 -> zget T p = p -> p = zget square_sorted 0).
Proof.
  apply (build_max_tree_canonical square_heap 0 1 2 square_image square_parent
           square_sorted square_mask eight_offsets square_shape [3; 1]
           eight_directions 9 9).
  - repeat split; discriminate.
  - reflexivity.
  - reflexivity.
  - lia.
Defined.

(** * Further properties of the module *)

(** ** [find_root] *)

(** X1. On a forest (every pixel its own parent or the child of a pixel
    before it in [S]) and with a stack deeper than the position of the
    pixel, [find_root] returns the root of the pixel, its [n]-th ancestor.
    It changes only the array it is given: afterwards the pixel points to
    its root, and every pixel has the root it had. *)
Theorem find_root_compresses (S zp : list Z) (n fuel : nat)
    (h : list (list Z)) (b : nat) (x : Z) :
  is_perm n S = true -> forest S n zp = true -> h !! b = Some zp ->
  0 <= x < Z.of_nat n -> (pos S x < fuel)%nat ->
  exists zp',
    find_root fuel b x h = (Ok (ancestor zp n x), <[b := zp']> h) /\
    length zp' = n /\
    zget zp (ancestor zp n x) = ancestor zp n x /\
    zget zp' x = ancestor zp n x /\
    forall y, 0 <= y < Z.of_nat n -> ancestor zp' n y = ancestor zp n y.
Proof.
  intros Hperm Hf Hb Hx Hfuel.
  pose proof (forest_par_inv S n zp Hperm Hf) as Hpar.
  assert (Hlt : (b < length h)%nat) by (by eapply lookup_lt_Some).
  apply (S_range S n Hperm) in Hx.
  pose proof (wp_find_root_buffer S n Hperm zp b h Hpar Hlt fuel zp x
                (zpar_inv_refl S n zp Hpar) Hx Hfuel) as Hwp.
  rewrite (list_insert_id h b zp Hb) in Hwp.
  apply wp_run in Hwp as (r & h' & Hrun & -> & zp' & -> & Hz & Hzx).
  exists zp'. split; [exact Hrun|]. split; [apply Hz|].
  split; [apply (par_inv_root S n 0 zp Hperm Hpar x Hx); lia|].
  split; [exact Hzx|].
  intros y Hy. apply (zpar_inv_roots S n Hperm zp zp' Hpar Hz).
  by apply (S_range S n Hperm).
Qed.

Lemma find_root_compresses_witness :
  exists zp',
    find_root 4 0 3 [chain_parent] = (Ok (ancestor chain_parent 4 3), <[0%nat := zp']> [chain_parent]) /\
    length zp' = 4%nat /\
    zget chain_parent (ancestor chain_parent 4 3) = ancestor chain_parent 4 3 /\
    zget zp' 3 = ancestor chain_parent 4 3 /\
    forall y, 0 <= y < Z.of_nat 4 -> ancestor zp' 4 y = ancestor chain_parent 4 y.
Proof.
  apply (find_root_compresses chain_sorted chain_parent 4 4 [chain_parent] 0 3).
  - reflexivity.
  - reflexivity.
  - reflexivity.
  - lia.
  - simpl. lia.
Defined.

(** X2. Whatever the array holds, a value that [find_root] returns is its
    own parent in the array that the call leaves. *)
Theorem find_root_returns_a_root (fuel : nat) (b : nat) :
  forall (x : Z) (h : list (list Z)) (r : Z) (h' : list (list Z)),
    find_root fuel b x h = (Ok r, h') -> load b r h' = (Ok r, h').
Proof.
  induction fuel as [|fuel IH]; intros x h r h' Hrun; [discriminate|].
  simpl in Hrun. unfold bind in Hrun at 1.
  destruct (load b x h) as [[v|e] h0] eqn:Hl; [|discriminate].
  pose proof (load_heap b x h _ _ Hl) as ->.
  destruct (Z.eqb_spec v x) as [Heq|Hne]; [subst v|].
  - unfold bind, ret in Hrun. rewrite Hl in Hrun.
    injection Hrun as <- <-. exact Hl.
  - unfold bind in Hrun. rewrite Hl in Hrun.
    destruct (find_root fuel b v h) as [[r1|e] h1] eqn:Hrec; [|discriminate].
    pose proof (IH v h r1 h1 Hrec) as Hfix.
    destruct (store b x r1 h1) as [[[]|e] h2] eqn:Hst; [|discriminate].
    destruct (load b x h2) as [[r2|e] h3] eqn:Hl2; [|discriminate].
    injection Hrun as <- <-.
    pose proof (load_heap b x h2 _ _ Hl2) as ->.
    revert Hst Hl2 Hfix. unfold store, load.
    destruct (py_index (length (contents h1 b)) x) as [ix|] eqn:Hix; [|discriminate].
    intros [= <-].
    destruct (py_index (length (contents h1 b)) r1) as [ir|] eqn:Hir; [|discriminate].
    pose proof (py_index_lt _ _ _ Hix) as Hixlt.
    pose proof (py_index_lt _ _ _ Hir) as Hirlt.
    assert (Hb : (b < length h1)%nat).
    { destruct (decide (b < length h1)%nat) as [?|Hn]; [done|].
      unfold contents in Hixlt. rewrite lookup_ge_None_2 in Hixlt by lia.
      simpl in Hixlt. lia. }
    rewrite contents_insert_eq by done. rewrite length_insert, Hix.
    rewrite list_lookup_insert_eq by done. intros [= <-].
    rewrite Hir. intros Hr1.
    destruct (decide (ix = ir)) as [->|Hd].
    + by rewrite list_lookup_insert_eq.
    + rewrite list_lookup_insert_ne by done.
      destruct (contents h1 b !! ir) as [w|] eqn:Hw; [|discriminate].
      injection Hr1 as ->. reflexivity.
Qed.

Lemma find_root_returns_a_root_witness :
  load 1 0 (snd (find_root 8 1 2 ex_forest_heap))
  = (Ok 0, snd (find_root 8 1 2 ex_forest_heap)).
Proof.
  apply (find_root_returns_a_root 8 1 2 ex_forest_heap 0
           (snd (find_root 8 1 2 ex_forest_heap))).
  vm_compute. reflexivity.
Defined.

(** X3. In an array of pixel indices without a pixel that is its own parent
    the recursion of [find_root] does not end: whatever the depth of
    stack the call does not return a value, and the array is as it was. *)
Theorem find_root_needs_a_root (zp : list Z) (b : nat) (h : list (list Z))
    (fuel : nat) (x : Z) :
  h !! b = Some zp ->
  forallb (fun y => in_range (length zp) (zget zp y) && negb (zget zp y =? y))
    (seqZ 0 (Z.of_nat (length zp))) = true ->
  0 <= x < Z.of_nat (length zp) ->
  find_root fuel b x h = (Raise RecursionError, h).
Proof.
  intros Hb Hall Hx. apply (find_root_no_root zp b h Hb); [|exact Hx].
  intros y Hy. rewrite forallb_forall in Hall.
  assert (Hin : In y (seqZ 0 (Z.of_nat (length zp))))
    by (apply list_elem_of_In, elem_of_seqZ; lia).
  apply Hall, andb_true_iff in Hin as [Hr Hne].
  apply in_range_spec in Hr. apply negb_true_iff, Z.eqb_neq in Hne. by split.
Qed.

Lemma find_root_needs_a_root_witness :
  find_root 50 0 0 [[1; 2; 0]] = (Raise RecursionError, [[1; 2; 0]]).
Proof.
  apply (find_root_needs_a_root [1; 2; 0] 0 [[1; 2; 0]] 50 0).
  - reflexivity.
  - reflexivity.
  - simpl. lia.
Defined.

(** X4. [find_root] writes to the array it is given and to nothing else,
    whatever its outcome. *)
Theorem find_root_writes_its_array (fuel : nat) (b b' : nat) (x : Z)
    (h : list (list Z)) :
  b' <> b ->
  snd (find_root fuel b x h) !! b' = h !! b' /\
  length (snd (find_root fuel b x h)) = length h.
Proof.
  intros Hne. destruct (find_root fuel b x h) as [r h'] eqn:Hrun.
  destruct (find_root_writes_only b fuel x h r h' Hrun) as [HL Hkeep].
  split; [by apply Hkeep | exact HL].
Qed.

Lemma find_root_writes_its_array_witness :
  snd (find_root 8 1 2 ex_forest_heap) !! 0%nat = ex_forest_heap !! 0%nat /\
  length (snd (find_root 8 1 2 ex_forest_heap)) = length ex_forest_heap.
Proof.
  apply (find_root_writes_its_array 8 1 0 2 ex_forest_heap). lia.
Defined.

(** ** [canonize] *)

(** X5. On a forest over sorted indices in ascending intensity, in a
    parent buffer of its own, [canonize] returns normally and changes only
    the parent array.  In the new array the parent of every pixel is
    canonical (its own parent, or brighter than its parent) and has the
    intensity of the old parent; a pixel is its own parent exactly when it
    was; and every pixel has the root it had. *)
Theorem canonize_on_forest (h : list (list Z)) (image parent sorted_indices : nat)
    (I par S : list Z) (n : nat) :
  h !! image = Some I -> h !! parent = Some par -> h !! sorted_indices = Some S ->
  parent <> image -> parent <> sorted_indices ->
  length I = n -> is_perm n S = true -> ascending I S = true ->
  forest S n par = true ->
  exists T,
    canonize image parent sorted_indices h = (Ok tt, <[parent := T]> h) /\
    length T = n /\
    forall x, 0 <= x < Z.of_nat n ->
      canonical_at I T (zget T x) /\
      zget I (zget T x) = zget I (zget par x) /\
      (zget T x = x <-> zget par x = x) /\
      ancestor T n x = ancestor par n x.
Proof.
  intros Hi Hp Hs N1 N2 LI Hperm Hasc Hf.
  pose proof (forest_par_inv S n par Hperm Hf) as Hpar.
  exists (canonize_par I S par).
  split; [by apply (canonize_run h image parent sorted_indices I par S n)|].
  destruct (canonize_par_canonical I S n Hperm Hasc par Hpar) as [HT Hcan].
  split; [apply HT|]. intros x Hx. apply (S_range S n Hperm) in Hx.
  split; [by apply Hcan|]. split; [|split].
  - rewrite (canonize_par_level_root I S n par Hperm Hasc Hpar x Hx).
    destruct (par_inv_visited S n 0 par Hpar x Hx ltac:(lia)) as [Hq _].
    apply (level_root_in I S n par Hperm Hasc Hpar _ Hq).
  - by apply (canonize_par_roots I S n par Hperm Hasc Hpar).
  - apply (zpar_inv_roots S n Hperm par _ Hpar); [|exact Hx].
    by apply canonize_par_compresses.
Qed.

Lemma canonize_on_forest_witness :
  exists T,
    canonize 0 1 2 ex_forest_heap = (Ok tt, <[1%nat := T]> ex_forest_heap) /\
    length T = 8%nat /\
    forall x, 0 <= x < Z.of_nat 8 ->
      canonical_at ex_image T (zget T x) /\
      zget ex_image (zget T x) = zget ex_image (zget ex_forest x) /\
      (zget T x = x <-> zget ex_forest x = x) /\
      ancestor T 8 x = ancestor ex_forest 8 x.
Proof.
  apply (canonize_on_forest ex_forest_heap 0 1 2 ex_image ex_forest ex_sorted 8);
    try reflexivity; discriminate.
Defined.

(** X6. [canonize] is idempotent: a second run on the array that a first
    run leaves changes nothing. *)
Theorem canonize_twice (h : list (list Z)) (image parent sorted_indices : nat)
    (I par S : list Z) (n : nat) :
  h !! image = Some I -> h !! parent = Some par -> h !! sorted_indices = Some S ->
  parent <> image -> parent <> sorted_indices ->
  length I = n -> is_perm n S = true -> ascending I S = true ->
  forest S n par = true ->
  exists h',
    canonize image parent sorted_indices h = (Ok tt, h') /\
    canonize image parent sorted_indices h' = (Ok tt, h').
Proof.
  intros Hi Hp Hs N1 N2 LI Hperm Hasc Hf.
  pose proof (forest_par_inv S n par Hperm Hf) as Hpar.
  assert (Hlt : (parent < length h)%nat) by (by eapply lookup_lt_Some).
  destruct (canonize_par_canonical I S n Hperm Hasc par Hpar) as [HT _].
  exists (<[parent := canonize_par I S par]> h).
  split; [by apply (canonize_run h image parent sorted_indices I par S n)|].
  rewrite (canonize_run (<[parent := canonize_par I S par]> h) image parent
             sorted_indices I (canonize_par I S par) S n); try assumption.
  - by rewrite list_insert_insert_eq, (canonize_par_idempotent I S n par Hperm Hasc Hpar).
  - by rewrite list_lookup_insert_ne.
  - by apply list_lookup_insert_eq.
  - by rewrite list_lookup_insert_ne.
Qed.

Lemma canonize_twice_witness :
  exists h',
    canonize 0 1 2 ex_forest_heap = (Ok tt, h') /\
    canonize 0 1 2 h' = (Ok tt, h').
Proof.
  apply (canonize_twice ex_forest_heap 0 1 2 ex_image ex_forest ex_sorted 8);
    try reflexivity; discriminate.
Defined.

(** ** The neighbourhood resolver *)

(** X7. For a pixel of the image and one delta per dimension,
    [_is_valid_coordinate] returns whether the coordinates of the pixel
    plus the deltas lie inside the grid. *)
Theorem is_valid_coordinate_inside (shape coordinates : list Z) (index : Z) :
  0 <= index < prod shape -> length coordinates = length shape ->
  _is_valid_coordinate index coordinates shape
  = Ok (inside shape (zip_with Z.add (unravel index shape) coordinates)).
Proof. apply valid_coordinate_inside. Qed.

Lemma is_valid_coordinate_inside_witness :
  _is_valid_coordinate 5 [0; 1] [3; 3]
  = Ok (inside [3; 3] (zip_with Z.add (unravel 5 [3; 3]) [0; 1])) /\
  inside [3; 3] (zip_with Z.add (unravel 5 [3; 3]) [0; 1]) = false.
Proof.
  split; [|reflexivity].
  apply (is_valid_coordinate_inside [3; 3] [0; 1] 5); [vm_compute; split; congruence|].
  reflexivity.
Defined.

(** X8. The table that [offsets_to_points] returns has one row per offset
    and one delta per dimension, and every row ravels, in row-major order,
    to its offset: the deltas lead to the pixel that the offset leads to,
    whatever the centre that was taken. *)
Theorem offsets_to_points_rows (offsets shape : list Z) (points : list (list Z)) :
  forallb (fun d => 0 <? d) shape = true ->
  forallb (representable int32) offsets = true ->
  offsets_to_points offsets shape = Ok points ->
  length points = length offsets /\
  forall i o row, offsets !! i = Some o -> points !! i = Some row ->
    length row = length shape /\ ravel shape row = o.
Proof.
  intros Hd Hrep Hok. apply offsets_to_points_ravel; try assumption.
  apply list.Forall_forall. intros d Hin. rewrite forallb_forall in Hd.
  apply list_elem_of_In, Hd in Hin. lia.
Qed.

Lemma offsets_to_points_rows_witness :
  length [[-1; 0]; [1; 0]; [-1; 2]; [0; 1]] = length four_offsets /\
  forall i o row, four_offsets !! i = Some o ->
    [[-1; 0]; [1; 0]; [-1; 2]; [0; 1]] !! i = Some row ->
    length row = length square_shape /\ ravel square_shape row = o.
Proof.
  apply (offsets_to_points_rows four_offsets square_shape
           [[-1; 0]; [1; 0]; [-1; 2]; [0; 1]]); reflexivity.
Defined.

(** X9. On a line, a table that [offsets_to_points] returns is the list
    of the offsets, each as a delta of one coordinate. *)
Theorem offsets_to_points_on_line (offsets : list Z) (n : Z)
    (points : list (list Z)) :
  0 < n -> forallb (representable int32) offsets = true ->
  offsets_to_points offsets [n] = Ok points ->
  points = (fun o => [o]) <$> offsets.
Proof. apply offsets_to_points_line. Qed.

Lemma offsets_to_points_on_line_witness :
  line_points = (fun o => [o]) <$> line_structure.
Proof.
  apply (offsets_to_points_on_line line_structure 3 line_points).
  - lia.
  - reflexivity.
  - reflexivity.
Defined.

(** X10. For the four nearest neighbours on [H] rows and [W] columns, the
    offsets [-W], [W], [-1] and [1], the centre is taken at the index [W],
    in the first column, and the table gives the offset [-1] the deltas
    [(-1, W - 1)], where the direction is [(0, -1)].  With this row the
    pixel [W] has its neighbour to the left accepted by
    [_is_valid_coordinate], although the grid has no pixel there. *)
Theorem four_neighbours_table (H W : Z) :
  3 <= H -> 2 <= W -> 2 * W < 2 ^ 31 ->
  offsets_to_points [- W; W; -1; 1] [H; W]
  = Ok [[-1; 0]; [1; 0]; [-1; W - 1]; [0; 1]] /\
  _is_valid_coordinate W [-1; W - 1] [H; W] = Ok true /\
  grid_neighbor [H; W] W [0; -1] = None.
Proof.
  intros HH HW Hsmall. split; [by apply offsets_to_points_four|].
  by apply four_neighbours_left.
Qed.

Lemma four_neighbours_table_witness :
  offsets_to_points [- 3; 3; -1; 1] [3; 3]
  = Ok [[-1; 0]; [1; 0]; [-1; 3 - 1]; [0; 1]] /\
  _is_valid_coordinate 3 [-1; 3 - 1] [3; 3] = Ok true /\
  grid_neighbor [3; 3] 3 [0; -1] = None.
Proof.
  apply (four_neighbours_table 3 3); lia.
Defined.

(** ** The helpers on [uint64] *)

(** X11. [uint64_min] and [uint64_max] return their two arguments in
    order: the smaller one and the larger one. *)
Theorem uint64_min_max (a b : Z) :
  uint64_min a b <= uint64_max a b /\
  uint64_min a b + uint64_max a b = a + b /\
  (uint64_min a b = a \/ uint64_min a b = b) /\
  uint64_min a b <= a /\ uint64_min a b <= b /\
  a <= uint64_max a b /\ b <= uint64_max a b.
Proof.
  unfold uint64_min, uint64_max.
  destruct (Z.leb_spec a b); destruct (Z.geb_spec a b); lia.
Qed.

(** ** [_compute_area] *)

(** X12. On a well-formed tree the area that [_compute_area] returns does
    not increase from a pixel to its child, and lies between 1 and the
    number of pixels. *)
Theorem compute_area_increasing (h : list (list Z)) (image parent sorted_indices : nat)
    (I T S : list Z) (n : nat) :
  area_call h image parent sorted_indices I T S ->
  area_inputs n I T S = true ->
  tree_inputs n T S = true ->
  exists A,
    _compute_area image parent sorted_indices h = (Ok (length h), h ++ [A]) /\
    attr_increasing A T = true /\
    forall p, 0 <= p < Z.of_nat n -> 1 <= zget A p <= Z.of_nat n.
Proof.
  intros Hcall Hin Htree. exists (area_spec n T S).
  split; [by apply (compute_area_run h image parent sorted_indices I T S n)|].
  by apply area_spec_increasing.
Qed.

Lemma compute_area_increasing_witness :
  exists A,
    _compute_area 0 2 3 ex_heap4 = (Ok (length ex_heap4), ex_heap4 ++ [A]) /\
    attr_increasing A ex_parent = true /\
    forall p, 0 <= p < Z.of_nat 8 -> 1 <= zget A p <= Z.of_nat 8.
Proof.
  apply (compute_area_increasing ex_heap4 0 2 3 ex_image ex_parent ex_sorted 8).
  - repeat split; reflexivity.
  - reflexivity.
  - reflexivity.
Defined.

(** X13. With no sorted indices [_compute_area] raises [IndexError] when it
    reads the root, before it allocates the area. *)
Theorem compute_area_without_pixels (h : list (list Z))
    (image parent sorted_indices : nat) :
  h !! sorted_indices = Some [] ->
  _compute_area image parent sorted_indices h = (Raise IndexError, h).
Proof.
  intros Hs. unfold _compute_area, bind, load.
  rewrite (contents_lookup h sorted_indices [] Hs). reflexivity.
Qed.

Lemma compute_area_without_pixels_witness :
  _compute_area 0 1 2 [[]; []; []] = (Raise IndexError, [[]; []; []]).
Proof.
  apply (compute_area_without_pixels [[]; []; []] 0 1 2). reflexivity.
Defined.

(** ** The filters *)

(** X14. On an image without negative values and a well-formed tree in
    which intensity does not increase towards the root, both filters are
    anti-extensive: no pixel of the output is above the pixel of the
    image. *)
Theorem filters_anti_extensive (h : list (list Z))
    (image output parent sorted_indices attribute : nat)
    (I O T S A : list Z) (n : nat) (thr : Z) :
  filter_call h image output parent sorted_indices attribute I O T S A ->
  filter_inputs n I O T S A = true ->
  tree_inputs n T S = true ->
  tree_mono I T = true ->
  forallb (fun v => 0 <=? v) I = true ->
  forall filter, filter = _direct_filter \/ filter = _cut_first_filter ->
    fst (filter image output parent sorted_indices attribute thr h) = Ok tt /\
    forall p, 0 <= p < Z.of_nat n ->
      zget (contents (snd (filter image output parent sorted_indices attribute thr h))
              output) p <= zget I p.
Proof.
  intros Hcall Hin Htree Hmono Hnn filter Hf.
  destruct (filter_inputs_spec _ _ _ _ _ _ Hin) as (LI & LO & _).
  assert (Hpos : forall q, 0 <= q < Z.of_nat n -> 0 <= zget I q).
  { intros q Hq. rewrite forallb_forall in Hnn. apply Z.leb_le, Hnn, list_elem_of_In.
    apply list_elem_of_lookup. exists (Z.to_nat q). apply zget_lookup. lia. }
  pose proof (outputs_le_image I T S A n thr O Htree LO Hmono Hpos) as Hout.
  destruct Hf as [-> | ->].
  - rewrite (direct_filter_run _ _ _ _ _ _ I O T S A n thr Hcall Hin).
    split; [reflexivity|]. intros p Hp. simpl.
    rewrite (run_output h image output parent sorted_indices attribute I O T S A Hcall).
    apply (Hout p Hp).
  - rewrite (cut_first_filter_run _ _ _ _ _ _ I O T S A n thr Hcall Hin).
    split; [reflexivity|]. intros p Hp. simpl.
    rewrite (run_output h image output parent sorted_indices attribute I O T S A Hcall).
    apply (Hout p Hp).
Qed.

Lemma filters_anti_extensive_witness :
  fst (_direct_filter 0 1 2 3 4 3 ex_heap) = Ok tt /\
  forall p, 0 <= p < Z.of_nat 8 ->
    zget (contents (snd (_direct_filter 0 1 2 3 4 3 ex_heap)) 1) p <= zget ex_image p.
Proof.
  apply (filters_anti_extensive ex_heap 0 1 2 3 4 ex_image ex_output ex_parent
           ex_sorted ex_area 8 3).
  - repeat split; (reflexivity || lia).
  - reflexivity.
  - reflexivity.
  - reflexivity.
  - reflexivity.
  - by left.
Defined.

(** X15. For an attribute that does not increase from parent to child, as
    the area, the two filters do the same: a call of [_cut_first_filter]
    leaves the heap that the call of [_direct_filter] leaves. *)
Theorem filters_agree_on_increasing_attribute (h : list (list Z))
    (image output parent sorted_indices attribute : nat)
    (I O T S A : list Z) (n : nat) (thr : Z) :
  filter_call h image output parent sorted_indices attribute I O T S A ->
  filter_inputs n I O T S A = true ->
  tree_inputs n T S = true ->
  attr_increasing A T = true ->
  _cut_first_filter image output parent sorted_indices attribute thr h
  = _direct_filter image output parent sorted_indices attribute thr h.
Proof.
  intros Hcall Hin Htree Hinc.
  by apply (filters_agree_increasing I O T S A n thr h image output parent
              sorted_indices attribute).
Qed.

Lemma filters_agree_on_increasing_attribute_witness :
  _cut_first_filter 0 1 2 3 4 3 ex_heap = _direct_filter 0 1 2 3 4 3 ex_heap.
Proof.
  apply (filters_agree_on_increasing_attribute ex_heap 0 1 2 3 4 ex_image ex_output
           ex_parent ex_sorted ex_area 8 3).
  - repeat split; (reflexivity || lia).
  - reflexivity.
  - reflexivity.
  - reflexivity.
Defined.

(** X16. On an image without negative values and a well-formed tree in
    which intensity does not increase towards the root, a higher threshold
    gives a lower output, pixel by pixel, for both filters. *)
Theorem filters_antitone_in_threshold (h : list (list Z))
    (image output parent sorted_indices attribute : nat)
    (I O T S A : list Z) (n : nat) (thr thr' : Z) :
  filter_call h image output parent sorted_indices attribute I O T S A ->
  filter_inputs n I O T S A = true ->
  tree_inputs n T S = true ->
  tree_mono I T = true ->
  forallb (fun v => 0 <=? v) I = true ->
  thr <= thr' ->
  forall filter, filter = _direct_filter \/ filter = _cut_first_filter ->
    forall p, 0 <= p < Z.of_nat n ->
      zget (contents (snd (filter image output parent sorted_indices attribute thr' h))
              output) p
      <= zget (contents (snd (filter image output parent sorted_indices attribute thr h))
                 output) p.
Proof.
  intros Hcall Hin Htree Hmono Hnn Hthr filter Hf p Hp.
  destruct (filter_inputs_spec _ _ _ _ _ _ Hin) as (LI & LO & _).
  assert (Hpos : forall q, 0 <= q < Z.of_nat n -> 0 <= zget I q).
  { intros q Hq. rewrite forallb_forall in Hnn. apply Z.leb_le, Hnn, list_elem_of_In.
    apply list_elem_of_lookup. exists (Z.to_nat q). apply zget_lookup. lia. }
  pose proof (outputs_antitone I T S A n thr thr' O O Htree LO LO Hmono Hpos Hthr p Hp)
    as [Hd Hc].
  destruct Hf as [-> | ->].
  - rewrite !(direct_filter_run _ _ _ _ _ _ I O T S A n _ Hcall Hin). simpl.
    by rewrite !(run_output h image output parent sorted_indices attribute I O T S A Hcall).
  - rewrite !(cut_first_filter_run _ _ _ _ _ _ I O T S A n _ Hcall Hin). simpl.
    by rewrite !(run_output h image output parent sorted_indices attribute I O T S A Hcall).
Qed.

Lemma filters_antitone_in_threshold_witness :
  2 <= 3 /\
  forall p, 0 <= p < Z.of_nat 8 ->
    zget (contents (snd (_cut_first_filter 0 1 2 3 4 3 ex_heap)) 1) p
    <= zget (contents (snd (_cut_first_filter 0 1 2 3 4 2 ex_heap)) 1) p.
Proof.
  split; [lia|].
  apply (filters_antitone_in_threshold ex_heap 0 1 2 3 4 ex_image ex_output ex_parent
           ex_sorted ex_area 8 2 3).
  - repeat split; (reflexivity || lia).
  - reflexivity.
  - reflexivity.
  - reflexivity.
  - reflexivity.
  - lia.
  - by right.
Defined.

(** X17. On a well-formed tree both filters write every pixel of the
    output: what the output array held before the call has no effect on
    the heap that the call leaves. *)
Theorem filters_overwrite_output (h : list (list Z))
    (image output parent sorted_indices attribute : nat)
    (I O O' T S A : list Z) (n : nat) (thr : Z) :
  filter_call h image output parent sorted_indices attribute I O T S A ->
  filter_inputs n I O T S A = true ->
  tree_inputs n T S = true ->
  length O' = n ->
  _direct_filter image output parent sorted_indices attribute thr (<[output := O']> h)
  = _direct_filter image output parent sorted_indices attribute thr h /\
  _cut_first_filter image output parent sorted_indices attribute thr (<[output := O']> h)
  = _cut_first_filter image output parent sorted_indices attribute thr h.
Proof.
  intros Hcall Hin Htree LO'.
  destruct (filter_inputs_spec _ _ _ _ _ _ Hin) as (LI & LO & _).
  pose proof (filter_call_output h image output parent sorted_indices attribute
                I O O' T S A Hcall) as Hcall'.
  pose proof (filter_inputs_output n I O O' T S A Hin LO') as Hin'.
  destruct (outputs_overwritten I T S A n thr O O' Htree LO LO') as [Hd Hc].
  rewrite (direct_filter_run _ _ _ _ _ _ I O T S A n thr Hcall Hin).
  rewrite (cut_first_filter_run _ _ _ _ _ _ I O T S A n thr Hcall Hin).
  rewrite (direct_filter_run _ _ _ _ _ _ I O' T S A n thr Hcall' Hin').
  rewrite (cut_first_filter_run _ _ _ _ _ _ I O' T S A n thr Hcall' Hin').
  rewrite !list_insert_insert_eq, Hd, Hc. by split.
Qed.

Lemma filters_overwrite_output_witness :
  _direct_filter 0 1 2 3 4 3 (<[1%nat := ex_image]> ex_heap)
  = _direct_filter 0 1 2 3 4 3 ex_heap /\
  _cut_first_filter 0 1 2 3 4 3 (<[1%nat := ex_image]> ex_heap)
  = _cut_first_filter 0 1 2 3 4 3 ex_heap.
Proof.
  apply (filters_overwrite_output ex_heap 0 1 2 3 4 ex_image ex_output ex_image
           ex_parent ex_sorted ex_area 8 3).
  - repeat split; (reflexivity || lia).
  - reflexivity.
  - reflexivity.
  - reflexivity.
Defined.

(** ** [_build_max_tree] *)

(** X18. A run of [_build_max_tree] changes the parent buffer and adds one
    buffer, its union-find array; image, sorted indices and every other
    buffer are as they were. *)
Theorem build_max_tree_frame (h : list (list Z)) (image parent sorted_indices : nat)
    (I T0 S mask structure shape strides : list Z) (n fuel : nat) (b : nat) :
  build_call h image parent sorted_indices I T0 S ->
  build_inputs n I T0 S mask structure shape = true ->
  (n <= fuel)%nat ->
  (b < length h)%nat -> b <> parent ->
  let outcome := _build_max_tree fuel (Some strides) image mask structure shape parent
               sorted_indices h in
  fst outcome = Ok tt /\
  length (snd outcome) = Datatypes.S (length h) /\
  snd outcome !! b = h !! b /\
  snd outcome !! image = Some I /\
  snd outcome !! sorted_indices = Some S.
Proof.
  intros Hcall Hin Hfuel Hb Hne outcome.
  assert (Hpoints : exists points, offsets_to_points structure shape = Ok points).
  { destruct (build_inputs_spec _ _ _ _ _ _ _ Hin) as (_&_&_&_&_&_&_&_&Hok&_).
    destruct (offsets_to_points structure shape) as [points|e]; [by exists points|].
    discriminate. }
  destruct Hpoints as [points Hpoints].
  destruct (build_run h image parent sorted_indices I T0 S mask structure shape n
              points fuel Hcall Hin Hpoints Hfuel strides) as (zp & Hrun & _).
  subst outcome. rewrite Hrun. simpl.
  destruct Hcall as (Hi & Ht & Hs & N1 & N2).
  split; [reflexivity|]. split; [apply length_bheap|].
  destruct (lookup_lt_is_Some_2 h b Hb) as [l Hl].
  split; [rewrite Hl; by apply bheap_lookup_other|].
  split; apply bheap_lookup_other; done.
Qed.

Lemma build_max_tree_frame_witness :
  let outcome := _build_max_tree 9 (Some [3; 1]) 0 square_mask four_offsets square_shape
               1 2 square_heap in
  fst outcome = Ok tt /\
  length (snd outcome) = Datatypes.S (length square_heap) /\
  snd outcome !! 2%nat = square_heap !! 2%nat /\
  snd outcome !! 0%nat = Some square_image /\
  snd outcome !! 2%nat = Some square_sorted.
Proof.
  apply (build_max_tree_frame square_heap 0 1 2 square_image square_parent
           square_sorted square_mask four_offsets square_shape [3; 1] 9 9 2).
  - repeat split; discriminate.
  - reflexivity.
  - lia.
  - simpl. lia.
  - discriminate.
Defined.

(** X19. The builder, the area and the filters in a row.  On inputs as
    the specification asks for, where the table of [offsets_to_points] is
    the table of the directions and the grid is connected, the three calls
    return normally: the parent array of the builder is a well-formed
    tree, the area of the root is the number of pixels, and the two
    filters, run on this tree with this area, leave the same heap, its
    output buffer holding what the direct filter computes. *)
Theorem build_area_filter (h : list (list Z))
    (image output parent sorted_indices : nat)
    (I O T0 S mask structure shape strides : list Z) (D : list (list Z))
    (n fuel : nat) (thr : Z) :
  pipeline_call h image output parent sorted_indices I O T0 S ->
  parent <> image -> parent <> sorted_indices ->
  length O = n ->
  grid_inputs n I T0 S mask structure shape D = true ->
  offsets_to_points structure shape = Ok D ->
  (forall x, 0 <= x < Z.of_nat n ->
     grid_component n I shape D (zget I (zget S 0)) (zget S 0) x) ->
  (n <= fuel)%nat ->
  exists T A h1,
    _build_max_tree fuel (Some strides) image mask structure shape parent
      sorted_indices h = (Ok tt, h1) /\
    h1 !! parent = Some T /\
    tree_inputs n T S = true /\ tree_mono I T = true /\
    _compute_area image parent sorted_indices h1 = (Ok (length h1), h1 ++ [A]) /\
    zget A (zget S 0) = Z.of_nat n /\
    _direct_filter image output parent sorted_indices (length h1) thr (h1 ++ [A])
    = (Ok tt, <[output := direct_filter_spec I T S A thr O]> (h1 ++ [A])) /\
    _cut_first_filter image output parent sorted_indices (length h1) thr (h1 ++ [A])
    = _direct_filter image output parent sorted_indices (length h1) thr (h1 ++ [A]).
Proof.
  intros (Hi & Ho & Ht & Hs & N1 & N2 & N3) N4 N5 LO Hgrid Hpoints Hconn Hfuel.
  pose proof (grid_build_inputs n I T0 S mask structure shape D Hgrid Hpoints) as Hin.
  destruct (build_inputs_spec _ _ _ _ _ _ _ Hin) as (LI & _).
  assert (Hcall : build_call h image parent sorted_indices I T0 S) by (by repeat split).
  destruct (build_run h image parent sorted_indices I T0 S mask structure shape n
              D fuel Hcall Hin Hpoints Hfuel strides) as (zp & Hrun & _).
  destruct (grid_tree_inputs n I T0 S mask structure shape D Hgrid Hpoints Hconn)
    as [Htree Hmono].
  set (T := build_par n I mask structure shape D S) in *.
  set (h1 := bheap h parent T zp) in *.
  assert (Hlt : (parent < length h)%nat) by (by eapply lookup_lt_Some).
  assert (Hpipe : pipeline_call h1 image output parent sorted_indices I O T S).
  { repeat split; try assumption; try (by apply bheap_lookup_other).
    by apply bheap_lookup_parent. }
  pose proof (pipeline_filter_call h1 image output parent sorted_indices I O T S
                (area_spec n T S) Hpipe) as Hfcall.
  pose proof (pipeline_filter_inputs I O T S n LI LO Htree) as Hfin.
  destruct (tree_inputs_spec _ _ _ Htree) as (_ & Hperm & Hord & _).
  exists T, (area_spec n T S), h1.
  split; [exact Hrun|]. split; [by apply bheap_lookup_parent|].
  split; [exact Htree|]. split; [exact Hmono|].
  split; [by apply (pipeline_area_run h1 image output parent sorted_indices I O T S n)|].
  split; [apply (area_spec_subtree T S n Hperm Hord)|].
  split; [by apply (direct_filter_run _ _ _ _ _ _ I O T S _ n thr)|].
  apply (filters_agree_increasing I O T S (area_spec n T S) n thr
           (h1 ++ [area_spec n T S]) image output parent sorted_indices (length h1)
           Hfcall Hfin Htree).
  apply (area_spec_increasing T S n Htree).
Qed.

Lemma build_area_filter_witness :
  exists T A h1,
    _build_max_tree 3 (Some [1]) 0 line_mask line_structure line_shape 1 2 line_heap4
    = (Ok tt, h1) /\
    h1 !! 1%nat = Some T /\
    tree_inputs 3 T line_sorted = true /\ tree_mono line_image T = true /\
    _compute_area 0 1 2 h1 = (Ok (length h1), h1 ++ [A]) /\
    zget A (zget line_sorted 0) = Z.of_nat 3 /\
    _direct_filter 0 3 1 2 (length h1) 2 (h1 ++ [A])
    = (Ok tt, <[3%nat := direct_filter_spec line_image T line_sorted A 2 line_output]>
                (h1 ++ [A])) /\
    _cut_first_filter 0 3 1 2 (length h1) 2 (h1 ++ [A])
    = _direct_filter 0 3 1 2 (length h1) 2 (h1 ++ [A]).
Proof.
  apply (build_area_filter line_heap4 0 3 1 2 line_image line_output line_parent
           line_sorted line_mask line_structure line_shape [1] line_points 3 3 2).
  - repeat split; discriminate.
  - discriminate.
  - discriminate.
  - reflexivity.
  - reflexivity.
  - reflexivity.
  - intros x Hx.
    assert (H01 : grid_component 3 line_image line_shape line_points 1 0 1)
      by (apply rtc_once; vm_compute; repeat split; congruence).
    assert (H12 : grid_component 3 line_image line_shape line_points 1 1 2)
      by (apply rtc_once; vm_compute; repeat split; congruence).
    change (zget line_image (zget line_sorted 0)) with 1.
    change (zget line_sorted 0) with 0.
    assert (Hcases : x = 0 \/ x = 1 \/ x = 2) by lia.
    destruct Hcases as [-> | [-> | ->]];
      [apply rtc_refl | exact H01 | by eapply rtc_trans].
  - lia.
Defined.
